(** * pdf-csv: the invoice extraction pipeline of [main.go]

    A shallow embedding of the Go program: the field extractor
    ([parseInvoice]), the rule-set loader ([loadRegexConfig]), the worker
    pool ([worker] and the fan-out / fan-in part of [main]), the
    comparator handed to [sort.Slice] and the lines [WriteInvoicesToCSV]
    writes.

    Go strings are byte strings: they are modelled by [string], whose
    characters are the 256 values of [ascii].  [int] is the 64-bit [int] of
    the usual build targets; [uint64] counters wrap modulo [2^64]. *)

From Stdlib Require Import List String Ascii Bool Arith ZArith Lia.
From Stdlib Require Import Permutation Sorted.
Import ListNotations.

Local Open Scope string_scope.
Local Open Scope list_scope.
Local Open Scope nat_scope.

(* ================================================================== *)
(** * Part I.  Definitions                                             *)
(* ================================================================== *)

(** ** Records of the program *)

(** [type RegexConfig struct]: the patterns read from the JSON template. *)
Record RegexConfig := mkRegexConfig {
  cfgFatura : string;            (* json:"fatura" *)
  cfgClienteMatricula : string;  (* json:"cliente_matricula" *)
  cfgDataInicio : string;        (* json:"data_inicio" *)
  cfgValor : string;             (* json:"valor" *)
  cfgPrazoMeses : string         (* json:"prazo_meses" *)
}.

(** [type Invoice struct]: one extracted record. *)
Record Invoice := mkInvoice {
  Fatura : string;
  ClienteMatricula : string;
  DataInicio : string;
  Valor : string;
  PrazoMeses : string
}.

(** The zero values [RegexConfig{}] and [Invoice{}]. *)
Definition zeroRegexConfig : RegexConfig := mkRegexConfig "" "" "" "" "".
Definition zeroInvoice : Invoice := mkInvoice "" "" "" "" "".

Definition Invoice_eqb (a b : Invoice) : bool :=
  String.eqb (Fatura a) (Fatura b)
  && String.eqb (ClienteMatricula a) (ClienteMatricula b)
  && String.eqb (DataInicio a) (DataInicio b)
  && String.eqb (Valor a) (Valor b)
  && String.eqb (PrazoMeses a) (PrazoMeses b).

(** ** The [strings] and [strconv] functions the comparator calls *)

Module GoStrings.

(** [strings.Split(s, sep)] for a one-byte separator: the pieces between
    the separators, in order; always at least one piece. *)
Fixpoint Split (s : string) (sep : ascii) : list string :=
  match s with
  | EmptyString => [EmptyString]
  | String c rest =>
      if Ascii.eqb c sep then EmptyString :: Split rest sep
      else match Split rest sep with
           | piece :: pieces => String c piece :: pieces
           | [] => [String c EmptyString]
           end
  end.

(** The white space of [unicode.IsSpace], each rune by its UTF-8 bytes:
    U+0009..U+000D and U+0020 (the table [asciiSpace] of package
    [strings]), U+0085, U+00A0, U+1680, U+2000..U+200A, U+2028, U+2029,
    U+202F, U+205F and U+3000. *)
Definition whiteSpace : list (list nat) :=
  [[9]; [10]; [11]; [12]; [13]; [32];
   [194; 133]; [194; 160];
   [225; 154; 128];
   [226; 128; 128]; [226; 128; 129]; [226; 128; 130]; [226; 128; 131];
   [226; 128; 132]; [226; 128; 133]; [226; 128; 134]; [226; 128; 135];
   [226; 128; 136]; [226; 128; 137]; [226; 128; 138];
   [226; 128; 168]; [226; 128; 169]; [226; 128; 175];
   [226; 129; 159];
   [227; 128; 128]].

Fixpoint startsWith (bytes : list nat) (l : list ascii) : bool :=
  match bytes, l with
  | [], _ => true
  | b :: bytes', c :: l' => (nat_of_ascii c =? b) && startsWith bytes' l'
  | _ :: _, [] => false
  end.

(** The width in bytes of the rune of the table the byte list starts
    with, [0] when it starts with none of them. *)
Definition runeWidth (table : list (list nat)) (l : list ascii) : nat :=
  match find (fun bytes => startsWith bytes l) table with
  | Some bytes => List.length bytes
  | None => 0
  end.

(** The white space rune at the front of a string: an invalid or overlong
    sequence decodes to [RuneError], which is no space, so the rune is a
    space exactly when its bytes are in the table. *)
Definition spaceWidth (l : list ascii) : nat := runeWidth whiteSpace l.

(** The same reading from the end of the string
    ([utf8.DecodeLastRuneInString]), on the reversed byte list. *)
Definition spaceWidthLast (r : list ascii) : nat :=
  runeWidth (map (@rev nat) whiteSpace) r.

(** Drop white space runes from the front, at most [fuel] of them. *)
Fixpoint trimFront (width : list ascii -> nat) (fuel : nat)
         (l : list ascii) : list ascii :=
  match fuel with
  | O => l
  | S fuel' =>
      match width l with
      | O => l
      | w => trimFront width fuel' (skipn w l)
      end
  end.

Definition TrimLeftSpace (l : list ascii) : list ascii :=
  trimFront spaceWidth (List.length l) l.

Definition TrimRightSpace (l : list ascii) : list ascii :=
  rev (trimFront spaceWidthLast (List.length l) (rev l)).

(** [strings.TrimSpace]: leading and trailing white space removed. *)
Definition TrimSpace (s : string) : string :=
  string_of_list_ascii
    (TrimRightSpace (TrimLeftSpace (list_ascii_of_string s))).

(** The decimal digits of [strconv]: the value read so far, extended by
    every byte of ['0'..'9']; anything else is a syntax error. *)
Fixpoint digits (acc : Z) (s : string) : option Z :=
  match s with
  | EmptyString => Some acc
  | String c rest =>
      let n := nat_of_ascii c in
      if (48 <=? n) && (n <=? 57)
      then digits (acc * 10 + Z.of_nat (n - 48)) rest
      else None
  end.

Definition minInt : Z := - 2 ^ 63.
Definition maxInt : Z := 2 ^ 63 - 1.

(** [strconv.Atoi]: an optional sign, then one decimal digit or more, the
    value within [int]; [None] stands for its [*NumError] (syntax or
    range). *)
Definition Atoi (s : string) : option Z :=
  let '(neg, body) :=
    match s with
    | String c rest =>
        if Ascii.eqb c "-"%char then (true, rest)
        else if Ascii.eqb c "+"%char then (false, rest)
        else (false, s)
    | EmptyString => (false, s)
    end in
  match body with
  | EmptyString => None
  | _ =>
      match digits 0 body with
      | None => None
      | Some un =>
          let n := if neg then (- un)%Z else un in
          if (minInt <=? n)%Z && (n <=? maxInt)%Z then Some n else None
      end
  end.

End GoStrings.

(** ** The comparator of the collator ([main], the closure given to
       [sort.Slice]) *)

(** The closure body on the two records [invoices[i]] and [invoices[j]]. *)
Definition less (a b : Invoice) : bool :=
  let faturaI := Fatura a in
  let faturaJ := Fatura b in
  let partsI := GoStrings.Split faturaI "/"%char in
  let partsJ := GoStrings.Split faturaJ "/"%char in
  if (List.length partsI <? 2) || (List.length partsJ <? 2)
  then (faturaI <? faturaJ)%string
  else
    let numI := GoStrings.Atoi (GoStrings.TrimSpace (nth 1 partsI "")) in
    let numJ := GoStrings.Atoi (GoStrings.TrimSpace (nth 1 partsJ "")) in
    match numI, numJ with
    | Some nI, Some nJ => (nI <? nJ)%Z
    | _, _ => (faturaI <? faturaJ)%string
    end.

(** ** Package [regexp], as far as [parseInvoice] uses it *)

(** A call either returns or panics ([regexp.MustCompile] on a pattern that
    does not parse). *)
Inductive outcome (A : Type) : Type :=
| Returned (a : A)
| Panicked.
Arguments Returned {A} a.
Arguments Panicked {A}.

Definition bind {A B : Type} (o : outcome A) (k : A -> outcome B) : outcome B :=
  match o with
  | Returned a => k a
  | Panicked => Panicked
  end.

Notation "x <- e ;; k" := (bind e (fun x => k))
  (at level 61, e at next level, right associativity).

(** The package is an interface of the model: [Compile] parses a pattern
    ([None]: a syntax error), and [matchAt re text i] is the match of [re]
    that starts at byte offset [i] of [text], as the list of the matched text
    and the text of each capture group (the empty string for a group that did
    not take part), or [None] when [re] has no match starting there. *)
Class RegexpPkg : Type := {
  Regexp : Type;
  Compile : string -> option Regexp;
  matchAt : Regexp -> string -> nat -> option (list string)
}.

Section Extractor.

Context {RE : RegexpPkg}.

(** [regexp.MustCompile]. *)
Definition MustCompile (pattern : string) : outcome Regexp :=
  match Compile pattern with
  | Some re => Returned re
  | None => Panicked
  end.

(** The leftmost match among the offsets [i, i+1, ..., i+n]. *)
Fixpoint scanFrom (re : Regexp) (text : string) (i n : nat) : list string :=
  match matchAt re text i with
  | Some m => m
  | None =>
      match n with
      | O => []
      | S n' => scanFrom re text (S i) n'
      end
  end.

(** [Regexp.FindStringSubmatch]: the leftmost match of [re] in [text]
    with its capture groups; [nil] (the empty list) when there is none. *)
Definition FindStringSubmatch (re : Regexp) (text : string) : list string :=
  scanFrom re text 0 (String.length text).

(** [reValorCleanerDot.ReplaceAllString(src, repl)]: the pattern is the
    constant [\.], whose matches are the occurrences of the byte ['.']. *)
Fixpoint ReplaceAllDots (src repl : string) : string :=
  match src with
  | EmptyString => EmptyString
  | String c rest =>
      if Ascii.eqb c "."%char then (repl ++ ReplaceAllDots rest repl)%string
      else String c (ReplaceAllDots rest repl)
  end.

(** The pattern of [reMatricula], a constant of [parseInvoice]. *)
Definition matriculaPattern : string :=
  "matricula\s+([A-Z0-9]{2}-[A-Z0-9]{2}-[A-Z0-9]{2})".

(** [match[k]] of a Go slice of strings, read where the length was
    checked. *)
Definition idx (m : list string) (k : nat) : string := nth k m "".

(** [parseInvoice(text, regexCfg)]. *)
Definition parseInvoice (text : string) (regexCfg : RegexConfig)
  : outcome Invoice :=
  reFatura <- MustCompile (cfgFatura regexCfg) ;;
  reCliente <- MustCompile (cfgClienteMatricula regexCfg) ;;
  reMatricula <- MustCompile matriculaPattern ;;
  reDataInicio <- MustCompile (cfgDataInicio regexCfg) ;;
  reValor <- MustCompile (cfgValor regexCfg) ;;
  rePrazoMeses <- MustCompile (cfgPrazoMeses regexCfg) ;;
  let fatura :=
    let m := FindStringSubmatch reFatura text in
    if 1 <? List.length m then idx m 1 else "" in
  let clienteMatricula :=
    let clienteMatch := FindStringSubmatch reCliente text in
    let matriculaMatch := FindStringSubmatch reMatricula text in
    if (1 <? List.length clienteMatch) && (1 <? List.length matriculaMatch)
    then (idx clienteMatch 1 ++ "/" ++ idx matriculaMatch 1)%string
    else if 1 <? List.length clienteMatch then idx clienteMatch 1
    else if 1 <? List.length matriculaMatch then idx matriculaMatch 1
    else "" in
  let dataInicio :=
    let m := FindStringSubmatch reDataInicio text in
    if 3 <? List.length m
    then (idx m 3 ++ "-" ++ idx m 2 ++ "-" ++ idx m 1)%string
    else "" in
  let valor :=
    let m := FindStringSubmatch reValor text in
    if 1 <? List.length m then ReplaceAllDots (idx m 1) "" else "" in
  let prazoMeses :=
    let m := FindStringSubmatch rePrazoMeses text in
    if 1 <? List.length m then idx m 1 else "" in
  Returned (mkInvoice fatura clienteMatricula dataInicio valor prazoMeses).

End Extractor.

(** ** The rule-set loader *)

(** A JSON document as [encoding/json] reads it (strings unescaped). *)
#[local] Set Warnings "-register-all".
Inductive json : Type :=
| JNull
| JBool (b : bool)
| JNumber (literal : string)
| JString (s : string)
| JArray (items : list json)
| JObject (members : list (string * json)).

(** What the program asks of its host: the file system, the syntax pass of
    [json.Unmarshal], and the PDF library behind [readPdf]. *)
Class Host : Type := {
  ReadFile : string -> option string;       (* os.ReadFile; None: an error *)
  Glob : string -> option (list string);    (* filepath.Glob *)
  jsonDocument : string -> option json;     (* None: a *json.SyntaxError *)
  PdfReader : Type;
  pdfOpen : string -> option PdfReader;     (* pdf.Open *)
  GetPlainText : PdfReader -> option string (* r.GetPlainText, read in full *)
}.

Module Json.

(** The folded name by which a key finds its struct field when no field has
    exactly that name: ASCII letters in upper case, U+017F (long s) as [S],
    U+212A (Kelvin sign) as [K], the two runes that fold onto ASCII
    letters. *)
Definition foldByte (c : nat) : nat :=
  if (97 <=? c) && (c <=? 122) then c - 32 else c.

(** The bytes [197 191] spell U+017F, the bytes [226 132 170] U+212A. *)
Fixpoint foldBytes (l : list nat) : list nat :=
  match l with
  | [] => []
  | c :: rest =>
      match rest with
      | c1 :: rest1 =>
          if (c =? 197) && (c1 =? 191) then 83 :: foldBytes rest1
          else
            match rest1 with
            | c2 :: rest2 =>
                if (c =? 226) && (c1 =? 132) && (c2 =? 170)
                then 75 :: foldBytes rest2
                else foldByte c :: foldBytes rest
            | [] => foldByte c :: foldBytes rest
            end
      | [] => [foldByte c]
      end
  end.

Definition foldName (s : string) : list nat :=
  foldBytes (map nat_of_ascii (list_ascii_of_string s)).

(** A key selects the field tagged [name]. *)
Definition selects (key name : string) : bool :=
  String.eqb key name
  || if list_eq_dec Nat.eq_dec (foldName key) (foldName name)
     then true else false.

(** Storing a JSON value into a [string] field: a string is stored, [null]
    leaves the field as it is, anything else is an [*UnmarshalTypeError]
    (the field is left as it is and decoding goes on). *)
Definition store (v : json) (old : string) : string * bool :=
  match v with
  | JString s => (s, true)
  | JNull => (old, true)
  | _ => (old, false)
  end.

(** One member of the object decoded into the struct: the fields in the
    order of [type RegexConfig]; a key that selects no field is skipped. *)
Definition member (kv : string * json) (c : RegexConfig)
  : RegexConfig * bool :=
  let '(key, v) := kv in
  if selects key "fatura" then
    let '(s, ok) := store v (cfgFatura c) in
    (mkRegexConfig s (cfgClienteMatricula c) (cfgDataInicio c) (cfgValor c)
       (cfgPrazoMeses c), ok)
  else if selects key "cliente_matricula" then
    let '(s, ok) := store v (cfgClienteMatricula c) in
    (mkRegexConfig (cfgFatura c) s (cfgDataInicio c) (cfgValor c)
       (cfgPrazoMeses c), ok)
  else if selects key "data_inicio" then
    let '(s, ok) := store v (cfgDataInicio c) in
    (mkRegexConfig (cfgFatura c) (cfgClienteMatricula c) s (cfgValor c)
       (cfgPrazoMeses c), ok)
  else if selects key "valor" then
    let '(s, ok) := store v (cfgValor c) in
    (mkRegexConfig (cfgFatura c) (cfgClienteMatricula c) (cfgDataInicio c) s
       (cfgPrazoMeses c), ok)
  else if selects key "prazo_meses" then
    let '(s, ok) := store v (cfgPrazoMeses c) in
    (mkRegexConfig (cfgFatura c) (cfgClienteMatricula c) (cfgDataInicio c)
       (cfgValor c) s, ok)
  else (c, true).

(** The members in document order; the flag stays [false] once a type
    error was saved. *)
Fixpoint object (members : list (string * json)) (c : RegexConfig)
  : RegexConfig * bool :=
  match members with
  | [] => (c, true)
  | kv :: rest =>
      let '(c1, ok1) := member kv c in
      let '(c2, ok2) := object rest c1 in
      (c2, ok1 && ok2)
  end.

(** Decoding a document into [*RegexConfig]: an object member by member,
    [null] is a no-op, any other value is an [*UnmarshalTypeError]. *)
Definition decode (doc : json) (c : RegexConfig) : RegexConfig * bool :=
  match doc with
  | JObject members => object members c
  | JNull => (c, true)
  | _ => (c, false)
  end.

End Json.

(** The two errors [loadRegexConfig] wraps. *)
Inductive loadError : Type :=
| ReadingFile      (* "reading regex config file: ..." *)
| Unmarshalling.   (* "unmarshalling regex config: ..." *)

Section Loader.

Context {H : Host}.

(** [json.Unmarshal(data, &config)]: [None] is the nil error. *)
Definition Unmarshal (data : string) (config : RegexConfig)
  : RegexConfig * option loadError :=
  match jsonDocument data with
  | None => (config, Some Unmarshalling)
  | Some doc =>
      let '(c, ok) := Json.decode doc config in
      (c, if ok then None else Some Unmarshalling)
  end.

(** [loadRegexConfig(filePath)]. *)
Definition loadRegexConfig (filePath : string)
  : RegexConfig * option loadError :=
  let config := zeroRegexConfig in
  match ReadFile filePath with
  | None => (config, Some ReadingFile)
  | Some data => Unmarshal data config
  end.

(** [readPdf(path)]: [None] is a non-nil error. *)
Definition readPdf (path : string) : option string :=
  match pdfOpen path with
  | None => None
  | Some r =>
      match GetPlainText r with
      | None => None
      | Some b => Some b
      end
  end.

End Loader.

(** ** Package [sort] *)

Section Orderings.

Context {A : Type}.
Variable lt : A -> A -> bool.

(** The requirement of [sort.Interface] on [Less], on the elements of a
    slice: "if both Less(i, j) and Less(j, k) are true, then Less(i, k)
    must be true as well; if both are false, then Less(i, k) must be false
    as well"; and [Less] is strict (no element is less than itself). *)
Definition transitiveOrdering (l : list A) : bool :=
  forallb (fun x =>
    negb (lt x x)
    && forallb (fun y =>
         forallb (fun z =>
           implb (lt x y && lt y z) (lt x z)
           && implb (negb (lt x y) && negb (lt y z)) (negb (lt x z))) l) l) l.

(** No element is less than one before it (what [sort.SliceIsSorted]
    checks, on every pair). *)
Fixpoint isSorted (l : list A) : bool :=
  match l with
  | [] => true
  | x :: rest => forallb (fun y => negb (lt y x)) rest && isSorted rest
  end.

(** [insertionSort_func(data, a, b)] of package [sort], the routine
    [sort.Slice] runs on a short slice:
    [for i := a+1; i < b; i++ { for j := i; j > a && less(j, j-1); j-- { swap(j, j-1) } }].
    The inner loop moves [x = data[i]] towards the front of the sorted
    part, which is kept here last element first. *)
Fixpoint insertBack (x : A) (sortedRev : list A) : list A :=
  match sortedRev with
  | [] => [x]
  | y :: before =>
      if lt x y then y :: insertBack x before else x :: sortedRev
  end.

Fixpoint insertionLoop (sortedRev rest : list A) : list A :=
  match rest with
  | [] => rev sortedRev
  | x :: rest' => insertionLoop (insertBack x sortedRev) rest'
  end.

Definition insertionSort (l : list A) : list A := insertionLoop [] l.

End Orderings.

(** [sort.Slice(x, less)] by its contract: the result is a rearrangement of
    the slice, and it is sorted whenever [less] is a transitive ordering of
    the elements.  Nothing is promised about the order of elements that
    [less] does not separate ("The sort is not guaranteed to be stable"). *)
Class SortPkg : Type := {
  Slice : forall A : Type, (A -> A -> bool) -> list A -> list A;
  Slice_permutation :
    forall A (lt : A -> A -> bool) l, Permutation l (Slice A lt l);
  Slice_sorted :
    forall A (lt : A -> A -> bool) l,
      transitiveOrdering lt l = true -> isSorted lt (Slice A lt l) = true
}.

(** The collator of [main]: [sort.Slice(invoices, ...)] with [less]. *)
Definition collate {S : SortPkg} (invoices : list Invoice) : list Invoice :=
  Slice Invoice less invoices.

(** ** The worker pool *)

(** [atomic.AddUint64]. *)
Definition AddUint64 (x delta : Z) : Z := ((x + delta) mod 2 ^ 64)%Z.

(** Where a worker goroutine stands in [worker]. *)
Inductive workerAt : Type :=
| AtRange                       (* for job := range jobs *)
| AtReadPdf (job : string)      (* content, err := readPdf(job) ... *)
| AtAddErrors                   (* atomic.AddUint64(totalErrors, 1) *)
| AtSend (invoice : Invoice)    (* results <- invoice *)
| AtAddProcessed                (* atomic.AddUint64(totalProcessed, 1) *)
| Exited.                       (* the deferred wg.Done() ran *)

(** Where the main goroutine stands between starting the workers and
    sorting. *)
Inductive mainAt : Type :=
| Spawning (i : Z)              (* for i := 0; i < cfg.NumWorkers; i++ *)
| Feeding (rest : list string)  (* for _, file := range files *)
| Closing                       (* close(jobs) *)
| Waiting                       (* wg.Wait() *)
| Joined (invoices : list Invoice). (* close(results); the channel drained *)

(** The shared state: the two buffered channels, the wait group and the two
    counters, with the goroutines' positions. *)
Record pool : Type := mkPool {
  mainPc : mainAt;
  workers : list workerAt;
  jobs : list string;
  jobsClosed : bool;
  results : list Invoice;
  wg : nat;
  totalProcessed : Z;
  totalErrors : Z
}.

Definition setWorker (k : nat) (w : workerAt) (ws : list workerAt)
  : list workerAt :=
  firstn k ws ++ w :: skipn (S k) ws.

Section Pool.

Context {RE : RegexpPkg} {H : Host}.

Variable regexCfg : RegexConfig.
Variable files : list string.
Variable NumWorkers : Z.

(** [make(chan string, len(files))], [make(chan Invoice, len(files))]. *)
Definition capacity : nat := List.length files.

Definition start : pool :=
  mkPool (Spawning 0) [] [] false [] 0 0%Z 0%Z.

(** One step of the main goroutine; [None] when it is blocked or done. *)
Definition stepMain (s : pool) : option pool :=
  match mainPc s with
  | Spawning i =>
      if (i <? NumWorkers)%Z
      then Some (mkPool (Spawning (i + 1)) (workers s ++ [AtRange]) (jobs s)
                   (jobsClosed s) (results s) (S (wg s))
                   (totalProcessed s) (totalErrors s))
      else Some (mkPool (Feeding files) (workers s) (jobs s) (jobsClosed s)
                   (results s) (wg s) (totalProcessed s) (totalErrors s))
  | Feeding [] =>
      Some (mkPool Closing (workers s) (jobs s) (jobsClosed s) (results s)
              (wg s) (totalProcessed s) (totalErrors s))
  | Feeding (file :: rest) =>
      if List.length (jobs s) <? capacity
      then Some (mkPool (Feeding rest) (workers s) (jobs s ++ [file])
                   (jobsClosed s) (results s) (wg s)
                   (totalProcessed s) (totalErrors s))
      else None
  | Closing =>
      Some (mkPool Waiting (workers s) (jobs s) true (results s) (wg s)
              (totalProcessed s) (totalErrors s))
  | Waiting =>
      if wg s =? 0
      then Some (mkPool (Joined (results s)) (workers s) (jobs s)
                   (jobsClosed s) (results s) (wg s)
                   (totalProcessed s) (totalErrors s))
      else None
  | Joined _ => None
  end.

(** One step of worker [k]: [None] when it is blocked, done or was never
    started; [Some Panicked] when [parseInvoice] panics.  A run is followed
    up to that panic and no further: the deferred [wg.Done()] of the
    worker still runs in the program, and the other goroutines go on until
    the runtime ends the process (so [wg.Wait()] may even return in
    between); nothing is said here of that interval. *)
Definition stepWorker (k : nat) (s : pool) : option (outcome pool) :=
  let move w := setWorker k w (workers s) in
  match nth_error (workers s) k with
  | None => None
  | Some AtRange =>
      match jobs s with
      | job :: queued =>
          Some (Returned (mkPool (mainPc s) (move (AtReadPdf job)) queued
                  (jobsClosed s) (results s) (wg s)
                  (totalProcessed s) (totalErrors s)))
      | [] =>
          if jobsClosed s
          then Some (Returned (mkPool (mainPc s) (move Exited) (jobs s)
                       (jobsClosed s) (results s) (wg s - 1)
                       (totalProcessed s) (totalErrors s)))
          else None
      end
  | Some (AtReadPdf job) =>
      match readPdf job with
      | None =>
          Some (Returned (mkPool (mainPc s) (move AtAddErrors) (jobs s)
                  (jobsClosed s) (results s) (wg s)
                  (totalProcessed s) (totalErrors s)))
      | Some content =>
          match parseInvoice content regexCfg with
          | Panicked => Some Panicked
          | Returned invoice =>
              Some (Returned (mkPool (mainPc s) (move (AtSend invoice))
                      (jobs s) (jobsClosed s) (results s) (wg s)
                      (totalProcessed s) (totalErrors s)))
          end
      end
  | Some AtAddErrors =>
      Some (Returned (mkPool (mainPc s) (move AtRange) (jobs s)
              (jobsClosed s) (results s) (wg s)
              (totalProcessed s) (AddUint64 (totalErrors s) 1)))
  | Some (AtSend invoice) =>
      if List.length (results s) <? capacity
      then Some (Returned (mkPool (mainPc s) (move AtAddProcessed) (jobs s)
                   (jobsClosed s) (results s ++ [invoice]) (wg s)
                   (totalProcessed s) (totalErrors s)))
      else None
  | Some AtAddProcessed =>
      Some (Returned (mkPool (mainPc s) (move AtRange) (jobs s)
              (jobsClosed s) (results s) (wg s)
              (AddUint64 (totalProcessed s) 1) (totalErrors s)))
  | Some Exited => None
  end.

(** The goroutines are numbered: [0] is [main], [k + 1] is the worker
    started by the iteration [i = k]. *)
Definition step (thread : nat) (s : pool) : option (outcome pool) :=
  match thread with
  | O => option_map Returned (stepMain s)
  | S k => stepWorker k s
  end.

(** A run under a schedule, the goroutine to move at each step; [None]
    when the schedule names a goroutine that cannot move. *)
Fixpoint exec (schedule : list nat) (s : pool) : option (outcome pool) :=
  match schedule with
  | [] => Some (Returned s)
  | thread :: later =>
      match step thread s with
      | None => None
      | Some Panicked => Some Panicked
      | Some (Returned s') => exec later s'
      end
  end.

Definition joined (s : pool) : bool :=
  match mainPc s with
  | Joined _ => true
  | _ => false
  end.

(** The records [main] collects after the barrier
    ([for invoice := range results]). *)
Definition collected (s : pool) : list Invoice :=
  match mainPc s with
  | Joined invoices => invoices
  | _ => []
  end.

End Pool.

(** ** The program *)

(** How a run of [main] ends, up to the call of [WriteInvoicesToCSV]. *)
Inductive ending : Type :=
| FatalLoad (e : loadError)  (* log.Fatalf("Failed to load regex configuration ...") *)
| FatalGlob                  (* log.Fatalf("Failed to find PDF files ...") *)
| Panic                      (* a goroutine panicked: the process dies *)
| Sorted (invoices : list Invoice) (processed errors : Z).

Section Program.

Context {RE : RegexpPkg} {H : Host} {S : SortPkg}.

(** [main] with the flags [-template] and [-workers], under a schedule of
    the goroutines; [None] when the schedule does not lead to the barrier. *)
Definition main (templatePath : string) (numWorkers : Z)
           (schedule : list nat) : option ending :=
  match loadRegexConfig templatePath with
  | (_, Some e) => Some (FatalLoad e)
  | (regexCfg, None) =>
      match Glob "pdfs/*.pdf" with
      | None => Some FatalGlob
      | Some files =>
          match exec regexCfg files numWorkers schedule start with
          | None => None
          | Some Panicked => Some Panic
          | Some (Returned s) =>
              match mainPc s with
              | Joined invoices =>
                  Some (Sorted (collate invoices)
                          (totalProcessed s) (totalErrors s))
              | _ => None
              end
          end
      end
  end.

End Program.

(** ** The ordering rule in the words of the specification *)

(** The second ['/']-separated segment of an invoice id, when there is
    one. *)
Definition secondSegment (invoiceId : string) : option string :=
  match GoStrings.Split invoiceId "/"%char with
  | _ :: segment :: _ => Some segment
  | _ => None
  end.

(** The integer that segment parses as (white space around it set aside, as
    the comparator does before it parses), when it parses. *)
Definition numericSuffix (invoiceId : string) : option Z :=
  match secondSegment invoiceId with
  | Some segment => GoStrings.Atoi (GoStrings.TrimSpace segment)
  | None => None
  end.

(** "Numeric comparison only when both sides parse successfully; otherwise
    string comparison for that comparison." *)
Definition twoTierLess (a b : Invoice) : bool :=
  match numericSuffix (Fatura a), numericSuffix (Fatura b) with
  | Some x, Some y => (x <? y)%Z
  | _, _ => (Fatura a <? Fatura b)%string
  end.

(** Any two different records of the list are ordered by [less], one way or
    the other. *)
Definition separated (l : list Invoice) : bool :=
  forallb (fun x =>
    forallb (fun y => Invoice_eqb x y || less x y || less y x) l) l.

(** Every invoice id of the list carries an integer second segment, and two
    different records never carry the same integer. *)
Definition distinctNumbers (l : list Invoice) : bool :=
  forallb (fun x =>
    match numericSuffix (Fatura x) with
    | None => false
    | Some nx =>
        forallb (fun y =>
          Invoice_eqb x y
          || match numericSuffix (Fatura y) with
             | Some ny => negb (nx =? ny)%Z
             | None => false
             end) l
    end) l.

(** The records of a list that carry a given invoice id, in order. *)
Definition withId (invoiceId : string) (l : list Invoice) : list Invoice :=
  filter (fun r => String.eqb (Fatura r) invoiceId) l.

(** ** Accounting for the jobs of a run *)

Lemma outcome_Invoice_eq_dec (x y : outcome Invoice) : {x = y} + {x <> y}.
Proof. repeat decide equality. Defined.

Definition sumOver {A : Type} (f : A -> nat) (l : list A) : nat :=
  list_sum (map f l).

Section Accounting.

Context {RE : RegexpPkg} {H : Host}.

Variable regexCfg : RegexConfig.
Variable files : list string.
Variable NumWorkers : Z.

(** The handles of a list whose text extraction fails, and succeeds. *)
Definition unreadable (handles : list string) : nat :=
  List.length
    (filter (fun job => match readPdf job with None => true | _ => false end)
       handles).

Definition readable (handles : list string) : nat :=
  List.length
    (filter (fun job => match readPdf job with Some _ => true | _ => false end)
       handles).

(** What the field extractor makes of the handles that yield text, one
    outcome for each of them and none for the others. *)
Definition extracted (handles : list string) : list (outcome Invoice) :=
  flat_map (fun job =>
    match readPdf job with
    | Some content => [parseInvoice content regexCfg]
    | None => []
    end) handles.

(** The handles [main] has not put on the channel yet. *)
Definition unsent (m : mainAt) : list string :=
  match m with
  | Spawning _ => files
  | Feeding rest => rest
  | _ => []
  end.

(** What a worker still owes for the job it holds: an increment of a
    counter, a record. *)
Definition owesError (w : workerAt) : nat :=
  match w with
  | AtReadPdf job => unreadable [job]
  | AtAddErrors => 1
  | _ => 0
  end.

Definition owesProcessed (w : workerAt) : nat :=
  match w with
  | AtReadPdf job => readable [job]
  | AtSend _ => 1
  | AtAddProcessed => 1
  | _ => 0
  end.

Definition owesRecord (w : workerAt) : list (outcome Invoice) :=
  match w with
  | AtReadPdf job => extracted [job]
  | AtSend invoice => [Returned invoice]
  | _ => []
  end.

Definition sentUncounted (w : workerAt) : nat :=
  match w with
  | AtAddProcessed => 1
  | _ => 0
  end.

Definition running (w : workerAt) : nat :=
  match w with
  | Exited => 0
  | _ => 1
  end.

Definition occurrences (o : outcome Invoice) (l : list (outcome Invoice))
  : nat := count_occ outcome_Invoice_eq_dec l o.

(** The invariant of the pool: every handle is in exactly one place (not
    yet sent, queued, held by a worker, or accounted for in a counter and
    in the results), the wait group counts the running workers, and the
    channel is closed only once every handle was sent. *)
Record invariant (s : pool) : Prop := {
  inv_errors :
    (0 <= totalErrors s)%Z
    /\ (totalErrors s
        + Z.of_nat (sumOver owesError (workers s) + unreadable (jobs s)
                    + unreadable (unsent (mainPc s)))
        = Z.of_nat (unreadable files))%Z;
  inv_processed :
    (0 <= totalProcessed s)%Z
    /\ (totalProcessed s
        + Z.of_nat (sumOver owesProcessed (workers s) + readable (jobs s)
                    + readable (unsent (mainPc s)))
        = Z.of_nat (readable files))%Z;
  inv_records :
    forall o,
      occurrences o (extracted files)
      = occurrences o (map Returned (results s))
        + sumOver (fun w => occurrences o (owesRecord w)) (workers s)
        + occurrences o (extracted (jobs s))
        + occurrences o (extracted (unsent (mainPc s)));
  inv_results :
    Z.of_nat (List.length (results s))
    = (totalProcessed s + Z.of_nat (sumOver sentUncounted (workers s)))%Z;
  inv_wg : wg s = sumOver running (workers s);
  inv_closed :
    jobsClosed s = match mainPc s with
                   | Waiting | Joined _ => true
                   | _ => false
                   end;
  inv_exited :
    In Exited (workers s) -> jobsClosed s = true /\ jobs s = [];
  inv_started :
    match mainPc s with
    | Spawning i => (0 <= i)%Z /\ Z.of_nat (List.length (workers s)) = i
    | _ => (NumWorkers <= Z.of_nat (List.length (workers s)))%Z
    end;
  inv_joined :
    match mainPc s with
    | Joined invoices => invoices = results s /\ wg s = 0
    | _ => True
    end
  }.

(** The steps a run can still take are bounded by this measure. *)
Definition mainWeight (m : mainAt) : nat :=
  match m with
  | Spawning i =>
      2 * Z.to_nat (NumWorkers - i) + 5 * List.length files + 4
  | Feeding rest => 5 * List.length rest + 3
  | Closing => 2
  | Waiting => 1
  | Joined _ => 0
  end.

Definition workerWeight (w : workerAt) : nat :=
  match w with
  | AtRange => 1
  | AtReadPdf _ => 4
  | AtAddErrors => 2
  | AtSend _ => 3
  | AtAddProcessed => 2
  | Exited => 0
  end.

Definition measure (s : pool) : nat :=
  mainWeight (mainPc s) + sumOver workerWeight (workers s)
  + 4 * List.length (jobs s).

End Accounting.

Arguments sumOver : simpl never.
Arguments unreadable : simpl never.
Arguments readable : simpl never.
Arguments extracted : simpl never.
Arguments occurrences : simpl never.

(** ** The resolution rules in the words of the specification *)

(** "All [.] characters removed": the other bytes stay, in order. *)
Definition withoutDots (s : string) : string :=
  string_of_list_ascii
    (filter (fun c => negb (Ascii.eqb c "."%char)) (list_ascii_of_string s)).

(** The first capture group of a match, when the match has one. *)
Definition firstGroup (m : list string) : option string :=
  match m with
  | _ :: group1 :: _ => Some group1
  | _ => None
  end.

Section Occurrences.

Context {RE : RegexpPkg}.

(** [re] matches at offset [i] of [text] with the groups [m], and at no
    offset before [i]: the first (leftmost) occurrence. *)
Definition firstOccurrence (re : Regexp) (text : string) (i : nat)
           (m : list string) : Prop :=
  i <= String.length text
  /\ matchAt re text i = Some m
  /\ forall j, j < i -> matchAt re text j = None.

(** Every pattern of the rule set parses, and so does the constant
    pattern of [parseInvoice]. *)
Definition compiles (pattern : string) : bool :=
  match Compile pattern with
  | Some _ => true
  | None => false
  end.

Definition rulesCompile (regexCfg : RegexConfig) : bool :=
  compiles (cfgFatura regexCfg)
  && compiles (cfgClienteMatricula regexCfg)
  && compiles matriculaPattern
  && compiles (cfgDataInicio regexCfg)
  && compiles (cfgValor regexCfg)
  && compiles (cfgPrazoMeses regexCfg).

End Occurrences.

(** ** Rule-set files *)

(** No member of the object is decoded into the field tagged [name]: the
    key is omitted. *)
Definition omits (name : string) (members : list (string * json)) : bool :=
  forallb (fun kv => negb (Json.selects (fst kv) name)) members.

Definition patternKeys : list string :=
  ["fatura"; "cliente_matricula"; "data_inicio"; "valor"; "prazo_meses"].

(** A member the decoder takes without an error: a string or [null], or a
    member under a key that is none of the pattern keys. *)
Definition tolerated (kv : string * json) : bool :=
  match snd kv with
  | JString _ | JNull => true
  | _ => forallb (fun name => negb (Json.selects (fst kv) name)) patternKeys
  end.

(** ** A host for the examples

    One template file, given by its bytes and the document they spell, and
    the documents of the directory, each with its text or unreadable. *)
Definition quote : string := String (ascii_of_nat 34) EmptyString.

Fixpoint textOf (path : string) (documents : list (string * option string))
  : option string :=
  match documents with
  | [] => None
  | (p, text) :: rest => if String.eqb p path then text else textOf path rest
  end.

Definition exampleHost (templateBytes : string) (template : option json)
           (documents : list (string * option string)) : Host := {|
  ReadFile := fun path =>
    if String.eqb path "template.json" then Some templateBytes else None;
  Glob := fun _ => Some (map fst documents);
  jsonDocument := fun data =>
    if String.eqb data templateBytes then template else None;
  PdfReader := string;
  pdfOpen := fun path => textOf path documents;
  GetPlainText := fun text => Some text
|}.

(** "If both match: client/registration; if only client matches: client
    text; if only registration matches: registration text; if neither:
    empty." *)
Definition composeClientRef (client registration : option string) : string :=
  match client, registration with
  | Some name, Some code => (name ++ "/" ++ code)%string
  | Some name, None => name
  | None, Some code => code
  | None, None => ""
  end.

(** "[{group3}-{group2}-{group1}]", when three groups were captured. *)
Definition reorderedDate (m : list string) : string :=
  match m with
  | _ :: group1 :: group2 :: group3 :: _ =>
      (group3 ++ "-" ++ group2 ++ "-" ++ group1)%string
  | _ => ""
  end.

Definition orEmpty (field : option string) : string :=
  match field with
  | Some s => s
  | None => ""
  end.

(** ** A small implementation of the [regexp] interface

    A backtracking matcher (leftmost match, first alternative first, as
    package [regexp] specifies its results) for the patterns built from
    bytes, [.], the classes [\d \s \w] and [[...]], groups [(...)] and
    [(?:...)], alternation and the repetitions [* + ? {n} {n,} {n,m}]
    (lazy with a trailing [?]).  Anchors, flags, the other escapes of the
    RE2 syntax and a brace that opens no repetition are outside this
    fragment: [compile] rejects them, as it rejects the patterns package
    [regexp] rejects inside the fragment (an unclosed group or class, a
    repetition with nothing to repeat).  It reads a text byte by byte, as
    package [regexp] does on ASCII text. *)
Module MiniRegexp.

Inductive re : Type :=
  | Eps
  | Chr (accepts : ascii -> bool)
  | Cat (r1 r2 : re)
  | Alt (r1 r2 : re)
  | Star (greedy : bool) (r : re)
  | Group (n : nat) (r : re).

(** The captures so far: group number, start and end offset, the latest
    first. *)
Definition captures : Type := list (nat * (nat * nat)).

Fixpoint capture (n : nat) (caps : captures) : option (nat * nat) :=
  match caps with
  | [] => None
  | (m, span) :: rest => if m =? n then Some span else capture n rest
  end.

(** [run r s pos caps k]: match [r] at the front of [s] (offset [pos] of
    the text), then go on with [k]; the first success is the result. *)
Fixpoint run (r : re) (s : list ascii) (pos : nat) (caps : captures)
         (k : list ascii -> nat -> captures -> option captures)
  : option captures :=
  match r with
  | Eps => k s pos caps
  | Chr accepts =>
      match s with
      | c :: s' => if accepts c then k s' (S pos) caps else None
      | [] => None
      end
  | Cat r1 r2 =>
      run r1 s pos caps (fun s' pos' caps' => run r2 s' pos' caps' k)
  | Alt r1 r2 =>
      match run r1 s pos caps k with
      | Some found => Some found
      | None => run r2 s pos caps k
      end
  | Group n r1 =>
      run r1 s pos caps
        (fun s' pos' caps' => k s' pos' ((n, (pos, pos')) :: caps'))
  | Star greedy r1 =>
      (fix loop (fuel : nat) (s : list ascii) (pos : nat) (caps : captures)
         : option captures :=
         match fuel with
         | O => k s pos caps
         | S fuel' =>
             let again :=
               run r1 s pos caps
                 (fun s' pos' caps' =>
                    if pos <? pos' then loop fuel' s' pos' caps' else None) in
             if greedy
             then match again with
                  | Some found => Some found
                  | None => k s pos caps
                  end
             else match k s pos caps with
                  | Some found => Some found
                  | None => again
                  end
         end) (S (List.length s)) s pos caps
  end.

Record compiled : Type := mkCompiled { ast : re; numSubexp : nat }.

(** The match that starts at offset [i]: the matched text, then the text
    of the groups [1..numSubexp]. *)
Definition matchAt (c : compiled) (text : string) (i : nat)
  : option (list string) :=
  if String.length text <? i then None
  else
    match run (ast c) (skipn i (list_ascii_of_string text)) i []
            (fun _ pos caps => Some ((0, (i, pos)) :: caps)) with
    | None => None
    | Some caps =>
        Some (map (fun n =>
                match capture n caps with
                | Some (from, to) => String.substring from (to - from) text
                | None => EmptyString
                end) (seq 0 (S (numSubexp c))))
    end.

(** *** The parser *)

Definition isDigit (c : ascii) : bool :=
  let n := nat_of_ascii c in (48 <=? n) && (n <=? 57).

Definition isSpace (c : ascii) : bool :=          (* \s = [\t\n\f\r ] *)
  let n := nat_of_ascii c in
  (n =? 9) || (n =? 10) || (n =? 12) || (n =? 13) || (n =? 32).

Definition isWord (c : ascii) : bool :=           (* \w = [0-9A-Za-z_] *)
  let n := nat_of_ascii c in
  isDigit c || ((65 <=? n) && (n <=? 90)) || ((97 <=? n) && (n <=? 122))
  || (n =? 95).

Definition isPunct (c : ascii) : bool :=
  let n := nat_of_ascii c in
  ((33 <=? n) && (n <=? 47)) || ((58 <=? n) && (n <=? 64))
  || ((91 <=? n) && (n <=? 96)) || ((123 <=? n) && (n <=? 126)).

(** What follows a backslash. *)
Definition escape (c : ascii) : option (ascii -> bool) :=
  if Ascii.eqb c "d"%char then Some isDigit
  else if Ascii.eqb c "D"%char then Some (fun x => negb (isDigit x))
  else if Ascii.eqb c "s"%char then Some isSpace
  else if Ascii.eqb c "S"%char then Some (fun x => negb (isSpace x))
  else if Ascii.eqb c "w"%char then Some isWord
  else if Ascii.eqb c "W"%char then Some (fun x => negb (isWord x))
  else if isPunct c then Some (Ascii.eqb c)
  else None.

(** The items of a class up to its closing bracket. *)
Fixpoint classItems (fuel : nat) (s : list ascii) (acc : ascii -> bool)
  : option ((ascii -> bool) * list ascii) :=
  match fuel with
  | O => None
  | S fuel' =>
      match s with
      | [] => None
      | "]"%char :: rest => Some (acc, rest)
      | "\"%char :: c :: rest =>
          match escape c with
          | Some p => classItems fuel' rest (fun x => acc x || p x)
          | None => None
          end
      | lo :: "-"%char :: hi :: rest =>
          if Ascii.eqb hi "]"%char then
            classItems fuel' ("-"%char :: hi :: rest)
              (fun x => acc x || Ascii.eqb lo x)
          else if Ascii.eqb hi "\"%char then None
          else if nat_of_ascii hi <? nat_of_ascii lo then None
          else classItems fuel' rest
                 (fun x => acc x
                           || ((nat_of_ascii lo <=? nat_of_ascii x)
                               && (nat_of_ascii x <=? nat_of_ascii hi)))
      | c :: rest => classItems fuel' rest (fun x => acc x || Ascii.eqb c x)
      end
  end.

Definition class (s : list ascii) : option ((ascii -> bool) * list ascii) :=
  let '(negated, body) :=
    match s with
    | "^"%char :: rest => (true, rest)
    | _ => (false, s)
    end in
  let items :=
    match body with
    | "]"%char :: rest =>
        classItems (List.length rest) rest (Ascii.eqb "]"%char)
    | _ => classItems (List.length body) body (fun _ => false)
    end in
  match items with
  | Some (p, rest) =>
      Some (if negated then (fun x => negb (p x)) else p, rest)
  | None => None
  end.

Fixpoint number (s : list ascii) (acc : option nat)
  : option nat * list ascii :=
  match s with
  | c :: rest =>
      if isDigit c
      then number rest
             (Some (10 * match acc with Some n => n | None => 0 end
                    + (nat_of_ascii c - 48)))
      else (acc, s)
  | [] => (acc, s)
  end.

Fixpoint copies (n : nat) (r tail : re) : re :=
  match n with
  | O => tail
  | S n' => Cat r (copies n' r tail)
  end.

(** [r? (r? ...)] nested [n] deep: up to [n] more copies of [r]. *)
Fixpoint upTo (greedy : bool) (n : nat) (r : re) : re :=
  match n with
  | O => Eps
  | S n' =>
      let more := Cat r (upTo greedy n' r) in
      if greedy then Alt more Eps else Alt Eps more
  end.

(** A repetition operator at the front of [s], if there is one: the
    operator as a function of its operand and of laziness, and the rest. *)
Definition repetition (s : list ascii)
  : option ((bool -> re -> re) * list ascii) :=
  match s with
  | "*"%char :: rest => Some ((fun (g : bool) (r : re) => Star g r), rest)
  | "+"%char :: rest =>
      Some ((fun (g : bool) (r : re) => Cat r (Star g r)), rest)
  | "?"%char :: rest =>
      Some ((fun (g : bool) (r : re) => if g then Alt r Eps else Alt Eps r),
            rest)
  | "{"%char :: rest =>
      match number rest None with
      | (Some n, "}"%char :: rest') =>
          Some ((fun (_ : bool) (r : re) => copies n r Eps), rest')
      | (Some n, ","%char :: rest') =>
          match number rest' None with
          | (None, "}"%char :: rest'') =>
              Some ((fun (g : bool) (r : re) => copies n r (Star g r)),
                    rest'')
          | (Some m, "}"%char :: rest'') =>
              if m <? n then None
              else Some ((fun (g : bool) (r : re) =>
                            copies n r (upTo g (m - n) r)), rest'')
          | _ => None
          end
      | _ => None
      end
  | _ => None
  end.

(** An atom with the repetition that follows it; a second repetition
    operator after the first is an error. *)
Definition repeated (atom : re) (s : list ascii) : option (re * list ascii) :=
  match repetition s with
  | None =>
      match s with
      | "{"%char :: _ => None
      | _ => Some (atom, s)
      end
  | Some (op, rest) =>
      let '(greedy, rest') :=
        match rest with
        | "?"%char :: rest' => (false, rest')
        | _ => (true, rest)
        end in
      match rest' with
      | "*"%char :: _ | "+"%char :: _ | "?"%char :: _ | "{"%char :: _ => None
      | _ => Some (op greedy atom, rest')
      end
  end.

(** Alternations, concatenations and atoms; [groups] counts the capture
    groups opened so far. *)
Fixpoint alternation (fuel : nat) (s : list ascii) (groups : nat)
  : option (re * list ascii * nat) :=
  match fuel with
  | O => None
  | S fuel' =>
      let atom (s : list ascii) (groups : nat)
        : option (re * list ascii * nat) :=
        match s with
        | "("%char :: "?"%char :: ":"%char :: inner =>
            match alternation fuel' inner groups with
            | Some (r, ")"%char :: rest, groups') => Some (r, rest, groups')
            | _ => None
            end
        | "("%char :: "?"%char :: _ => None
        | "("%char :: inner =>
            match alternation fuel' inner (S groups) with
            | Some (r, ")"%char :: rest, groups') =>
                Some (Group (S groups) r, rest, groups')
            | _ => None
            end
        | "["%char :: body =>
            match class body with
            | Some (p, rest) => Some (Chr p, rest, groups)
            | None => None
            end
        | "\"%char :: c :: rest =>
            match escape c with
            | Some p => Some (Chr p, rest, groups)
            | None => None
            end
        | "."%char :: rest =>
            Some (Chr (fun x => negb (nat_of_ascii x =? 10)), rest, groups)
        | c :: rest =>
            if Ascii.eqb c "*"%char || Ascii.eqb c "+"%char || Ascii.eqb c "?"%char
               || Ascii.eqb c "^"%char || Ascii.eqb c "$"%char || Ascii.eqb c "\"%char
            then None
            else Some (Chr (Ascii.eqb c), rest, groups)
        | [] => None
        end in
      let fix concatenation (n : nat) (s : list ascii) (groups : nat)
        : option (re * list ascii * nat) :=
        match n with
        | O => None
        | S n' =>
            match s with
            | [] => Some (Eps, s, groups)
            | "|"%char :: _ => Some (Eps, s, groups)
            | ")"%char :: _ => Some (Eps, s, groups)
            | _ =>
                match atom s groups with
                | None => None
                | Some (a, s1, groups1) =>
                    match repeated a s1 with
                    | None => None
                    | Some (q, s2) =>
                        match concatenation n' s2 groups1 with
                        | None => None
                        | Some (r, s3, groups2) =>
                            Some (Cat q r, s3, groups2)
                        end
                    end
                end
            end
        end in
      match concatenation (S (List.length s)) s groups with
      | None => None
      | Some (r1, "|"%char :: s1, groups1) =>
          match alternation fuel' s1 groups1 with
          | Some (r2, s2, groups2) => Some (Alt r1 r2, s2, groups2)
          | None => None
          end
      | Some done => Some done
      end
  end.

Definition compile (pattern : string) : option compiled :=
  let s := list_ascii_of_string pattern in
  match alternation (S (List.length s)) s 0 with
  | Some (r, [], groups) => Some (mkCompiled r groups)
  | _ => None
  end.

End MiniRegexp.

#[local] Instance miniRegexp : RegexpPkg := {|
  Regexp := MiniRegexp.compiled;
  Compile := MiniRegexp.compile;
  matchAt := MiniRegexp.matchAt
|}.

(** ** A rule set and a directory for the examples *)

(** Patterns in the manner of the README's [template.json]. *)
Definition exampleRules : RegexConfig :=
  mkRegexConfig
    "Fatura\s*(FT\s+\d{4}/\d+)"
    "Cliente\s*(.*?)\s*(?:Data de Vencimento|Data)"
    "Data\s*(\d{2})/(\d{2})/(\d{4})"
    "Total\s*([\d,.]+)"
    "(\d{1,2})\s+[Mm]eses".

Definition exampleText : string :=
  "Fatura FT 2023/12345 Cliente Test Client Data 26/10/2023 "
  ++ "Total 1.234,56 Garantia 12 meses matricula AB-12-CD "
  ++ "Fatura FT 2023/99999 Total 9,99".

(** Three documents: one invoice, one file the PDF library cannot read, one
    text in which no pattern matches. *)
Definition exampleDocuments : list (string * option string) :=
  [("pdfs/a.pdf", Some exampleText);
   ("pdfs/b.pdf", None);
   ("pdfs/c.pdf", Some "nothing to see")].

Definition exampleFiles : list string := map fst exampleDocuments.

(** A host whose template file spells the empty object. *)
Definition emptyTemplateHost : Host :=
  exampleHost "{}" (Some (JObject [])) exampleDocuments.

(** A run of two workers over the three documents: goroutine [0] is [main],
    [1] and [2] are the workers. *)
Definition exampleSchedule : list nat :=
  [0; 0; 0; 0; 1; 0; 2; 1; 2; 0; 2; 2; 1; 0; 2; 1; 0; 1; 2; 2; 2; 0].

Definition exampleRun : option (outcome pool) :=
  @exec miniRegexp emptyTemplateHost exampleRules exampleFiles 2
    exampleSchedule start.

Definition exampleBarrier : pool :=
  match exampleRun with
  | Some (Returned s) => s
  | _ => start
  end.

(** The record of the first example document. *)
Definition exampleInvoice : Invoice :=
  mkInvoice "FT 2023/12345" "Test Client/AB-12-CD" "2023-10-26" "1234,56" "12".

(** A pattern of the examples, compiled. *)
Definition compiled (pattern : string) : MiniRegexp.compiled :=
  match MiniRegexp.compile pattern with
  | Some re => re
  | None => MiniRegexp.mkCompiled MiniRegexp.Eps 0
  end.




(** ** The output sink: [WriteInvoicesToCSV] *)

Module Csv.

Definition dquote : ascii := ascii_of_nat 34.
Definition comma : ascii := ascii_of_nat 44.
Definition LF : ascii := ascii_of_nat 10.
Definition CR : ascii := ascii_of_nat 13.

(** A byte that ends an unquoted field or shows inside one only in
    quotes. *)
Definition special (c : ascii) : bool :=
  Ascii.eqb c LF || Ascii.eqb c CR || Ascii.eqb c dquote || Ascii.eqb c comma.

(** [fieldNeedsQuotes] of [csv.Writer], with the default [Comma]: not the
    empty field; the field [\.]; a field with a line break, a quote or a
    comma in it; a field whose first rune is white space. *)
Definition fieldNeedsQuotes (field : string) : bool :=
  if String.eqb field "" then false
  else if String.eqb field "\." then true
  else if existsb special (list_ascii_of_string field) then true
  else 0 <? GoStrings.spaceWidth (list_ascii_of_string field).

(** The loop of [Write] over a field in quotes: every byte as it is
    ([UseCRLF] is not set), a quote doubled. *)
Fixpoint quoted (field : string) : string :=
  match field with
  | EmptyString => EmptyString
  | String c rest =>
      if Ascii.eqb c dquote then String dquote (String dquote (quoted rest))
      else String c (quoted rest)
  end.

Definition writeField (field : string) : string :=
  if fieldNeedsQuotes field
  then String dquote (quoted field ++ String dquote EmptyString)
  else field.

(** The fields with a comma before each but the first. *)
Fixpoint writeFields (first : bool) (record : list string) : string :=
  match record with
  | [] => EmptyString
  | field :: rest =>
      ((if first then EmptyString else String comma EmptyString)
       ++ writeField field ++ writeFields false rest)%string
  end.

(** [writer.Write(record)]: the line of a record, ended by a line feed. *)
Definition Write (record : list string) : string :=
  (writeFields true record ++ String LF EmptyString)%string.

End Csv.

Definition csvHeader : list string :=
  ["Fatura"; "Cliente/Matricula"; "Data Inicio"; "Valor"; "Prazo Meses"].

(** The [record] of the loop of [WriteInvoicesToCSV]. *)
Definition csvRecord (invoice : Invoice) : list string :=
  [Fatura invoice; ClienteMatricula invoice; DataInicio invoice;
   Valor invoice; PrazoMeses invoice].

(** The loop [for _, invoice := range invoices] of [WriteInvoicesToCSV]:
    a line for each invoice, in order. *)
Fixpoint writeRecords (invoices : list Invoice) : string :=
  match invoices with
  | [] => EmptyString
  | invoice :: rest =>
      (Csv.Write (csvRecord invoice) ++ writeRecords rest)%string
  end.

(** [WriteInvoicesToCSV(filename, invoices)], by the bytes it writes
    through the [csv.Writer]: the header, then the line of each invoice.
    They are the content of the file when [os.Create] and the writes
    succeed. *)
Definition WriteInvoicesToCSV (invoices : list Invoice) : string :=
  (Csv.Write csvHeader ++ writeRecords invoices)%string.

(** ** Readers for the lines of the sink, to tell its lines apart *)

Module CsvRead.

(** The rest of a field after its opening quote: up to the quote that is
    not doubled. *)
Fixpoint readQuoted (s : string) : option (string * string) :=
  match s with
  | EmptyString => None
  | String c rest =>
      if Ascii.eqb c Csv.dquote then
        match rest with
        | String c' rest' =>
            if Ascii.eqb c' Csv.dquote then
              match readQuoted rest' with
              | Some (field, after) => Some (String Csv.dquote field, after)
              | None => None
              end
            else Some (EmptyString, rest)
        | EmptyString => Some (EmptyString, EmptyString)
        end
      else
        match readQuoted rest with
        | Some (field, after) => Some (String c field, after)
        | None => None
        end
  end.

(** An unquoted field: up to the next comma or line feed. *)
Fixpoint readPlain (s : string) : string * string :=
  match s with
  | EmptyString => (EmptyString, EmptyString)
  | String c rest =>
      if Ascii.eqb c Csv.comma || Ascii.eqb c Csv.LF then (EmptyString, s)
      else let '(field, after) := readPlain rest in (String c field, after)
  end.

Definition readField (s : string) : option (string * string) :=
  match s with
  | String c rest =>
      if Ascii.eqb c Csv.dquote then readQuoted rest else Some (readPlain s)
  | EmptyString => Some (EmptyString, EmptyString)
  end.

(** The fields of a line of [n] fields, and what follows the line. *)
Fixpoint readFields (n : nat) (s : string) : option (list string * string) :=
  match n with
  | O => None
  | S n' =>
      match readField s with
      | None => None
      | Some (field, after) =>
          match after with
          | EmptyString => None
          | String c rest =>
              match n' with
              | O => if Ascii.eqb c Csv.LF then Some ([field], rest) else None
              | S _ =>
                  if Ascii.eqb c Csv.comma then
                    match readFields n' rest with
                    | Some (fields, rest') => Some (field :: fields, rest')
                    | None => None
                    end
                  else None
              end
          end
      end
  end.

(** A byte that ends a field: a comma or a line feed. *)
Definition delimited (s : string) : bool :=
  match s with
  | String c _ => Ascii.eqb c Csv.comma || Ascii.eqb c Csv.LF
  | EmptyString => false
  end.

(** [n] lines of five fields each, and nothing after them. *)
Fixpoint readRecords (n : nat) (s : string) : option (list Invoice) :=
  match n with
  | O => match s with
         | EmptyString => Some []
         | _ => None
         end
  | S n' =>
      match readFields 5 s with
      | Some ([fatura; clienteMatricula; dataInicio; valor; prazoMeses],
              rest) =>
          match readRecords n' rest with
          | Some invoices =>
              Some (mkInvoice fatura clienteMatricula dataInicio valor
                      prazoMeses :: invoices)
          | None => None
          end
      | _ => None
      end
  end.

(** The header line, then [n] records. *)
Definition readAll (header : list string) (n : nat) (s : string)
  : option (list Invoice) :=
  match readFields (List.length header) s with
  | Some (fields, rest) =>
      if list_eq_dec string_dec fields header then readRecords n rest
      else None
  | None => None
  end.

End CsvRead.

(** ** Records by the tier of their invoice id *)

Definition numbered (r : Invoice) : bool :=
  match numericSuffix (Fatura r) with
  | Some _ => true
  | None => false
  end.

(** The integer of a numbered record. *)
Definition suffixOf (r : Invoice) : Z :=
  match numericSuffix (Fatura r) with
  | Some n => n
  | None => 0%Z
  end.

(** No byte of the string is a ['/']. *)
Definition noSlash (s : string) : bool :=
  forallb (fun c => negb (Ascii.eqb c "/"%char)) (list_ascii_of_string s).

(** What may follow the second segment of an invoice id: nothing, or a
    ['/'] and more. *)
Definition segmentEnds (tail : string) : bool :=
  match tail with
  | EmptyString => true
  | String c _ => Ascii.eqb c "/"%char
  end.

(** ** Rule-set documents *)

(** A document the decoder takes without an error: [null], or an object
    whose members are all tolerated. *)
Definition acceptable (doc : json) : bool :=
  match doc with
  | JNull => true
  | JObject members => forallb tolerated members
  | _ => false
  end.

(** The pattern a rule set holds under a key of the template. *)
Definition patternOf (name : string) (c : RegexConfig) : string :=
  if String.eqb name "fatura" then cfgFatura c
  else if String.eqb name "cliente_matricula" then cfgClienteMatricula c
  else if String.eqb name "data_inicio" then cfgDataInicio c
  else if String.eqb name "valor" then cfgValor c
  else if String.eqb name "prazo_meses" then cfgPrazoMeses c
  else "".

(** The key is the name of the field up to the folding of the decoder
    ([VALOR] and [Valor] for [valor]). *)
Definition folds (key name : string) : bool :=
  if list_eq_dec Nat.eq_dec (Json.foldName key) (Json.foldName name)
  then true else false.

(** The member sets the pattern of the field: its key folds to the
    field's name and its value is a string. *)
Definition sets (name : string) (kv : string * json) : bool :=
  match snd kv with
  | JString _ => folds (fst kv) name
  | _ => false
  end.

(** The pattern of a field after the members of a document, read from the
    first to the last: a member that sets the field replaces the pattern,
    every other member (one for another field, one under an unknown key,
    a [null], a value of another type) leaves it as it is. *)
Fixpoint patternAfter (name : string) (members : list (string * json))
         (current : string) : string :=
  match members with
  | [] => current
  | kv :: rest =>
      patternAfter name rest
        (if sets name kv
         then match snd kv with
              | JString s => s
              | _ => current
              end
         else current)
  end.

(** ** A pool without workers *)

(** No worker was started, nothing was sent on the results channel and
    nothing was counted. *)
Definition idle (s : pool) : Prop :=
  workers s = [] /\ results s = []
  /\ totalProcessed s = 0%Z /\ totalErrors s = 0%Z
  /\ match mainPc s with
     | Spawning i => i = 0%Z
     | Joined invoices => invoices = []
     | _ => True
     end.

(** ** A pool of one worker *)

(** What the workers hold of the extraction, in the order of the
    workers. *)
Definition held {RE : RegexpPkg} {H : Host} (regexCfg : RegexConfig)
           (ws : list workerAt) : list (outcome Invoice) :=
  flat_map (owesRecord regexCfg) ws.

(** With at most one worker the records are in the order of the handles:
    those on the results channel, the one the worker holds, those of the
    queued handles, those of the handles not sent yet. *)
Definition inOrder {RE : RegexpPkg} {H : Host} (regexCfg : RegexConfig)
           (files : list string) (s : pool) : Prop :=
  List.length (workers s) <= 1
  /\ match mainPc s with
     | Spawning i => i = Z.of_nat (List.length (workers s))
     | _ => True
     end
  /\ extracted regexCfg files
     = map Returned (results s) ++ held regexCfg (workers s)
       ++ extracted regexCfg (jobs s)
       ++ extracted regexCfg (unsent files (mainPc s)).

(** ** The workers started *)

(** The workers started so far: as many as iterations of the loop of
    [main] that are done, [cfg.NumWorkers] of them (none when the flag is
    negative) once the loop is left. *)
Definition staffed (NumWorkers : Z) (s : pool) : Prop :=
  match mainPc s with
  | Spawning i =>
      (0 <= i <= Z.max 0 NumWorkers)%Z
      /\ Z.of_nat (List.length (workers s)) = i
  | _ => Z.of_nat (List.length (workers s)) = Z.max 0 NumWorkers
  end.

(** ** More examples: a template file for the example rules *)

(** A string as a JSON string literal: in quotes, each backslash
    doubled. *)
Fixpoint jsonEscape (s : string) : string :=
  match s with
  | EmptyString => EmptyString
  | String c rest =>
      if Ascii.eqb c "\"%char then String c (String c (jsonEscape rest))
      else String c (jsonEscape rest)
  end.

Definition jsonLiteral (s : string) : string :=
  (quote ++ jsonEscape s ++ quote)%string.

Definition rulesTemplateBytes : string :=
  "{" ++ jsonLiteral "fatura" ++ ": "
      ++ jsonLiteral (cfgFatura exampleRules) ++ ", "
  ++ jsonLiteral "cliente_matricula" ++ ": "
      ++ jsonLiteral (cfgClienteMatricula exampleRules) ++ ", "
  ++ jsonLiteral "data_inicio" ++ ": "
      ++ jsonLiteral (cfgDataInicio exampleRules) ++ ", "
  ++ jsonLiteral "valor" ++ ": "
      ++ jsonLiteral (cfgValor exampleRules) ++ ", "
  ++ jsonLiteral "prazo_meses" ++ ": "
      ++ jsonLiteral (cfgPrazoMeses exampleRules) ++ "}".

Definition rulesTemplate : json :=
  JObject [("fatura", JString (cfgFatura exampleRules));
           ("cliente_matricula", JString (cfgClienteMatricula exampleRules));
           ("data_inicio", JString (cfgDataInicio exampleRules));
           ("valor", JString (cfgValor exampleRules));
           ("prazo_meses", JString (cfgPrazoMeses exampleRules))].

Definition rulesHost : Host :=
  exampleHost rulesTemplateBytes (Some rulesTemplate) exampleDocuments.

(** A run of one worker over the three documents: [main] starts the
    worker, sends the three handles and closes the channel; the worker
    takes them one after the other and exits; [main] passes the
    barrier. *)
Definition oneWorkerSchedule : list nat :=
  repeat 0 7 ++ repeat 1 12 ++ [0].

(** The rule set of the template [{"fatura": "("}]. *)
Definition brokenRules : RegexConfig := mkRegexConfig "(" "" "" "" "".

(** The state a run is in after a schedule, when the schedule can be
    followed. *)
Definition stateAfter {RE : RegexpPkg} {H : Host} (regexCfg : RegexConfig)
           (files : list string) (NumWorkers : Z) (schedule : list nat)
  : pool :=
  match exec regexCfg files NumWorkers schedule start with
  | Some (Returned s) => s
  | _ => start
  end.

(** Two workers started, [main] about to send the first handle. *)
Definition exampleFeeding : pool :=
  @stateAfter miniRegexp rulesHost exampleRules exampleFiles 2 [0; 0; 0].

(** The first worker holds the first document, under the broken rules. *)
Definition exampleBroken : pool :=
  @stateAfter miniRegexp rulesHost brokenRules exampleFiles 2 [0; 0; 0; 0; 1].

(** The barrier of the run of one worker. *)
Definition oneWorkerBarrier : pool :=
  @stateAfter miniRegexp rulesHost exampleRules exampleFiles 1
    oneWorkerSchedule.

(* ================================================================== *)
(** * Part II.  Lemmas                                                 *)
(* ================================================================== *)

(** ** Orderings and the insertion sort of package [sort] *)

Section OrderingFacts.

Context {A : Type}.
Variable lt : A -> A -> bool.

Lemma transitiveOrdering_spec (l : list A) :
  transitiveOrdering lt l = true <->
  (forall x, In x l -> lt x x = false)
  /\ (forall x y z, In x l -> In y l -> In z l ->
        lt x y = true -> lt y z = true -> lt x z = true)
  /\ (forall x y z, In x l -> In y l -> In z l ->
        lt x y = false -> lt y z = false -> lt x z = false).
Proof.
  unfold transitiveOrdering. rewrite forallb_forall. split.
  - intros Hall. repeat split.
    + intros x Hx. apply Hall in Hx. apply andb_prop in Hx as [Hx _].
      now apply negb_true_iff.
    + intros x y z Hx Hy Hz Hxy Hyz. apply Hall in Hx.
      apply andb_prop in Hx as [_ Hx].
      rewrite forallb_forall in Hx. specialize (Hx y Hy).
      rewrite forallb_forall in Hx. specialize (Hx z Hz).
      rewrite Hxy, Hyz in Hx. simpl in Hx.
      now destruct (lt x z).
    + intros x y z Hx Hy Hz Hxy Hyz. apply Hall in Hx.
      apply andb_prop in Hx as [_ Hx].
      rewrite forallb_forall in Hx. specialize (Hx y Hy).
      rewrite forallb_forall in Hx. specialize (Hx z Hz).
      rewrite Hxy, Hyz in Hx. simpl in Hx.
      now destruct (lt x z).
  - intros (Hirr & Htr & Hneg) x Hx.
    rewrite (Hirr x Hx). simpl.
    apply forallb_forall. intros y Hy.
    apply forallb_forall. intros z Hz.
    specialize (Htr x y z Hx Hy Hz). specialize (Hneg x y z Hx Hy Hz).
    destruct (lt x y), (lt y z), (lt x z); simpl; auto;
      try (discriminate (Htr eq_refl eq_refl));
      try (discriminate (Hneg eq_refl eq_refl)).
Qed.

Lemma transitiveOrdering_perm (l l' : list A) :
  Permutation l l' ->
  transitiveOrdering lt l = true -> transitiveOrdering lt l' = true.
Proof.
  intros Hp. rewrite !transitiveOrdering_spec.
  intros (Hirr & Htr & Hneg).
  assert (Hin : forall x, In x l' -> In x l)
    by (intros x; apply Permutation_in; now apply Permutation_sym).
  repeat split; eauto 10.
Qed.

Lemma isSorted_spec (l : list A) :
  isSorted lt l = true <-> ForallOrdPairs (fun x y => lt y x = false) l.
Proof.
  induction l as [|x l IH]; simpl.
  - split; auto. intros _. constructor.
  - rewrite andb_true_iff, forallb_forall, IH. split.
    + intros [Hx Hl]. constructor; auto.
      apply Forall_forall. intros y Hy. apply negb_true_iff. auto.
    + intros Hs. inversion Hs as [|? ? Hx Hl]; subst. split; auto.
      intros y Hy. apply negb_true_iff.
      rewrite Forall_forall in Hx. auto.
Qed.

(** In a sorted list no element after [x] is less than [x]. *)
Lemma isSorted_after (l1 l2 : list A) (x y : A) :
  isSorted lt (l1 ++ x :: l2) = true -> In y l2 -> lt y x = false.
Proof.
  induction l1 as [|a l1 IH]; simpl; intros Hs Hy.
  - apply andb_prop in Hs as [Hx _]. rewrite forallb_forall in Hx.
    apply negb_true_iff. auto.
  - apply andb_prop in Hs as [_ Hs]. auto.
Qed.

(** Two sorted arrangements of the same elements are the same sequence
    when [lt] separates any two different elements. *)
Lemma sorted_arrangement_unique (l1 : list A) :
  forall l2,
    Permutation l1 l2 ->
    isSorted lt l1 = true -> isSorted lt l2 = true ->
    (forall x y, In x l1 -> In y l1 ->
       x = y \/ lt x y = true \/ lt y x = true) ->
    l1 = l2.
Proof.
  induction l1 as [|x r1 IH]; intros l2 Hp H1 H2 Htot.
  - apply Permutation_nil in Hp. now subst.
  - destruct l2 as [|y r2].
    + apply Permutation_sym, Permutation_nil in Hp. discriminate.
    + simpl in H1, H2.
      apply andb_prop in H1 as [Hx1 Hs1]. apply andb_prop in H2 as [Hy2 Hs2].
      rewrite forallb_forall in Hx1, Hy2.
      assert (Hxy : x = y).
      { assert (Hyin : In y (x :: r1))
          by (eapply Permutation_in;
              [apply Permutation_sym; exact Hp | now left]).
        assert (Hxin : In x (y :: r2))
          by (eapply Permutation_in; [exact Hp | now left]).
        destruct (Htot x y (or_introl eq_refl) Hyin) as [E | [L | L]]; auto.
        - destruct Hxin as [E | Hxin]; [now subst|].
          apply Hy2 in Hxin. rewrite L in Hxin. discriminate.
        - destruct Hyin as [E | Hyin]; [now subst|].
          apply Hx1 in Hyin. rewrite L in Hyin. discriminate. }
      subst y. f_equal. apply IH; auto.
      * eapply Permutation_cons_inv; exact Hp.
      * intros a b Ha Hb. apply Htot; now right.
Qed.

Lemma insertBack_perm (x : A) (sortedRev : list A) :
  Permutation (x :: sortedRev) (insertBack lt x sortedRev).
Proof.
  induction sortedRev as [|y before IH]; simpl; auto.
  destruct (lt x y); auto.
  eapply perm_trans; [apply perm_swap|]. now apply perm_skip.
Qed.

Lemma insertionLoop_perm (rest : list A) :
  forall sortedRev,
    Permutation (rev sortedRev ++ rest) (insertionLoop lt sortedRev rest).
Proof.
  induction rest as [|x rest IH]; intros sortedRev; simpl.
  - now rewrite app_nil_r.
  - eapply perm_trans; [|apply IH].
    apply Permutation_trans with (rev (x :: sortedRev) ++ rest).
    + simpl. rewrite <- app_assoc. reflexivity.
    + apply Permutation_app_tail.
      rewrite <- !Permutation_rev. apply insertBack_perm.
Qed.

Lemma insertionSort_perm (l : list A) : Permutation l (insertionSort lt l).
Proof. exact (insertionLoop_perm l []). Qed.

(** The sorted part, last element first: no element is less than one
    that follows it in the list. *)
Definition sortedBack (l : list A) : Prop :=
  ForallOrdPairs (fun later earlier => lt later earlier = false) l.

Lemma insertBack_sorted (universe : list A) (x : A) :
  transitiveOrdering lt universe = true ->
  In x universe ->
  forall sortedRev,
    incl sortedRev universe ->
    sortedBack sortedRev -> sortedBack (insertBack lt x sortedRev).
Proof.
  intros Hord Hx. apply transitiveOrdering_spec in Hord.
  destruct Hord as (Hirr & Htr & Hneg).
  induction sortedRev as [|y before IH]; intros Hincl Hs; simpl.
  - repeat constructor.
  - assert (Hy : In y universe) by (apply Hincl; now left).
    assert (Hb : incl before universe)
      by (intros a Ha; apply Hincl; now right).
    inversion Hs as [|? ? Hyb Hsb]; subst.
    destruct (lt x y) eqn:Hxy.
    + constructor; [|now apply IH].
      apply Forall_forall. intros a Ha.
      apply (Permutation_in _ (Permutation_sym (insertBack_perm x before)))
        in Ha.
      destruct Ha as [<- | Ha].
      * destruct (lt y x) eqn:Hyx; auto.
        pose proof (Htr x y x Hx Hy Hx Hxy Hyx) as Hxx.
        rewrite (Hirr x Hx) in Hxx. discriminate.
      * rewrite Forall_forall in Hyb. auto.
    + constructor; auto. constructor; auto.
      apply Forall_forall. intros a Ha. rewrite Forall_forall in Hyb.
      apply (Hneg x y a); auto.
Qed.

Lemma sortedBack_rev (l : list A) :
  sortedBack l -> isSorted lt (rev l) = true.
Proof.
  intros Hs. apply isSorted_spec.
  induction Hs as [|a l Ha Hl IH]; simpl; [constructor|].
  clear Hl. revert IH. generalize (rev_involutive l).
  assert (Hin : forall b, In b (rev l) -> lt a b = false)
    by (intros b Hb; apply in_rev in Hb; rewrite Forall_forall in Ha; auto).
  clear Ha. generalize dependent (rev l). intros r Hin _.
  induction r as [|b r IHr]; simpl; intros Hs.
  - constructor; constructor.
  - inversion Hs as [|? ? Hb Hr]; subst. constructor.
    + apply Forall_app. split; auto. constructor; auto.
      apply Hin. now left.
    + apply IHr; auto. intros c Hc. apply Hin. now right.
Qed.

Lemma insertionLoop_sorted (universe : list A) :
  transitiveOrdering lt universe = true ->
  forall rest sortedRev,
    incl rest universe -> incl sortedRev universe ->
    sortedBack sortedRev ->
    isSorted lt (insertionLoop lt sortedRev rest) = true.
Proof.
  intros Hord. induction rest as [|x rest IH];
    intros sortedRev Hr Hi Hs; simpl.
  - now apply sortedBack_rev.
  - apply IH.
    + intros a Ha. apply Hr. now right.
    + intros a Ha.
      apply (Permutation_in _ (Permutation_sym (insertBack_perm x sortedRev)))
        in Ha.
      destruct Ha as [<- | Ha]; [apply Hr; now left | now apply Hi].
    + apply (insertBack_sorted universe); auto. apply Hr. now left.
Qed.

Lemma insertionSort_sorted (l : list A) :
  transitiveOrdering lt l = true -> isSorted lt (insertionSort lt l) = true.
Proof.
  intros Hord. apply (insertionLoop_sorted l Hord).
  - apply incl_refl.
  - intros a [].
  - constructor.
Qed.

(** The insertion sort never exchanges two elements of a class that [lt]
    does not separate: the elements of the class keep their order. *)
Lemma insertBack_keeps (keep : A -> bool) (x : A) :
  (forall a b, keep a = true -> keep b = true -> lt a b = false) ->
  forall sortedRev,
    filter keep (rev (insertBack lt x sortedRev))
    = filter keep (rev sortedRev ++ [x]).
Proof.
  intros Hclass. induction sortedRev as [|y before IH]; simpl; auto.
  destruct (lt x y) eqn:Hxy; simpl.
  - rewrite !filter_app, IH, !filter_app. simpl.
    destruct (keep x) eqn:Kx, (keep y) eqn:Ky; simpl;
      rewrite ?app_nil_r; auto.
    rewrite (Hclass x y Kx Ky) in Hxy. discriminate.
  - reflexivity.
Qed.

Lemma insertionLoop_keeps (keep : A -> bool) :
  (forall a b, keep a = true -> keep b = true -> lt a b = false) ->
  forall rest sortedRev,
    filter keep (insertionLoop lt sortedRev rest)
    = filter keep (rev sortedRev ++ rest).
Proof.
  intros Hclass. induction rest as [|x rest IH]; intros sortedRev; simpl.
  - now rewrite app_nil_r.
  - rewrite IH, !filter_app, (insertBack_keeps keep x Hclass), filter_app.
    simpl. rewrite <- app_assoc. f_equal.
    destruct (keep x); reflexivity.
Qed.

Lemma insertionSort_keeps (keep : A -> bool) (l : list A) :
  (forall a b, keep a = true -> keep b = true -> lt a b = false) ->
  filter keep (insertionSort lt l) = filter keep l.
Proof. intros Hclass. exact (insertionLoop_keeps keep Hclass l []). Qed.

End OrderingFacts.

(** The insertion sort is an implementation of the contract of
    [sort.Slice]. *)
#[local] Instance insertionSortPkg : SortPkg := {|
  Slice := fun A lt l => insertionSort lt l;
  Slice_permutation := fun A lt l => insertionSort_perm lt l;
  Slice_sorted := fun A lt l => insertionSort_sorted lt l
|}.

(** ** The comparator *)

Lemma string_compare_refl (s : string) : String.compare s s = Eq.
Proof.
  induction s as [|c s IH]; simpl; auto.
  unfold Ascii.compare. now rewrite N.compare_refl.
Qed.

Lemma string_ltb_irrefl (s : string) : (s <? s)%string = false.
Proof. unfold String.ltb. now rewrite string_compare_refl. Qed.

Lemma Invoice_eqb_eq (a b : Invoice) : Invoice_eqb a b = true <-> a = b.
Proof.
  unfold Invoice_eqb. rewrite !andb_true_iff, !String.eqb_eq.
  destruct a, b; simpl. split.
  - intros [[[[-> ->] ->] ->] ->]. reflexivity.
  - intros E. injection E as -> -> -> -> ->. auto.
Qed.

Lemma less_twoTierLess (a b : Invoice) : less a b = twoTierLess a b.
Proof.
  unfold less, twoTierLess, numericSuffix, secondSegment.
  destruct (GoStrings.Split (Fatura a) "/") as [|pa [|qa ra]];
    destruct (GoStrings.Split (Fatura b) "/") as [|pb [|qb rb]];
    simpl; try reflexivity;
    destruct (GoStrings.Atoi _); reflexivity.
Qed.

Lemma less_irrefl (a : Invoice) : less a a = false.
Proof.
  rewrite less_twoTierLess. unfold twoTierLess.
  destruct (numericSuffix (Fatura a)).
  - apply Z.ltb_irrefl.
  - apply string_ltb_irrefl.
Qed.

Lemma less_same_id (a b : Invoice) : Fatura a = Fatura b -> less a b = false.
Proof.
  intros E. rewrite less_twoTierLess. unfold twoTierLess. rewrite E.
  destruct (numericSuffix (Fatura b)).
  - apply Z.ltb_irrefl.
  - apply string_ltb_irrefl.
Qed.

Lemma separated_spec (l : list Invoice) :
  separated l = true ->
  forall x y, In x l -> In y l ->
    x = y \/ less x y = true \/ less y x = true.
Proof.
  unfold separated. rewrite forallb_forall. intros Hall x y Hx Hy.
  specialize (Hall x Hx). rewrite forallb_forall in Hall.
  specialize (Hall y Hy).
  apply orb_prop in Hall as [Hall | Hall]; auto.
  apply orb_prop in Hall as [Hall | Hall].
  - left. now apply Invoice_eqb_eq.
  - auto.
Qed.

(** Records numbered with pairwise different integers are ordered by those
    integers. *)
Lemma distinctNumbers_ordering (l : list Invoice) :
  distinctNumbers l = true ->
  transitiveOrdering less l = true /\ separated l = true.
Proof.
  unfold distinctNumbers. rewrite forallb_forall. intros Hall.
  assert (Hnum : forall x, In x l ->
            exists nx, numericSuffix (Fatura x) = Some nx).
  { intros x Hx. specialize (Hall x Hx).
    destruct (numericSuffix (Fatura x)) as [nx|]; [eauto | discriminate]. }
  assert (Hless : forall x y nx ny,
            numericSuffix (Fatura x) = Some nx ->
            numericSuffix (Fatura y) = Some ny ->
            less x y = (nx <? ny)%Z).
  { intros x y nx ny Ex Ey. rewrite less_twoTierLess. unfold twoTierLess.
    now rewrite Ex, Ey. }
  split.
  - apply transitiveOrdering_spec. repeat split.
    + intros x _. apply less_irrefl.
    + intros x y z Hx Hy Hz.
      destruct (Hnum x Hx) as [nx Ex], (Hnum y Hy) as [ny Ey],
        (Hnum z Hz) as [nz Ez].
      rewrite (Hless x y nx ny), (Hless y z ny nz), (Hless x z nx nz); auto.
      rewrite !Z.ltb_lt. lia.
    + intros x y z Hx Hy Hz.
      destruct (Hnum x Hx) as [nx Ex], (Hnum y Hy) as [ny Ey],
        (Hnum z Hz) as [nz Ez].
      rewrite (Hless x y nx ny), (Hless y z ny nz), (Hless x z nx nz); auto.
      rewrite !Z.ltb_ge. lia.
  - unfold separated. apply forallb_forall. intros x Hx.
    apply forallb_forall. intros y Hy.
    specialize (Hall x Hx).
    destruct (Hnum x Hx) as [nx Ex], (Hnum y Hy) as [ny Ey].
    rewrite Ex in Hall. rewrite forallb_forall in Hall.
    specialize (Hall y Hy). rewrite Ey in Hall.
    destruct (Invoice_eqb x y); simpl in *; auto.
    rewrite (Hless x y nx ny), (Hless y x ny nx); auto.
    apply negb_true_iff, Z.eqb_neq in Hall.
    destruct (Z.ltb_spec nx ny); simpl; auto.
    apply Z.ltb_lt. lia.
Qed.

(** With a transitive ordering that separates different records, the
    collator's output does not depend on the order of its input. *)
Lemma collate_unique (S : SortPkg) (l l' : list Invoice) :
  transitiveOrdering less l = true ->
  separated l = true ->
  Permutation l l' ->
  collate l' = collate l.
Proof.
  intros Hord Hsep Hp. unfold collate.
  apply sorted_arrangement_unique with (lt := less).
  - eapply perm_trans; [apply Permutation_sym, Slice_permutation|].
    eapply perm_trans; [apply Permutation_sym, Hp|].
    apply Slice_permutation.
  - apply Slice_sorted. now apply (transitiveOrdering_perm less l l').
  - now apply Slice_sorted.
  - intros x y Hx Hy. apply (separated_spec l Hsep).
    + apply (Permutation_in x (Permutation_sym Hp)).
      apply (Permutation_in x (Permutation_sym (Slice_permutation Invoice less l'))).
      exact Hx.
    + apply (Permutation_in y (Permutation_sym Hp)).
      apply (Permutation_in y (Permutation_sym (Slice_permutation Invoice less l'))).
      exact Hy.
Qed.

(** ** The worker pool: the invariant holds along every run *)

Lemma sumOver_app {A : Type} (f : A -> nat) (l1 l2 : list A) :
  sumOver f (l1 ++ l2) = sumOver f l1 + sumOver f l2.
Proof. unfold sumOver. now rewrite map_app, list_sum_app. Qed.

Lemma sumOver_nil {A : Type} (f : A -> nat) : sumOver f [] = 0.
Proof. reflexivity. Qed.

Lemma sumOver_cons {A : Type} (f : A -> nat) (x : A) (l : list A) :
  sumOver f (x :: l) = f x + sumOver f l.
Proof. reflexivity. Qed.

Lemma setWorker_split (k : nat) (ws : list workerAt) (w0 : workerAt) :
  nth_error ws k = Some w0 ->
  exists l1 l2,
    ws = l1 ++ w0 :: l2 /\ forall w, setWorker k w ws = l1 ++ w :: l2.
Proof.
  intros Hk. destruct (nth_error_split ws k Hk) as (l1 & l2 & -> & Hlen).
  exists l1, l2. split; auto. intros w. unfold setWorker. subst k.
  rewrite firstn_app, Nat.sub_diag, firstn_all, firstn_O, app_nil_r.
  f_equal. f_equal. clear Hk.
  induction l1 as [|a l1 IH]; simpl; auto.
Qed.

Section PoolFacts.

Context {RE : RegexpPkg} {H : Host}.

Variable regexCfg : RegexConfig.
Variable files : list string.
Variable NumWorkers : Z.

#[local] Abbreviation inv := (invariant regexCfg files NumWorkers).
#[local] Abbreviation mainStep := (stepMain files NumWorkers).
#[local] Abbreviation workerStep := (stepWorker regexCfg files).
#[local] Abbreviation step1 := (step regexCfg files NumWorkers).
#[local] Abbreviation run := (exec regexCfg files NumWorkers).
#[local] Abbreviation extr := (extracted regexCfg).
#[local] Abbreviation weight := (measure files NumWorkers).

Lemma unreadable_app (l1 l2 : list string) :
  unreadable (l1 ++ l2) = unreadable l1 + unreadable l2.
Proof. unfold unreadable. now rewrite filter_app, length_app. Qed.

Lemma readable_app (l1 l2 : list string) :
  readable (l1 ++ l2) = readable l1 + readable l2.
Proof. unfold readable. now rewrite filter_app, length_app. Qed.

Lemma extracted_app (l1 l2 : list string) :
  extr (l1 ++ l2) = extr l1 ++ extr l2.
Proof. unfold extracted. now rewrite flat_map_app. Qed.

Lemma unreadable_nil : unreadable [] = 0.
Proof. reflexivity. Qed.

Lemma readable_nil : readable [] = 0.
Proof. reflexivity. Qed.

Lemma extracted_nil : extr [] = [].
Proof. reflexivity. Qed.

Lemma occurrences_nil (o : outcome Invoice) : occurrences o [] = 0.
Proof. reflexivity. Qed.

Lemma unreadable_cons (job : string) (l : list string) :
  unreadable (job :: l) = unreadable [job] + unreadable l.
Proof. exact (unreadable_app [job] l). Qed.

Lemma readable_cons (job : string) (l : list string) :
  readable (job :: l) = readable [job] + readable l.
Proof. exact (readable_app [job] l). Qed.

Lemma extracted_cons (job : string) (l : list string) :
  extr (job :: l) = extr [job] ++ extr l.
Proof. exact (extracted_app [job] l). Qed.

Lemma occurrences_app (o : outcome Invoice) (l1 l2 : list (outcome Invoice)) :
  occurrences o (l1 ++ l2) = occurrences o l1 + occurrences o l2.
Proof. apply count_occ_app. Qed.

(** Every handle fails or yields text. *)
Lemma unreadable_readable (l : list string) :
  unreadable l + readable l = List.length l.
Proof.
  unfold unreadable, readable. induction l as [|job l IH]; simpl; auto.
  destruct (readPdf job); simpl; lia.
Qed.

Lemma invariant_start : inv start.
Proof.
  constructor; simpl; unfold sumOver; simpl; try lia; auto.
Qed.

Hypothesis files_fit : (Z.of_nat (List.length files) < 2 ^ 63)%Z.

Lemma AddUint64_small (x bound : Z) :
  (0 <= x)%Z -> (x + 1 <= bound)%Z ->
  (bound <= Z.of_nat (List.length files))%Z ->
  AddUint64 x 1 = (x + 1)%Z.
Proof.
  intros H0 H1 H2. unfold AddUint64. apply Z.mod_small.
  assert (2 ^ 63 < 2 ^ 64)%Z by (apply Z.pow_lt_mono_r; lia). lia.
Qed.

Create Rewrite HintDb tally.
#[local] Hint Rewrite @sumOver_app @sumOver_cons @sumOver_nil
  unreadable_app readable_app extracted_app occurrences_app
  unreadable_nil readable_nil extracted_nil occurrences_nil
  @map_app @length_app : tally.

Ltac tally := simpl in *; autorewrite with tally in *; simpl in *.

(** The fields of the invariant a worker's step leaves as they were. *)
Ltac routine :=
  try match goal with
      | Hlen : forall w, List.length _ = List.length _ |- _ =>
          rewrite Hlen; assumption
      end;
  try match goal with
      | Hnj : running _ = 1 -> _ |- match ?m with _ => _ end =>
          destruct m; auto; exfalso; now apply Hnj
      end;
  try match goal with
      | Hin' : forall w, w <> Exited -> _ |- In Exited _ -> _ =>
          let Hin := fresh "Hin" in
          intros Hin; apply Hin' in Hin; [solve [auto] | discriminate]
      end.

(** Closes the arithmetic fields of the invariant after a step; [Hr] is
    the tally of the records before the step. *)
Ltac settle Hr :=
  constructor; simpl; routine;
  try (let o := fresh "o" in intros o; specialize (Hr o));
  tally; auto; try lia.

Lemma invariant_stepMain (s s' : pool) :
  inv s -> mainStep s = Some s' -> inv s'.
Proof.
  destruct s as [m ws js cl rs g tp te]. intros [He Hp Hr Hl Hw Hc Hx Hs Hj].
  unfold stepMain. simpl in *.
  destruct m as [i | [|file rest] | | | invoices]; simpl in *.
  - destruct (Z.ltb_spec i NumWorkers); intros E; injection E as <-;
      settle Hr.
    intros Hin. apply in_app_or in Hin as [Hin | [Hin | []]]; auto.
    discriminate.
  - intros E; injection E as <-. settle Hr.
  - destruct (Nat.ltb_spec (List.length js) (capacity files)) as [Hcap|];
      [|discriminate].
    intros E; injection E as <-.
    rewrite (unreadable_cons file rest) in He.
    rewrite (readable_cons file rest) in Hp.
    assert (Hr' : forall o, occurrences o (extr files)
              = occurrences o (map Returned rs)
                + sumOver (fun w => occurrences o (owesRecord regexCfg w)) ws
                + occurrences o (extr js)
                + (occurrences o (extr [file]) + occurrences o (extr rest))).
    { intros o. rewrite (Hr o). simpl.
      now rewrite (extracted_cons file rest), occurrences_app. }
    clear Hr. settle Hr'.
    intros Hin. apply Hx in Hin as [Hin _]. congruence.
  - intros E; injection E as <-. settle Hr.
    intros Hin. apply Hx in Hin as [Hin _]. congruence.
  - destruct (Nat.eqb_spec g 0); [|discriminate].
    intros E; injection E as <-. settle Hr.
  - discriminate.
Qed.

Lemma In_replaced (l1 l2 : list workerAt) (w0 w x : workerAt) :
  In x (l1 ++ w :: l2) -> x = w \/ In x (l1 ++ w0 :: l2).
Proof.
  rewrite !in_app_iff. simpl. intuition auto.
Qed.

Lemma invariant_stepWorker (k : nat) (s s' : pool) :
  inv s -> workerStep k s = Some (Returned s') -> inv s'.
Proof.
  destruct s as [m ws js cl rs g tp te]. intros [He Hp Hr Hl Hw Hc Hx Hs Hj].
  unfold stepWorker. simpl in *.
  destruct (nth_error ws k) as [w0|] eqn:Hk; [|discriminate].
  destruct (setWorker_split k ws w0 Hk) as (l1 & l2 & -> & Hset).
  clear Hk.
  assert (Hlen : forall w, List.length (l1 ++ w :: l2)
                           = List.length (l1 ++ w0 :: l2))
    by (intros w; rewrite !length_app; reflexivity).
  assert (Hnotjoined : running w0 = 1 ->
            match m with Joined _ => False | _ => True end).
  { intros Hrun. destruct m; auto. destruct Hj as [_ Hj].
    rewrite Hj in Hw. tally. lia. }
  assert (Hin' : forall w, w <> Exited -> In Exited (l1 ++ w :: l2) ->
            In Exited (l1 ++ w0 :: l2)).
  { intros w Hw' Hin. apply (In_replaced l1 l2 w0) in Hin as [Hin|Hin];
      congruence. }
  destruct w0 as [ | job | | invoice | | ].
  - (* for job := range jobs *)
    destruct js as [|job queued].
    + destruct cl; [|discriminate]. intros E; injection E as <-.
      rewrite ?Hset. settle Hr.
    + intros E; injection E as <-. rewrite ?Hset.
      rewrite (unreadable_cons job queued) in He.
      rewrite (readable_cons job queued) in Hp.
      assert (Hr' : forall o, occurrences o (extr files)
                = occurrences o (map Returned rs)
                  + sumOver (fun w => occurrences o (owesRecord regexCfg w))
                      (l1 ++ AtRange :: l2)
                  + (occurrences o (extr [job]) + occurrences o (extr queued))
                  + occurrences o (extr (unsent files m))).
      { intros o. rewrite (Hr o).
        now rewrite (extracted_cons job queued), occurrences_app. }
      clear Hr. settle Hr'.
      intros Hin. apply Hin' in Hin; [|discriminate].
      apply Hx in Hin as [_ Hin]. discriminate.
  - (* content, err := readPdf(job) *)
    destruct (readPdf job) as [content|] eqn:Hread.
    + destruct (parseInvoice content regexCfg) as [invoice|] eqn:Hparse;
        [|discriminate].
      intros E; injection E as <-. rewrite ?Hset.
      assert (E1 : unreadable [job] = 0)
        by (unfold unreadable; simpl; now rewrite Hread).
      assert (E2 : readable [job] = 1)
        by (unfold readable; simpl; now rewrite Hread).
      assert (E3 : extr [job] = [Returned invoice])
        by (unfold extracted; simpl; now rewrite Hread, Hparse).
      settle Hr; rewrite ?E1, ?E2, ?E3 in *; try lia.
    + intros E; injection E as <-. rewrite ?Hset.
      assert (E1 : unreadable [job] = 1)
        by (unfold unreadable; simpl; now rewrite Hread).
      assert (E2 : readable [job] = 0)
        by (unfold readable; simpl; now rewrite Hread).
      assert (E3 : extr [job] = [])
        by (unfold extracted; simpl; now rewrite Hread).
      settle Hr; rewrite ?E1, ?E2, ?E3 in *; tally; try lia.
  - (* atomic.AddUint64(totalErrors, 1) *)
    intros E; injection E as <-. rewrite ?Hset.
    pose proof (unreadable_readable files) as Hfiles.
    destruct He as [He0 He].
    assert (Hadd : AddUint64 te 1 = (te + 1)%Z).
    { apply (AddUint64_small te (Z.of_nat (unreadable files))); auto.
      - tally. lia.
      - lia. }
    rewrite Hadd. settle Hr.
  - (* results <- invoice *)
    destruct (Nat.ltb_spec (List.length rs) (capacity files)) as [Hcap|];
      [|discriminate].
    intros E; injection E as <-. rewrite ?Hset. settle Hr.
  - (* atomic.AddUint64(totalProcessed, 1) *)
    intros E; injection E as <-. rewrite ?Hset.
    pose proof (unreadable_readable files) as Hfiles.
    destruct Hp as [Hp0 Hp].
    assert (Hadd : AddUint64 tp 1 = (tp + 1)%Z).
    { apply (AddUint64_small tp (Z.of_nat (readable files))); auto.
      - tally. lia.
      - lia. }
    rewrite Hadd. settle Hr.
  - discriminate.
Qed.

Lemma invariant_step (thread : nat) (s s' : pool) :
  inv s -> step1 thread s = Some (Returned s') -> inv s'.
Proof.
  intros Hi. destruct thread as [|k]; simpl.
  - destruct (mainStep s) as [s1|] eqn:Hm; [|discriminate].
    intros E; injection E as <-. eapply invariant_stepMain; eauto.
  - apply invariant_stepWorker; auto.
Qed.

Lemma invariant_exec (schedule : list nat) :
  forall s s', inv s -> run schedule s = Some (Returned s') -> inv s'.
Proof.
  induction schedule as [|thread later IH]; intros s s' Hi; simpl.
  - intros E; injection E as <-. exact Hi.
  - destruct (step1 thread s) as [[s1|]|] eqn:Hstep; try discriminate.
    apply IH. eapply invariant_step; eauto.
Qed.

Lemma all_exited (ws : list workerAt) :
  sumOver running ws = 0 -> forall w, In w ws -> w = Exited.
Proof.
  induction ws as [|w0 ws IH]; intros Hsum w Hin; [destruct Hin|].
  rewrite sumOver_cons in Hsum. destruct Hin as [<- | Hin].
  - destruct w0; simpl in Hsum; auto; lia.
  - apply IH; auto. lia.
Qed.

Lemma sumOver_exited (f : workerAt -> nat) (ws : list workerAt) :
  f Exited = 0 -> (forall w, In w ws -> w = Exited) -> sumOver f ws = 0.
Proof.
  intros Hf. induction ws as [|w0 ws IH]; intros Hall; auto.
  rewrite sumOver_cons, IH by (intros w Hw; apply Hall; now right).
  rewrite (Hall w0 (or_introl eq_refl)). lia.
Qed.

(** At the barrier nothing is owed any more. *)
Lemma joined_settled (s : pool) :
  (1 <= NumWorkers)%Z -> inv s -> joined s = true ->
  totalErrors s = Z.of_nat (unreadable files)
  /\ totalProcessed s = Z.of_nat (readable files)
  /\ (forall o, occurrences o (extr files)
                = occurrences o (map Returned (collected s))).
Proof.
  intros HW [He Hp Hr Hl Hw Hc Hx Hs Hj]. unfold joined, collected.
  destruct (mainPc s) as [| | | |invoices] eqn:Hm; try discriminate.
  intros _. destruct Hj as [-> Hg]. rewrite Hg in Hw. symmetry in Hw.
  pose proof (all_exited _ Hw) as Hall.
  assert (Hjobs : jobs s = []).
  { destruct (workers s) as [|w ws] eqn:Hws; [simpl in Hs; lia|].
    apply Hx. rewrite (Hall w); [now left | now left]. }
  rewrite Hjobs in *. simpl in *.
  rewrite (sumOver_exited owesError) in He by auto.
  rewrite (sumOver_exited owesProcessed) in Hp by auto.
  repeat split; try (tally; lia).
  intros o. rewrite (Hr o).
  rewrite (sumOver_exited (fun w => occurrences o (owesRecord regexCfg w)))
    by auto.
  tally. lia.
Qed.

(** Every step uses up some of the measure. *)
Lemma measure_step (thread : nat) (s s' : pool) :
  step1 thread s = Some (Returned s') -> weight s' < weight s.
Proof.
  destruct s as [m ws js cl rs g tp te]. unfold measure.
  destruct thread as [|k]; simpl.
  - unfold stepMain, option_map.
    destruct m as [i | [|file rest] | | | invoices]; simpl.
    + destruct (Z.ltb_spec i NumWorkers); simpl; intros E;
        injection E as <-; tally; lia.
    + intros E; injection E as <-. tally; lia.
    + destruct (List.length js <? capacity files); [|discriminate].
      simpl. intros E; injection E as <-. tally; lia.
    + intros E; injection E as <-. tally; lia.
    + destruct (g =? 0); [|discriminate].
      simpl. intros E; injection E as <-. tally; lia.
    + discriminate.
  - unfold stepWorker. simpl.
    destruct (nth_error ws k) as [w0|] eqn:Hk; [|discriminate].
    destruct (setWorker_split k ws w0 Hk) as (l1 & l2 & -> & Hset).
    destruct w0 as [ | job | | invoice | | ].
    + destruct js as [|job queued].
      * destruct cl; [|discriminate]. intros E; injection E as <-.
        rewrite ?Hset. tally; lia.
      * intros E; injection E as <-. rewrite ?Hset. tally; lia.
    + destruct (readPdf job) as [content|].
      * destruct (parseInvoice content regexCfg); [|discriminate].
        intros E; injection E as <-. rewrite ?Hset. tally; lia.
      * intros E; injection E as <-. rewrite ?Hset. tally; lia.
    + intros E; injection E as <-. rewrite ?Hset. tally; lia.
    + destruct (List.length rs <? capacity files); [|discriminate].
      intros E; injection E as <-. rewrite ?Hset. tally; lia.
    + intros E; injection E as <-. rewrite ?Hset. tally; lia.
    + discriminate.
Qed.

Lemma some_running (ws : list workerAt) :
  sumOver running ws <> 0 ->
  exists k w, nth_error ws k = Some w /\ w <> Exited.
Proof.
  induction ws as [|w0 ws IH]; intros Hsum; [now elim Hsum|].
  destruct w0; try (exists 0; eexists; split; [reflexivity | discriminate]).
  rewrite sumOver_cons in Hsum. simpl in Hsum.
  destruct (IH Hsum) as (k & w & Hk & Hw). exists (S k), w. auto.
Qed.

Lemma sent_le_owed (ws : list workerAt) :
  sumOver sentUncounted ws <= sumOver owesProcessed ws.
Proof.
  induction ws as [|w ws IH]; auto.
  rewrite !sumOver_cons. destruct w; simpl; lia.
Qed.

(** Before the barrier some goroutine can move, as long as the field
    extractor does not panic. *)
Lemma progress (s : pool) :
  (forall content, parseInvoice content regexCfg <> Panicked) ->
  inv s -> joined s = false ->
  exists thread s', step1 thread s = Some (Returned s').
Proof.
  intros Hvalid Hi Hnj. pose proof Hi as [He Hp Hr Hl Hw Hc Hx Hs Hj].
  pose proof (unreadable_readable files) as Hfiles.
  pose proof (unreadable_readable (jobs s)) as Hjobs.
  destruct s as [m ws js cl rs g tp te]. simpl in *.
  assert (Hworker : g <> 0 -> cl = true ->
            exists k s', workerStep k (mkPool m ws js cl rs g tp te)
                         = Some (Returned s')).
  { intros Hg Hcl. rewrite Hw in Hg.
    destruct (some_running ws Hg) as (k & w & Hk & Hne).
    exists k. unfold stepWorker. simpl. rewrite Hk.
    destruct (setWorker_split k ws w Hk) as (l1 & l2 & -> & _).
    destruct w as [ | job | | invoice | | ].
    - destruct js; [rewrite Hcl|]; eauto.
    - destruct (readPdf job) as [content|]; eauto.
      destruct (parseInvoice content regexCfg) eqn:Hparse; eauto.
      now elim (Hvalid content).
    - eauto.
    - assert (Hcap : List.length rs < capacity files).
      { unfold capacity. pose proof (sent_le_owed l1).
        pose proof (sent_le_owed l2). tally. lia. }
      apply Nat.ltb_lt in Hcap. rewrite Hcap. eauto.
    - eauto.
    - now elim Hne. }
  destruct m as [i | [|file rest] | | | invoices]; simpl in *;
    try discriminate.
  - exists 0. unfold step, stepMain, option_map. simpl. destruct (i <? NumWorkers)%Z; simpl; eauto.
  - exists 0. unfold step, stepMain, option_map. simpl. eauto.
  - exists 0. unfold step, stepMain, option_map. simpl.
    assert (Hcap : List.length js < capacity files).
    { unfold capacity. rewrite (unreadable_cons file rest) in He.
      rewrite (readable_cons file rest) in Hp.
      pose proof (unreadable_readable [file]) as Hone. simpl in Hone.
      lia. }
    apply Nat.ltb_lt in Hcap. rewrite Hcap. simpl. eauto.
  - exists 0. unfold step, stepMain, option_map. simpl. eauto.
  - destruct (Nat.eq_dec g 0) as [-> | Hg].
    + exists 0. unfold step, stepMain, option_map. simpl. eauto.
    + destruct (Hworker Hg Hc) as (k & s' & Hstep). exists (S k), s'. auto.
Qed.

(** So every run can be continued up to the barrier, and no run goes on
    for ever. *)
Lemma reaches_barrier (n : nat) :
  (forall content, parseInvoice content regexCfg <> Panicked) ->
  forall s, weight s < n -> inv s ->
    exists schedule s',
      run schedule s = Some (Returned s') /\ joined s' = true.
Proof.
  intros Hvalid. induction n as [|n IH]; intros s Hn Hi; [lia|].
  destruct (joined s) eqn:Hj.
  - exists [], s. auto.
  - destruct (progress s Hvalid Hi Hj) as (thread & s1 & Hstep).
    destruct (IH s1) as (later & s' & Hrun & Hjoined).
    + apply measure_step in Hstep. lia.
    + eapply invariant_step; eauto.
    + exists (thread :: later), s'. simpl. rewrite Hstep. auto.
Qed.


(** Before the barrier some goroutine can move, be it into a panic. *)
Lemma progress_or_panic (s : pool) :
  inv s -> joined s = false ->
  exists thread o, step1 thread s = Some o.
Proof.
  intros Hi Hnj. pose proof Hi as [He Hp Hr Hl Hw Hc Hx Hs Hj].
  pose proof (unreadable_readable files) as Hfiles.
  pose proof (unreadable_readable (jobs s)) as Hjobs.
  destruct s as [m ws js cl rs g tp te]. simpl in *.
  assert (Hworker : g <> 0 -> cl = true ->
            exists k o, workerStep k (mkPool m ws js cl rs g tp te)
                        = Some o).
  { intros Hg Hcl. rewrite Hw in Hg.
    destruct (some_running ws Hg) as (k & w & Hk & Hne).
    exists k. unfold stepWorker. simpl. rewrite Hk.
    destruct (setWorker_split k ws w Hk) as (l1 & l2 & -> & _).
    destruct w as [ | job | | invoice | | ].
    - destruct js; [rewrite Hcl|]; eauto.
    - destruct (readPdf job) as [content|]; eauto.
      destruct (parseInvoice content regexCfg) eqn:Hparse; eauto.
    - eauto.
    - assert (Hcap : List.length rs < capacity files).
      { unfold capacity. pose proof (sent_le_owed l1).
        pose proof (sent_le_owed l2). tally. lia. }
      apply Nat.ltb_lt in Hcap. rewrite Hcap. eauto.
    - eauto.
    - now elim Hne. }
  destruct m as [i | [|file rest] | | | invoices]; simpl in *;
    try discriminate.
  - exists 0. unfold step, stepMain, option_map. simpl.
    destruct (i <? NumWorkers)%Z; simpl; eauto.
  - exists 0. unfold step, stepMain, option_map. simpl. eauto.
  - exists 0. unfold step, stepMain, option_map. simpl.
    assert (Hcap : List.length js < capacity files).
    { unfold capacity. rewrite (unreadable_cons file rest) in He.
      rewrite (readable_cons file rest) in Hp.
      pose proof (unreadable_readable [file]) as Hone. simpl in Hone.
      lia. }
    apply Nat.ltb_lt in Hcap. rewrite Hcap. simpl. eauto.
  - exists 0. unfold step, stepMain, option_map. simpl. eauto.
  - destruct (Nat.eq_dec g 0) as [-> | Hg].
    + exists 0. unfold step, stepMain, option_map. simpl. eauto.
    + destruct (Hworker Hg Hc) as (k & o & Hstep). exists (S k), o. auto.
Qed.

(** So every run can be continued to its end, the barrier or a panic, in
    no more steps than its measure. *)
Lemma ends_within (s : pool) :
  inv s ->
  exists schedule,
    List.length schedule <= weight s
    /\ (run schedule s = Some Panicked
        \/ exists s', run schedule s = Some (Returned s')
                      /\ joined s' = true).
Proof.
  remember (weight s) as n eqn:Hn. revert s Hn.
  induction n as [n IH] using lt_wf_ind. intros s Hn Hi.
  destruct (joined s) eqn:Hj.
  - exists []. split; [simpl; lia|]. right. exists s. auto.
  - destruct (progress_or_panic s Hi Hj) as (thread & [s1|] & Hstep).
    + pose proof (measure_step _ _ _ Hstep) as Hlt.
      destruct (IH (weight s1) ltac:(lia) s1 eq_refl) as (later & Hlen & Hl).
      * eapply invariant_step; eauto.
      * exists (thread :: later). split; [simpl; lia|].
        simpl. rewrite Hstep. exact Hl.
    + exists [thread]. split.
      * simpl. destruct n; [|lia]. exfalso.
        destruct s as [m ws js cl rs g tp te]. unfold measure in Hn.
        simpl in *. destruct m; simpl in *; try lia; discriminate.
      * left. simpl. rewrite Hstep. reflexivity.
Qed.

(** A run without a panic uses up as much of the measure as it has
    steps. *)
Lemma exec_measure (schedule : list nat) :
  forall s s',
    run schedule s = Some (Returned s') ->
    weight s' + List.length schedule <= weight s.
Proof.
  induction schedule as [|thread later IH]; intros s s'; simpl.
  - intros E; injection E as <-. lia.
  - destruct (step1 thread s) as [[s1|]|] eqn:Hstep; try discriminate.
    intros Hrun. apply IH in Hrun. apply measure_step in Hstep. lia.
Qed.

(** The two channels hold at most [len(files)] values, and the value a
    goroutine is about to send has room. *)
Lemma channels_have_room (s : pool) :
  inv s ->
  List.length (jobs s) <= capacity files
  /\ List.length (results s) <= capacity files
  /\ (forall file rest,
         mainPc s = Feeding (file :: rest) ->
         List.length (jobs s) < capacity files)
  /\ (forall k invoice,
         nth_error (workers s) k = Some (AtSend invoice) ->
         List.length (results s) < capacity files).
Proof.
  intros [He Hp Hr Hl Hw Hc Hx Hs Hj].
  pose proof (unreadable_readable files) as Hfiles.
  pose proof (unreadable_readable (jobs s)) as Hjobs.
  pose proof (sent_le_owed (workers s)) as Hsent.
  unfold capacity. repeat split; try lia.
  - intros file rest Hm. rewrite Hm in *. simpl in *.
    rewrite (unreadable_cons file rest) in He.
    rewrite (readable_cons file rest) in Hp.
    pose proof (unreadable_readable [file]) as Hone. simpl in Hone. lia.
  - intros k invoice Hk.
    destruct (setWorker_split k (workers s) _ Hk) as (l1 & l2 & Hws & _).
    rewrite Hws in *.
    pose proof (sent_le_owed l1). pose proof (sent_le_owed l2).
    tally. lia.
Qed.



(** Without workers nothing leaves the job channel. *)
Lemma idle_step (thread : nat) (s : pool) (o : outcome pool) :
  (NumWorkers <= 0)%Z -> idle s ->
  step1 thread s = Some o ->
  exists s', o = Returned s' /\ idle s'.
Proof.
  clear files_fit. intros HW (Hws & Hrs & Htp & Hte & Hm).
  destruct s as [m ws js cl rs g tp te]. simpl in *. subst.
  destruct thread as [|k]; simpl.
  - unfold stepMain, option_map. simpl.
    destruct m as [i | [|file rest] | | | invoices]; simpl.
    + subst i. destruct (Z.ltb_spec 0 NumWorkers); [lia|].
      intros E; injection E as <-. eexists; split; [reflexivity|].
      unfold idle; simpl; auto.
    + intros E; injection E as <-. eexists; split; [reflexivity|].
      unfold idle; simpl; auto.
    + destruct (List.length js <? capacity files); [|discriminate].
      intros E; injection E as <-. eexists; split; [reflexivity|].
      unfold idle; simpl; auto.
    + intros E; injection E as <-. eexists; split; [reflexivity|].
      unfold idle; simpl; auto.
    + destruct (g =? 0); [|discriminate].
      intros E; injection E as <-. eexists; split; [reflexivity|].
      unfold idle; simpl; auto.
    + discriminate.
  - unfold stepWorker. simpl. destruct k; discriminate.
Qed.

Lemma idle_exec (schedule : list nat) :
  (NumWorkers <= 0)%Z ->
  forall s o,
    idle s -> run schedule s = Some o ->
    exists s', o = Returned s' /\ idle s'.
Proof.
  intros HW. induction schedule as [|thread later IH]; intros s o Hi; simpl.
  - intros E; injection E as <-. eauto.
  - destruct (step1 thread s) as [o1|] eqn:Hstep; [|discriminate].
    destruct (idle_step thread s o1 HW Hi Hstep) as (s1 & -> & Hi1).
    apply IH. exact Hi1.
Qed.

Lemma idle_start : idle start.
Proof. unfold idle, start. simpl. auto. Qed.

(** Without workers [main] runs through to the barrier on its own, the
    handles left on the job channel. *)
Lemma idle_feeding (rest : list string) :
  forall js,
    List.length js + List.length rest <= List.length files ->
    run (repeat 0 (List.length rest + 3))
      (mkPool (Feeding rest) [] js false [] 0 0%Z 0%Z)
    = Some (Returned (mkPool (Joined []) [] (js ++ rest) true [] 0 0%Z 0%Z)).
Proof.
  clear files_fit.
  induction rest as [|file rest IH]; intros js Hlen.
  - rewrite app_nil_r. reflexivity.
  - cbn [List.length Nat.add repeat exec step].
    unfold stepMain, option_map. cbn [mainPc jobs].
    assert (Hcap : (List.length js <? capacity files) = true).
    { apply Nat.ltb_lt. unfold capacity. simpl in Hlen. lia. }
    rewrite Hcap. cbn [workers jobsClosed results wg totalProcessed
                         totalErrors].
    rewrite IH.
    + rewrite <- app_assoc. reflexivity.
    + rewrite length_app. simpl in *. lia.
Qed.

Lemma idle_run :
  (NumWorkers <= 0)%Z ->
  run (repeat 0 (List.length files + 4)) start
  = Some (Returned (mkPool (Joined []) [] files true [] 0 0%Z 0%Z)).
Proof.
  clear files_fit. intros HW.
  replace (List.length files + 4) with (S (List.length files + 3)) by lia.
  cbn [repeat exec step]. unfold stepMain, option_map, start.
  cbn [mainPc]. destruct (Z.ltb_spec 0 NumWorkers); [lia|].
  cbn [workers jobs jobsClosed results wg totalProcessed totalErrors].
  apply (idle_feeding files []). simpl. lia.
Qed.

Lemma extracted_one (job : string) :
  extr [job] = match readPdf job with
               | Some content => [parseInvoice content regexCfg]
               | None => []
               end.
Proof.
  unfold extracted. simpl. destruct (readPdf job); reflexivity.
Qed.

(** A pool of one worker keeps the records in the order of the
    handles. *)
Lemma inOrder_start : inOrder regexCfg files start.
Proof.
  unfold inOrder, start, held. simpl. repeat split; auto.
Qed.

Lemma inOrder_step (thread : nat) (s s' : pool) :
  NumWorkers = 1%Z ->
  inOrder regexCfg files s ->
  step1 thread s = Some (Returned s') ->
  inOrder regexCfg files s'.
Proof.
  clear files_fit. intros HW (Hlen & Hm & Hr).
  destruct s as [m ws js cl rs g tp te]. unfold inOrder, held in *.
  simpl in *. destruct thread as [|k]; simpl.
  - unfold stepMain, option_map. simpl.
    destruct m as [i | [|file rest] | | | invoices]; simpl; simpl in Hr.
    + subst i. destruct (Z.ltb_spec (Z.of_nat (List.length ws)) NumWorkers);
        intros E; injection E as <-; simpl.
      * assert (Hws : ws = []) by (destruct ws; [reflexivity | simpl in *; lia]).
        subst ws. simpl in *. repeat split; auto.
      * repeat split; auto.
    + intros E; injection E as <-. simpl. repeat split; auto.
    + destruct (List.length js <? capacity files); [|discriminate].
      intros E; injection E as <-. simpl. repeat split; auto.
      rewrite Hr, extracted_app, (extracted_cons file rest).
      rewrite <- !app_assoc. reflexivity.
    + intros E; injection E as <-. simpl. repeat split; auto.
    + destruct (g =? 0); [|discriminate].
      intros E; injection E as <-. simpl. repeat split; auto.
    + discriminate.
  - unfold stepWorker. simpl.
    destruct ws as [|w [|w' ws]]; [destruct k; discriminate| |simpl in Hlen; lia].
    destruct k as [|k]; [|destruct k; discriminate].
    unfold setWorker. simpl. simpl in Hr.
    destruct w as [ | job | | invoice | | ].
    + destruct js as [|job queued].
      * destruct cl; [|discriminate]. intros E; injection E as <-.
        simpl. repeat split; auto.
      * intros E; injection E as <-. simpl. repeat split; auto.
        rewrite Hr, (extracted_cons job queued), app_nil_r.
        rewrite <- !app_assoc. reflexivity.
    + destruct (readPdf job) as [content|] eqn:Hread.
      * destruct (parseInvoice content regexCfg) as [invoice|] eqn:Hparse;
          [|discriminate].
        intros E; injection E as <-. simpl. repeat split; auto.
        change (owesRecord regexCfg (AtReadPdf job)) with (extr [job]) in Hr.
        rewrite extracted_one, Hread, Hparse in Hr. exact Hr.
      * intros E; injection E as <-. simpl. repeat split; auto.
        change (owesRecord regexCfg (AtReadPdf job)) with (extr [job]) in Hr.
        rewrite extracted_one, Hread in Hr. exact Hr.
    + intros E; injection E as <-. simpl. repeat split; auto.
    + destruct (List.length rs <? capacity files); [|discriminate].
      intros E; injection E as <-. simpl. repeat split; auto.
      rewrite Hr, map_app, <- !app_assoc. reflexivity.
    + intros E; injection E as <-. simpl. repeat split; auto.
    + discriminate.
Qed.

Lemma inOrder_exec (schedule : list nat) :
  NumWorkers = 1%Z ->
  forall s s',
    inOrder regexCfg files s ->
    run schedule s = Some (Returned s') ->
    inOrder regexCfg files s'.
Proof.
  intros HW. induction schedule as [|thread later IH]; intros s s' Hi; simpl.
  - intros E; injection E as <-. exact Hi.
  - destruct (step1 thread s) as [[s1|]|] eqn:Hstep; try discriminate.
    apply IH. eapply inOrder_step; eauto.
Qed.

(** A step moves each counter by one at most, upwards, and adds at most
    one record at the end of the results. *)
Lemma counters_step (thread : nat) (s s' : pool) :
  inv s -> step1 thread s = Some (Returned s') ->
  (totalProcessed s <= totalProcessed s' <= totalProcessed s + 1)%Z
  /\ (totalErrors s <= totalErrors s' <= totalErrors s + 1)%Z
  /\ (results s' = results s
      \/ exists invoice, results s' = results s ++ [invoice]).
Proof.
  destruct s as [m ws js cl rs g tp te]. intros [He Hp Hr Hl Hw Hc Hx Hs Hj].
  simpl in *. destruct thread as [|k]; simpl.
  - unfold stepMain, option_map. simpl.
    destruct m as [i | [|file rest] | | | invoices]; simpl.
    + destruct (i <? NumWorkers)%Z; simpl; intros E; injection E as <-;
        simpl; repeat split; auto; lia.
    + intros E; injection E as <-. simpl. repeat split; auto; lia.
    + destruct (List.length js <? capacity files); [|discriminate].
      simpl. intros E; injection E as <-. simpl. repeat split; auto; lia.
    + intros E; injection E as <-. simpl. repeat split; auto; lia.
    + destruct (g =? 0); [|discriminate].
      simpl. intros E; injection E as <-. simpl. repeat split; auto; lia.
    + discriminate.
  - unfold stepWorker. simpl.
    destruct (nth_error ws k) as [w0|] eqn:Hk; [|discriminate].
    destruct (setWorker_split k ws w0 Hk) as (l1 & l2 & -> & Hset).
    pose proof (unreadable_readable files) as Hfiles.
    destruct w0 as [ | job | | invoice | | ].
    + destruct js as [|job queued].
      * destruct cl; [|discriminate]. intros E; injection E as <-.
        simpl. repeat split; auto; lia.
      * intros E; injection E as <-. simpl. repeat split; auto; lia.
    + destruct (readPdf job) as [content|].
      * destruct (parseInvoice content regexCfg); [|discriminate].
        intros E; injection E as <-. simpl. repeat split; auto; lia.
      * intros E; injection E as <-. simpl. repeat split; auto; lia.
    + intros E; injection E as <-. simpl.
      destruct He as [He0 He].
      assert (Hadd : AddUint64 te 1 = (te + 1)%Z).
      { apply (AddUint64_small te (Z.of_nat (unreadable files))); auto.
        - tally. lia.
        - lia. }
      rewrite Hadd. repeat split; auto; lia.
    + destruct (List.length rs <? capacity files); [|discriminate].
      intros E; injection E as <-. simpl. repeat split; eauto; lia.
    + intros E; injection E as <-. simpl.
      destruct Hp as [Hp0 Hp].
      assert (Hadd : AddUint64 tp 1 = (tp + 1)%Z).
      { apply (AddUint64_small tp (Z.of_nat (readable files))); auto.
        - tally. lia.
        - lia. }
      rewrite Hadd. repeat split; auto; lia.
    + discriminate.
Qed.

Lemma counters_bounded (s : pool) :
  inv s ->
  (0 <= totalProcessed s <= Z.of_nat (readable files))%Z
  /\ (0 <= totalErrors s <= Z.of_nat (unreadable files))%Z.
Proof.
  intros [He Hp _ _ _ _ _ _ _]. lia.
Qed.

(** Past the barrier no goroutine of the pool moves. *)
Lemma joined_final (s : pool) :
  inv s -> joined s = true ->
  (forall w, In w (workers s) -> w = Exited)
  /\ (forall thread, step1 thread s = None)
  /\ collected s = results s.
Proof.
  intros [He Hp Hr Hl Hw Hc Hx Hs Hj]. unfold joined, collected.
  destruct (mainPc s) as [| | | |invoices] eqn:Hm; try discriminate.
  intros _. destruct Hj as [-> Hg]. rewrite Hg in Hw. symmetry in Hw.
  pose proof (all_exited _ Hw) as Hall.
  repeat split; auto.
  intros [|k]; simpl.
  - unfold stepMain. rewrite Hm. reflexivity.
  - unfold stepWorker.
    destruct (nth_error (workers s) k) as [w|] eqn:Hk; [|reflexivity].
    rewrite (Hall w (nth_error_In _ _ Hk)). reflexivity.
Qed.

Lemma joined_claimed (s : pool) :
  (1 <= NumWorkers)%Z -> inv s -> joined s = true -> jobs s = [].
Proof.
  intros HW Hi Hj. destruct (joined_final s Hi Hj) as (Hall & _ & _).
  destruct Hi as [_ _ _ _ _ _ Hx Hs _]. unfold joined in Hj.
  destruct (mainPc s); try discriminate.
  destruct (workers s) as [|w ws] eqn:Hws; [simpl in Hs; lia|].
  apply Hx. rewrite (Hall w); now left.
Qed.

(** The loop of [main] starts [cfg.NumWorkers] workers, and nothing else
    starts or removes one. *)
Lemma staffed_start : staffed NumWorkers start.
Proof. clear files_fit. unfold staffed, start. simpl. lia. Qed.

Lemma staffed_step (thread : nat) (s s' : pool) :
  staffed NumWorkers s ->
  step1 thread s = Some (Returned s') ->
  staffed NumWorkers s'.
Proof.
  clear files_fit. unfold staffed.
  destruct s as [m ws js cl rs g tp te]. simpl.
  destruct thread as [|k]; simpl.
  - unfold stepMain, option_map. simpl.
    destruct m as [i | [|file rest] | | | invoices]; simpl.
    + intros [Hi Hlen]. destruct (Z.ltb_spec i NumWorkers); simpl;
        intros E; injection E as <-; simpl.
      * rewrite length_app. simpl. lia.
      * lia.
    + intros Hlen E; injection E as <-. exact Hlen.
    + intros Hlen. destruct (List.length js <? capacity files);
        [|discriminate].
      simpl. intros E; injection E as <-. exact Hlen.
    + intros Hlen E; injection E as <-. exact Hlen.
    + intros Hlen. destruct (g =? 0); [|discriminate].
      simpl. intros E; injection E as <-. exact Hlen.
    + discriminate.
  - unfold stepWorker. simpl. intros Hst.
    destruct (nth_error ws k) as [w0|] eqn:Hk; [|discriminate].
    destruct (setWorker_split k ws w0 Hk) as (l1 & l2 & -> & Hset).
    assert (Hlen : forall w, List.length (l1 ++ w :: l2)
                             = List.length (l1 ++ w0 :: l2))
      by (intros w; rewrite !length_app; reflexivity).
    destruct w0 as [ | job | | invoice | | ].
    + destruct js as [|job queued].
      * destruct cl; [|discriminate]. intros E; injection E as <-.
        simpl. rewrite Hset, Hlen. exact Hst.
      * intros E; injection E as <-. simpl. rewrite Hset, Hlen. exact Hst.
    + destruct (readPdf job) as [content|].
      * destruct (parseInvoice content regexCfg); [|discriminate].
        intros E; injection E as <-. simpl. rewrite Hset, Hlen. exact Hst.
      * intros E; injection E as <-. simpl. rewrite Hset, Hlen. exact Hst.
    + intros E; injection E as <-. simpl. rewrite Hset, Hlen. exact Hst.
    + destruct (List.length rs <? capacity files); [|discriminate].
      intros E; injection E as <-. simpl. rewrite Hset, Hlen. exact Hst.
    + intros E; injection E as <-. simpl. rewrite Hset, Hlen. exact Hst.
    + discriminate.
Qed.

Lemma staffed_exec (schedule : list nat) :
  forall s s',
    staffed NumWorkers s ->
    run schedule s = Some (Returned s') ->
    staffed NumWorkers s'.
Proof.
  induction schedule as [|thread later IH]; intros s s' Hi; simpl.
  - intros E; injection E as <-. exact Hi.
  - destruct (step1 thread s) as [[s1|]|] eqn:Hstep; try discriminate.
    apply IH. eapply staffed_step; eauto.
Qed.

End PoolFacts.

(** ** The field extractor *)

Section ExtractorFacts.

Context {RE : RegexpPkg}.

Lemma MustCompile_returned (pattern : string) (re : Regexp) :
  MustCompile pattern = Returned re <-> Compile pattern = Some re.
Proof.
  unfold MustCompile. destruct (Compile pattern); split; congruence.
Qed.

(** The record [parseInvoice] returns, when it returns. *)
Lemma parseInvoice_returned (text : string) (regexCfg : RegexConfig)
      (invoice : Invoice) :
  parseInvoice text regexCfg = Returned invoice ->
  exists reFatura reCliente reMatricula reDataInicio reValor rePrazoMeses,
    Compile (cfgFatura regexCfg) = Some reFatura
    /\ Compile (cfgClienteMatricula regexCfg) = Some reCliente
    /\ Compile matriculaPattern = Some reMatricula
    /\ Compile (cfgDataInicio regexCfg) = Some reDataInicio
    /\ Compile (cfgValor regexCfg) = Some reValor
    /\ Compile (cfgPrazoMeses regexCfg) = Some rePrazoMeses
    /\ Fatura invoice
       = (let m := FindStringSubmatch reFatura text in
          if 1 <? List.length m then idx m 1 else "")
    /\ ClienteMatricula invoice
       = (let clienteMatch := FindStringSubmatch reCliente text in
          let matriculaMatch := FindStringSubmatch reMatricula text in
          if (1 <? List.length clienteMatch)
             && (1 <? List.length matriculaMatch)
          then (idx clienteMatch 1 ++ "/" ++ idx matriculaMatch 1)%string
          else if 1 <? List.length clienteMatch then idx clienteMatch 1
          else if 1 <? List.length matriculaMatch then idx matriculaMatch 1
          else "")
    /\ DataInicio invoice
       = (let m := FindStringSubmatch reDataInicio text in
          if 3 <? List.length m
          then (idx m 3 ++ "-" ++ idx m 2 ++ "-" ++ idx m 1)%string
          else "")
    /\ Valor invoice
       = (let m := FindStringSubmatch reValor text in
          if 1 <? List.length m then ReplaceAllDots (idx m 1) "" else "")
    /\ PrazoMeses invoice
       = (let m := FindStringSubmatch rePrazoMeses text in
          if 1 <? List.length m then idx m 1 else "").
Proof.
  unfold parseInvoice, MustCompile, bind.
  destruct (Compile (cfgFatura regexCfg)) as [r1|]; [|discriminate].
  destruct (Compile (cfgClienteMatricula regexCfg)) as [r2|]; [|discriminate].
  destruct (Compile matriculaPattern) as [r3|]; [|discriminate].
  destruct (Compile (cfgDataInicio regexCfg)) as [r4|]; [|discriminate].
  destruct (Compile (cfgValor regexCfg)) as [r5|]; [|discriminate].
  destruct (Compile (cfgPrazoMeses regexCfg)) as [r6|]; [|discriminate].
  intros E; injection E as <-.
  exists r1, r2, r3, r4, r5, r6. simpl. repeat split; reflexivity.
Qed.

(** [parseInvoice] returns exactly when the six patterns compile, and
    panics otherwise, whatever the text. *)
Lemma parseInvoice_returns_iff (text : string) (regexCfg : RegexConfig) :
  (exists invoice, parseInvoice text regexCfg = Returned invoice)
  <-> rulesCompile regexCfg = true.
Proof.
  unfold rulesCompile, compiles, parseInvoice, MustCompile, bind.
  destruct (Compile (cfgFatura regexCfg));
    [|simpl; split; [intros [? ?]|]; discriminate].
  destruct (Compile (cfgClienteMatricula regexCfg));
    [|simpl; split; [intros [? ?]|]; discriminate].
  destruct (Compile matriculaPattern);
    [|simpl; split; [intros [? ?]|]; discriminate].
  destruct (Compile (cfgDataInicio regexCfg));
    [|simpl; split; [intros [? ?]|]; discriminate].
  destruct (Compile (cfgValor regexCfg));
    [|simpl; split; [intros [? ?]|]; discriminate].
  destruct (Compile (cfgPrazoMeses regexCfg));
    [|simpl; split; [intros [? ?]|]; discriminate].
  simpl. split; eauto.
Qed.

Lemma parseInvoice_panics (text : string) (regexCfg : RegexConfig) :
  rulesCompile regexCfg = false -> parseInvoice text regexCfg = Panicked.
Proof.
  intros Hbad. destruct (parseInvoice text regexCfg) as [invoice|] eqn:E; auto.
  assert (rulesCompile regexCfg = true)
    by (apply (parseInvoice_returns_iff text); eauto).
  congruence.
Qed.

(** The scan stops at the first offset with a match. *)
Lemma scanFrom_first (re : Regexp) (text : string) (m : list string) :
  forall n i k,
    i <= k -> k <= i + n ->
    matchAt re text k = Some m ->
    (forall j, i <= j -> j < k -> matchAt re text j = None) ->
    scanFrom re text i n = m.
Proof.
  induction n as [|n IH]; intros i k Hik Hkn Hm Hnone; simpl.
  - assert (k = i) by lia. subst k. now rewrite Hm.
  - destruct (Nat.eq_dec k i) as [->|Hne].
    + now rewrite Hm.
    + rewrite (Hnone i) by lia. apply (IH (S i) k); auto; try lia.
      intros j Hj1 Hj2. apply Hnone; lia.
Qed.

Lemma scanFrom_none (re : Regexp) (text : string) :
  forall n i,
    (forall j, i <= j -> j <= i + n -> matchAt re text j = None) ->
    scanFrom re text i n = [].
Proof.
  induction n as [|n IH]; intros i Hnone; simpl.
  - now rewrite (Hnone i) by lia.
  - rewrite (Hnone i) by lia. apply IH. intros j Hj1 Hj2. apply Hnone; lia.
Qed.

Lemma FindStringSubmatch_first (re : Regexp) (text : string) (i : nat)
      (m : list string) :
  firstOccurrence re text i m -> FindStringSubmatch re text = m.
Proof.
  intros (Hi & Hm & Hnone). unfold FindStringSubmatch.
  apply (scanFrom_first re text m _ 0 i); auto; lia.
Qed.

Lemma FindStringSubmatch_none (re : Regexp) (text : string) :
  (forall j, j <= String.length text -> matchAt re text j = None) ->
  FindStringSubmatch re text = [].
Proof.
  intros Hnone. apply scanFrom_none. intros j _ Hj. apply Hnone. lia.
Qed.

(** The client reference, from the two first groups. *)
Lemma clientRef_composed (text : string) (regexCfg : RegexConfig)
      (invoice : Invoice) (reCliente reMatricula : Regexp) :
  parseInvoice text regexCfg = Returned invoice ->
  Compile (cfgClienteMatricula regexCfg) = Some reCliente ->
  Compile matriculaPattern = Some reMatricula ->
  ClienteMatricula invoice
  = composeClientRef (firstGroup (FindStringSubmatch reCliente text))
      (firstGroup (FindStringSubmatch reMatricula text)).
Proof.
  intros Hret HreC HreM.
  destruct (parseInvoice_returned _ _ _ Hret)
    as (r1 & r2 & r3 & r4 & r5 & r6 & E1 & E2 & E3 & E4 & E5 & E6
        & F1 & F2 & F3 & F4 & F5).
  assert (r2 = reCliente) by congruence.
  assert (r3 = reMatricula) by congruence. subst r2 r3.
  rewrite F2. cbv zeta.
  destruct (FindStringSubmatch reCliente text) as [|w1 [|c others1]];
    destruct (FindStringSubmatch reMatricula text) as [|w2 [|r others2]];
    reflexivity.
Qed.

End ExtractorFacts.

(** Replacing every [.] by the empty string leaves the other bytes. *)
Lemma ReplaceAllDots_withoutDots (s : string) :
  ReplaceAllDots s "" = withoutDots s.
Proof.
  unfold withoutDots. induction s as [|c s IH]; simpl; auto.
  destruct (Ascii.eqb c "."); simpl; now rewrite IH.
Qed.

(** ** The rule-set loader *)

Lemma member_tolerated (kv : string * json) (c : RegexConfig) :
  tolerated kv = true -> snd (Json.member kv c) = true.
Proof.
  destruct kv as [key v]. unfold tolerated, Json.member, Json.store. simpl.
  destruct v; simpl; intros Hok;
    repeat match goal with
           | |- context [if Json.selects key ?name then _ else _] =>
               destruct (Json.selects key name) eqn:?
           end; simpl in *; auto; discriminate.
Qed.

Lemma object_tolerated (members : list (string * json)) :
  forall c, forallb tolerated members = true ->
            snd (Json.object members c) = true.
Proof.
  induction members as [|kv rest IH]; intros c; simpl; auto.
  intros Hok. apply andb_prop in Hok as [Hkv Hrest].
  pose proof (member_tolerated kv c Hkv) as Hm.
  destruct (Json.member kv c) as [c1 ok1]. simpl in Hm. subst ok1.
  specialize (IH c1 Hrest).
  destruct (Json.object rest c1) as [c2 ok2]. simpl in *. auto.
Qed.

(** A member leaves alone every field its key does not select. *)
Lemma member_other (kv : string * json) (c : RegexConfig) :
  let c' := fst (Json.member kv c) in
  (Json.selects (fst kv) "fatura" = false -> cfgFatura c' = cfgFatura c)
  /\ (Json.selects (fst kv) "cliente_matricula" = false ->
      cfgClienteMatricula c' = cfgClienteMatricula c)
  /\ (Json.selects (fst kv) "data_inicio" = false ->
      cfgDataInicio c' = cfgDataInicio c)
  /\ (Json.selects (fst kv) "valor" = false -> cfgValor c' = cfgValor c)
  /\ (Json.selects (fst kv) "prazo_meses" = false ->
      cfgPrazoMeses c' = cfgPrazoMeses c).
Proof.
  destruct kv as [key v]. unfold Json.member. simpl.
  repeat match goal with
         | |- context [if Json.selects key ?name then _ else _] =>
             destruct (Json.selects key name) eqn:?
         end;
    try destruct (Json.store v _) as [s ok]; simpl;
    repeat split; intros; congruence.
Qed.

Lemma object_omitted (members : list (string * json)) :
  forall c,
    let c' := fst (Json.object members c) in
    (omits "fatura" members = true -> cfgFatura c' = cfgFatura c)
    /\ (omits "cliente_matricula" members = true ->
        cfgClienteMatricula c' = cfgClienteMatricula c)
    /\ (omits "data_inicio" members = true ->
        cfgDataInicio c' = cfgDataInicio c)
    /\ (omits "valor" members = true -> cfgValor c' = cfgValor c)
    /\ (omits "prazo_meses" members = true ->
        cfgPrazoMeses c' = cfgPrazoMeses c).
Proof.
  induction members as [|kv rest IH]; intros c; simpl.
  - repeat split; reflexivity.
  - pose proof (member_other kv c) as Hm.
    destruct (Json.member kv c) as [c1 ok1]. simpl in Hm.
    specialize (IH c1).
    destruct (Json.object rest c1) as [c2 ok2]. simpl in *.
    destruct Hm as (M1 & M2 & M3 & M4 & M5).
    destruct IH as (I1 & I2 & I3 & I4 & I5).
    repeat split; intros Ho; apply andb_prop in Ho as [Hk Hr];
      apply negb_true_iff in Hk.
    + now rewrite I1, M1.
    + now rewrite I2, M2.
    + now rewrite I3, M3.
    + now rewrite I4, M4.
    + now rewrite I5, M5.
Qed.

Section LoaderFacts.

Context {H : Host}.

(** A JSON object whose pattern members are strings loads without an
    error, and an omitted key leaves the empty pattern. *)
Lemma loadRegexConfig_object (filePath data : string)
      (members : list (string * json)) :
  ReadFile filePath = Some data ->
  jsonDocument data = Some (JObject members) ->
  forallb tolerated members = true ->
  exists regexCfg,
    loadRegexConfig filePath = (regexCfg, None)
    /\ (omits "fatura" members = true -> cfgFatura regexCfg = "")
    /\ (omits "cliente_matricula" members = true ->
        cfgClienteMatricula regexCfg = "")
    /\ (omits "data_inicio" members = true -> cfgDataInicio regexCfg = "")
    /\ (omits "valor" members = true -> cfgValor regexCfg = "")
    /\ (omits "prazo_meses" members = true -> cfgPrazoMeses regexCfg = "").
Proof.
  intros Hread Hdoc Hok. unfold loadRegexConfig, Unmarshal.
  rewrite Hread, Hdoc. simpl.
  pose proof (object_tolerated members zeroRegexConfig Hok) as Hflag.
  pose proof (object_omitted members zeroRegexConfig) as Hom.
  destruct (Json.object members zeroRegexConfig) as [c ok].
  simpl in *. subst ok. exists c. split; auto.
Qed.

End LoaderFacts.

(** ** The pool and the patterns *)

Section PoolRules.

Context {RE : RegexpPkg} {H : Host}.

Variable regexCfg : RegexConfig.

(** What the extraction of the handles holds when the patterns do not
    compile: a panic for every handle that yields text. *)
Lemma extracted_panics :
  rulesCompile regexCfg = false ->
  forall handles,
    occurrences Panicked (extracted regexCfg handles) = readable handles.
Proof.
  intros Hrules. induction handles as [|job l IH]; [reflexivity|].
  rewrite extracted_cons, readable_cons, occurrences_app, IH. f_equal.
  unfold extracted, readable, occurrences. simpl.
  destruct (readPdf job) as [content|]; [|reflexivity].
  rewrite (parseInvoice_panics content regexCfg Hrules). reflexivity.
Qed.

Lemma occurrences_returned (invoices : list Invoice) :
  occurrences Panicked (map Returned invoices) = 0.
Proof.
  unfold occurrences. induction invoices as [|r l IH]; [reflexivity|].
  simpl. exact IH.
Qed.


End PoolRules.

(** ** The byte-wise order of Go strings *)

Lemma ascii_compare_lt (a b : ascii) :
  (a ?= b)%char = Lt <-> (N_of_ascii a < N_of_ascii b)%N.
Proof. unfold Ascii.compare. apply N.compare_lt_iff. Qed.

Lemma ascii_compare_eq (a b : ascii) : (a ?= b)%char = Eq <-> a = b.
Proof.
  split.
  - apply Ascii.compare_eq_iff.
  - intros ->. unfold Ascii.compare. apply N.compare_refl.
Qed.

Lemma string_compare_trans (a : string) :
  forall b c,
    (a ?= b)%string = Lt -> (b ?= c)%string = Lt -> (a ?= c)%string = Lt.
Proof.
  induction a as [|x a IH]; intros [|y b] [|z c]; simpl;
    try discriminate; try reflexivity.
  destruct (x ?= y)%char eqn:Exy; try discriminate;
    destruct (y ?= z)%char eqn:Eyz; try discriminate; intros Hab Hbc.
  - apply ascii_compare_eq in Exy, Eyz. subst.
    rewrite (proj2 (ascii_compare_eq z z) eq_refl). eauto.
  - apply ascii_compare_eq in Exy. subst. rewrite Eyz. reflexivity.
  - apply ascii_compare_eq in Eyz. subst. rewrite Exy. reflexivity.
  - apply ascii_compare_lt in Exy. apply ascii_compare_lt in Eyz.
    rewrite (proj2 (ascii_compare_lt x z) (N.lt_trans _ _ _ Exy Eyz)).
    reflexivity.
Qed.

Lemma string_ltb_lt (a b : string) :
  (a <? b)%string = true <-> (a ?= b)%string = Lt.
Proof. unfold String.ltb. destruct (a ?= b)%string; split; congruence. Qed.

Lemma string_ltb_trans (a b c : string) :
  (a <? b)%string = true -> (b <? c)%string = true -> (a <? c)%string = true.
Proof. rewrite !string_ltb_lt. apply string_compare_trans. Qed.

Lemma string_ltb_asym (a b : string) :
  (a <? b)%string = true -> (b <? a)%string = false.
Proof.
  unfold String.ltb. rewrite (String.compare_antisym a b).
  destruct (b ?= a)%string; simpl; congruence.
Qed.

(** Of two different strings one is before the other. *)
Lemma string_ltb_total (a b : string) :
  a = b \/ (a <? b)%string = true \/ (b <? a)%string = true.
Proof.
  unfold String.ltb. rewrite (String.compare_antisym b a).
  destruct (a ?= b)%string eqn:E; simpl; auto.
  left. apply String.compare_eq_iff, E.
Qed.

Lemma string_ltb_negtrans (a b c : string) :
  (a <? b)%string = false -> (b <? c)%string = false ->
  (a <? c)%string = false.
Proof.
  intros Hab Hbc.
  destruct (a <? c)%string eqn:Hac; [|reflexivity].
  destruct (string_ltb_total a b) as [->|[H|H]]; [congruence|congruence|].
  destruct (string_ltb_total b c) as [->|[H'|H']]; [congruence|congruence|].
  pose proof (string_ltb_trans _ _ _ H' H) as Hca.
  apply string_ltb_asym in Hca. congruence.
Qed.

Lemma string_leb_ltb (a b : string) :
  (a <=? b)%string = negb (b <? a)%string.
Proof.
  unfold String.leb, String.ltb. rewrite (String.compare_antisym b a).
  destruct (a ?= b)%string; reflexivity.
Qed.

(** ** The comparator on the records of one tier *)

Lemma less_numbered (a b : Invoice) (n m : Z) :
  numericSuffix (Fatura a) = Some n ->
  numericSuffix (Fatura b) = Some m ->
  less a b = (n <? m)%Z.
Proof.
  intros Ha Hb. rewrite less_twoTierLess. unfold twoTierLess.
  rewrite Ha, Hb. reflexivity.
Qed.

Lemma less_unnumbered (a b : Invoice) :
  numericSuffix (Fatura a) = None \/ numericSuffix (Fatura b) = None ->
  less a b = (Fatura a <? Fatura b)%string.
Proof.
  intros Hab. rewrite less_twoTierLess. unfold twoTierLess.
  destruct Hab as [-> | Hb]; [reflexivity|].
  rewrite Hb. destruct (numericSuffix (Fatura a)); reflexivity.
Qed.

Lemma numbered_suffixOf (r : Invoice) :
  numbered r = true -> numericSuffix (Fatura r) = Some (suffixOf r).
Proof.
  unfold numbered, suffixOf.
  destruct (numericSuffix (Fatura r)); [reflexivity | discriminate].
Qed.

Lemma numbered_false (r : Invoice) :
  numbered r = false -> numericSuffix (Fatura r) = None.
Proof.
  unfold numbered.
  destruct (numericSuffix (Fatura r)); [discriminate | reflexivity].
Qed.

Lemma less_asym (a b : Invoice) : less a b = true -> less b a = false.
Proof.
  rewrite !less_twoTierLess. unfold twoTierLess.
  destruct (numericSuffix (Fatura a)) as [n|],
           (numericSuffix (Fatura b)) as [m|];
    try apply string_ltb_asym.
  intros Hnm. apply Z.ltb_lt in Hnm. apply Z.ltb_ge. lia.
Qed.

(** On the records of one tier the comparator is a transitive ordering. *)
Lemma transitiveOrdering_numbered (l : list Invoice) :
  forallb numbered l = true -> transitiveOrdering less l = true.
Proof.
  intros Hall. rewrite forallb_forall in Hall.
  apply transitiveOrdering_spec. repeat split.
  - intros x _. apply less_irrefl.
  - intros x y z Hx Hy Hz.
    rewrite (less_numbered x y _ _ (numbered_suffixOf _ (Hall _ Hx))
               (numbered_suffixOf _ (Hall _ Hy))),
            (less_numbered y z _ _ (numbered_suffixOf _ (Hall _ Hy))
               (numbered_suffixOf _ (Hall _ Hz))),
            (less_numbered x z _ _ (numbered_suffixOf _ (Hall _ Hx))
               (numbered_suffixOf _ (Hall _ Hz))).
    rewrite !Z.ltb_lt. lia.
  - intros x y z Hx Hy Hz.
    rewrite (less_numbered x y _ _ (numbered_suffixOf _ (Hall _ Hx))
               (numbered_suffixOf _ (Hall _ Hy))),
            (less_numbered y z _ _ (numbered_suffixOf _ (Hall _ Hy))
               (numbered_suffixOf _ (Hall _ Hz))),
            (less_numbered x z _ _ (numbered_suffixOf _ (Hall _ Hx))
               (numbered_suffixOf _ (Hall _ Hz))).
    rewrite !Z.ltb_ge. lia.
Qed.

Lemma transitiveOrdering_unnumbered (l : list Invoice) :
  forallb (fun r => negb (numbered r)) l = true ->
  transitiveOrdering less l = true.
Proof.
  intros Hall. rewrite forallb_forall in Hall.
  assert (Hnone : forall x, In x l -> numericSuffix (Fatura x) = None).
  { intros x Hx. apply numbered_false. apply negb_true_iff. auto. }
  apply transitiveOrdering_spec. repeat split.
  - intros x _. apply less_irrefl.
  - intros x y z Hx Hy Hz.
    rewrite !less_unnumbered by (left; auto). apply string_ltb_trans.
  - intros x y z Hx Hy Hz.
    rewrite !less_unnumbered by (left; auto). apply string_ltb_negtrans.
Qed.

Lemma isSorted_StronglySorted {A : Type} (lt : A -> A -> bool) (l : list A) :
  isSorted lt l = true -> StronglySorted (fun x y => lt y x = false) l.
Proof.
  induction l as [|x l IH]; simpl; intros Hs; constructor.
  - apply IH. apply andb_true_iff in Hs. tauto.
  - apply andb_true_iff in Hs. destruct Hs as [Hx _].
    rewrite forallb_forall in Hx. apply Forall_forall.
    intros y Hy. apply negb_true_iff. auto.
Qed.

Lemma StronglySorted_map {A B : Type} (R : B -> B -> Prop) (f : A -> B)
      (l : list A) :
  StronglySorted (fun x y => R (f x) (f y)) l -> StronglySorted R (map f l).
Proof.
  induction 1 as [|x l Hl IH Hx]; simpl; constructor; auto.
  apply Forall_forall. intros b Hb. apply in_map_iff in Hb.
  destruct Hb as [y [<- Hy]]. rewrite Forall_forall in Hx. auto.
Qed.

Lemma StronglySorted_weaken {A : Type} (R R' : A -> A -> Prop) (l : list A) :
  (forall x y, In x l -> In y l -> R x y -> R' x y) ->
  StronglySorted R l -> StronglySorted R' l.
Proof.
  intros Himp Hs. induction Hs as [|x l Hl IH Hx]; constructor.
  - apply IH. intros a b Ha Hb. apply Himp; right; assumption.
  - rewrite Forall_forall in *. intros y Hy.
    apply Himp; [left; reflexivity | right; assumption | auto].
Qed.

(** ** The pieces of an invoice id *)


(** Up to its first separator a string is the first piece, and the pieces
    of what follows the separator follow it. *)
Lemma Split_prefix (p : string) (sep : ascii) (rest : string) :
  forallb (fun c => negb (Ascii.eqb c sep)) (list_ascii_of_string p) = true ->
  GoStrings.Split (p ++ String sep rest) sep = p :: GoStrings.Split rest sep.
Proof.
  induction p as [|c p IH]; simpl; intros Hp.
  - rewrite Ascii.eqb_refl. reflexivity.
  - apply andb_true_iff in Hp. destruct Hp as [Hc Hp].
    apply negb_true_iff in Hc. rewrite Hc, (IH Hp). reflexivity.
Qed.

Lemma Split_whole (p : string) (sep : ascii) :
  forallb (fun c => negb (Ascii.eqb c sep)) (list_ascii_of_string p) = true ->
  GoStrings.Split p sep = [p].
Proof.
  induction p as [|c p IH]; simpl; intros Hp; [reflexivity|].
  apply andb_true_iff in Hp. destruct Hp as [Hc Hp].
  apply negb_true_iff in Hc. rewrite Hc, (IH Hp). reflexivity.
Qed.

Lemma secondSegment_prefix (p segment : string) :
  noSlash p = true -> noSlash segment = true ->
  secondSegment (p ++ "/" ++ segment) = Some segment
  /\ forall more, secondSegment (p ++ "/" ++ segment ++ "/" ++ more)
                  = Some segment.
Proof.
  intros Hp Hs. unfold secondSegment. split.
  - change (p ++ "/" ++ segment)%string
      with (p ++ String "/"%char segment)%string.
    rewrite (Split_prefix p _ _ Hp), (Split_whole segment _ Hs). reflexivity.
  - intros more.
    change (p ++ "/" ++ segment ++ "/" ++ more)%string
      with (p ++ String "/"%char (segment ++ String "/"%char more))%string.
    rewrite (Split_prefix p _ _ Hp), (Split_prefix segment _ _ Hs).
    reflexivity.
Qed.


(** ** What the extractor leaves of a dot *)

Lemma ReplaceAllDots_no_dot (s : string) :
  existsb (Ascii.eqb "."%char) (list_ascii_of_string (ReplaceAllDots s ""))
  = false.
Proof.
  induction s as [|c s IH]; [reflexivity|].
  cbn [ReplaceAllDots]. destruct (Ascii.eqb c "."%char) eqn:E.
  - exact IH.
  - cbn [list_ascii_of_string existsb].
    rewrite Ascii.eqb_sym, E. exact IH.
Qed.

(** ** The decoder, member by member *)

Lemma member_tolerated_iff (kv : string * json) (c : RegexConfig) :
  snd (Json.member kv c) = true <-> tolerated kv = true.
Proof.
  split; [|apply member_tolerated].
  destruct kv as [key v]. unfold tolerated, Json.member, Json.store. simpl.
  destruct v; simpl; auto;
    repeat match goal with
           | |- context [if Json.selects key ?name then _ else _] =>
               destruct (Json.selects key name) eqn:?
           end; simpl in *; auto.
Qed.

Lemma object_tolerated_iff (members : list (string * json)) :
  forall c, snd (Json.object members c) = true
            <-> forallb tolerated members = true.
Proof.
  induction members as [|kv rest IH]; intros c; simpl; [tauto|].
  pose proof (member_tolerated_iff kv c) as Hm.
  destruct (Json.member kv c) as [c1 ok1]. simpl in Hm.
  specialize (IH c1).
  destruct (Json.object rest c1) as [c2 ok2]. simpl in *.
  rewrite !andb_true_iff. tauto.
Qed.


(** A key selects a field exactly when it folds to the field's name, and
    it folds to the name of one pattern key at most. *)
Lemma selects_folds (key name : string) :
  Json.selects key name = folds key name.
Proof.
  unfold Json.selects, folds.
  destruct (String.eqb_spec key name) as [-> | Hne]; [|reflexivity].
  destruct (list_eq_dec Nat.eq_dec (Json.foldName name) (Json.foldName name));
    [reflexivity | congruence].
Qed.

Lemma folds_one (key a b : string) :
  folds key a = true -> folds key b = true ->
  Json.foldName a = Json.foldName b.
Proof.
  unfold folds.
  destruct (list_eq_dec Nat.eq_dec (Json.foldName key) (Json.foldName a));
    [|discriminate].
  destruct (list_eq_dec Nat.eq_dec (Json.foldName key) (Json.foldName b));
    [|discriminate].
  congruence.
Qed.

Ltac two_fields :=
  match goal with
  | E1 : folds ?k ?a = true, E2 : folds ?k ?b = true |- _ =>
      let Hab := fresh "Hab" in
      pose proof (folds_one k a b E1 E2) as Hab;
      vm_compute in Hab; discriminate Hab
  end.

(** What one member does to the pattern of a field. *)
Lemma member_pattern (name : string) (kv : string * json) (c : RegexConfig) :
  In name patternKeys ->
  patternOf name (fst (Json.member kv c))
  = if sets name kv
    then match snd kv with
         | JString s => s
         | _ => patternOf name c
         end
    else patternOf name c.
Proof.
  destruct kv as [key v]. intros Hname. unfold Json.member, sets.
  rewrite !selects_folds. cbn [fst snd].
  simpl in Hname.
  destruct Hname as [<- | [<- | [<- | [<- | [<- | []]]]]];
    destruct (folds key "fatura") eqn:E1;
    destruct (folds key "cliente_matricula") eqn:E2;
    destruct (folds key "data_inicio") eqn:E3;
    destruct (folds key "valor") eqn:E4;
    destruct (folds key "prazo_meses") eqn:E5;
    try two_fields;
    destruct v; reflexivity.
Qed.

Lemma object_pattern (name : string) (members : list (string * json)) :
  In name patternKeys ->
  forall c,
    patternOf name (fst (Json.object members c))
    = patternAfter name members (patternOf name c).
Proof.
  intros Hname. induction members as [|kv rest IH]; intros c; [reflexivity|].
  cbn [Json.object patternAfter].
  pose proof (member_pattern name kv c Hname) as Hm.
  destruct (Json.member kv c) as [c1 ok1]. cbn [fst] in Hm.
  specialize (IH c1).
  destruct (Json.object rest c1) as [c2 ok2]. cbn [fst] in *.
  rewrite IH, Hm.
  destruct (sets name kv) eqn:Hs; [|reflexivity].
  unfold sets in Hs. destruct (snd kv); try discriminate. reflexivity.
Qed.

(** Members that do not set the field leave its pattern. *)
Lemma patternAfter_others (name : string) (members : list (string * json)) :
  forallb (fun kv => negb (sets name kv)) members = true ->
  forall current, patternAfter name members current = current.
Proof.
  induction members as [|kv rest IH]; intros Hall current; [reflexivity|].
  cbn [forallb] in Hall. apply andb_true_iff in Hall. destruct Hall as [Hkv Hrest].
  apply negb_true_iff in Hkv. cbn [patternAfter]. rewrite Hkv.
  apply IH. exact Hrest.
Qed.

Lemma patternAfter_app (name : string) (l1 l2 : list (string * json)) :
  forall current,
    patternAfter name (l1 ++ l2) current
    = patternAfter name l2 (patternAfter name l1 current).
Proof.
  induction l1 as [|kv l1 IH]; intros current; [reflexivity|].
  cbn [app patternAfter]. apply IH.
Qed.

Section LoaderMore.

Context {H : Host}.

Lemma loadRegexConfig_succeeds (filePath : string) :
  snd (loadRegexConfig filePath) = None
  <-> exists data doc,
        ReadFile filePath = Some data
        /\ jsonDocument data = Some doc
        /\ acceptable doc = true.
Proof.
  unfold loadRegexConfig, Unmarshal. split.
  - destruct (ReadFile filePath) as [data|]; [|discriminate].
    destruct (jsonDocument data) as [doc|] eqn:Hdoc; [|discriminate].
    intros Hok. exists data, doc. repeat split; auto.
    destruct doc; simpl in *; try discriminate; auto.
    apply (object_tolerated_iff members zeroRegexConfig).
    destruct (Json.object members zeroRegexConfig) as [c ok].
    destruct ok; [reflexivity | discriminate].
  - intros (data & doc & -> & -> & Hok).
    destruct doc; simpl in *; try discriminate; auto.
    apply (object_tolerated_iff members zeroRegexConfig) in Hok.
    destruct (Json.object members zeroRegexConfig) as [c ok].
    simpl in Hok. subst ok. reflexivity.
Qed.

End LoaderMore.

(** ** Separation and rearrangement *)

Lemma separated_perm (l l' : list Invoice) :
  Permutation l l' -> separated l = true -> separated l' = true.
Proof.
  intros Hperm. unfold separated. rewrite !forallb_forall.
  intros Hsep x Hx. apply forallb_forall. intros y Hy.
  apply (Permutation_in _ (Permutation_sym Hperm)) in Hx.
  apply (Permutation_in _ (Permutation_sym Hperm)) in Hy.
  specialize (Hsep x Hx). rewrite forallb_forall in Hsep. auto.
Qed.

Lemma Returned_perm (l1 l2 : list Invoice) :
  Permutation (map Returned l1) (map Returned l2) -> Permutation l1 l2.
Proof.
  intros Hperm.
  pose (unwrap := fun o : outcome Invoice =>
                    match o with
                    | Returned r => [r]
                    | Panicked => []
                    end).
  assert (Hun : forall l, flat_map unwrap (map Returned l) = l).
  { induction l as [|r l IH]; simpl; [|rewrite IH]; reflexivity. }
  rewrite <- (Hun l1), <- (Hun l2).
  apply (Permutation_flat_map unwrap). exact Hperm.
Qed.

(** ** The program up to the sort *)

Section ProgramFacts.

Context {RE : RegexpPkg} {H : Host} {S : SortPkg}.

(** A run of [main] that ends with sorted records loaded its rule set,
    listed the directory and took the pool to the barrier. *)
Lemma main_sorted (templatePath : string) (numWorkers : Z)
      (schedule : list nat) (invoices : list Invoice) (processed errors : Z) :
  main templatePath numWorkers schedule
  = Some (Sorted invoices processed errors) ->
  exists regexCfg files s,
    loadRegexConfig templatePath = (regexCfg, None)
    /\ Glob "pdfs/*.pdf" = Some files
    /\ exec regexCfg files numWorkers schedule start = Some (Returned s)
    /\ joined s = true
    /\ invoices = collate (collected s)
    /\ processed = totalProcessed s
    /\ errors = totalErrors s.
Proof.
  unfold main.
  destruct (loadRegexConfig templatePath) as [regexCfg [e|]]; [discriminate|].
  destruct (Glob "pdfs/*.pdf") as [files|]; [|discriminate].
  destruct (exec regexCfg files numWorkers schedule start) as [[s|]|] eqn:Hrun;
    try discriminate.
  destruct (mainPc s) as [| | | |collected0] eqn:Hm; try discriminate.
  intros E. injection E as <- <- <-.
  exists regexCfg, files, s. unfold joined, collected. rewrite Hm.
  repeat split; auto.
Qed.

(** At the barrier of a run with a worker the records collected are the
    extraction of the handles, up to their order, and the counters are the
    numbers of the handles that yield text and of those that do not. *)
Lemma barrier_accounts (regexCfg : RegexConfig) (files : list string)
      (numWorkers : Z) (schedule : list nat) (s : pool) :
  (1 <= numWorkers)%Z ->
  (Z.of_nat (List.length files) < 2 ^ 63)%Z ->
  exec regexCfg files numWorkers schedule start = Some (Returned s) ->
  joined s = true ->
  Permutation (map Returned (collected s)) (extracted regexCfg files)
  /\ totalProcessed s = Z.of_nat (readable files)
  /\ totalErrors s = Z.of_nat (unreadable files).
Proof.
  intros HW Hfit Hrun Hj.
  assert (Hi : invariant regexCfg files numWorkers s)
    by (eapply invariant_exec; eauto using invariant_start).
  destruct (joined_settled regexCfg files numWorkers Hfit s HW Hi Hj)
    as (He & Hp & Hr).
  repeat split; auto.
  apply (Permutation_count_occ outcome_Invoice_eq_dec).
  intros o. symmetry. apply Hr.
Qed.

Lemma extracted_length (regexCfg : RegexConfig) (files : list string) :
  List.length (extracted regexCfg files) = readable files.
Proof.
  unfold extracted, readable.
  induction files as [|job l IH]; simpl; auto.
  destruct (readPdf job); simpl; auto.
Qed.

End ProgramFacts.

(** ** The lines of the sink read back *)

Lemma append_assoc (a b c : string) :
  ((a ++ b) ++ c)%string = (a ++ b ++ c)%string.
Proof.
  induction a as [|x a IH]; simpl; [|rewrite IH]; reflexivity.
Qed.

Lemma delimited_not_quote (rest : string) :
  CsvRead.delimited rest = true ->
  exists c rest', rest = String c rest' /\ Ascii.eqb c Csv.dquote = false
                  /\ (Ascii.eqb c Csv.comma || Ascii.eqb c Csv.LF) = true.
Proof.
  destruct rest as [|c rest']; simpl; [discriminate|].
  intros Hd. exists c, rest'. repeat split; auto.
  apply orb_true_iff in Hd.
  destruct Hd as [Hc | Hc]; apply Ascii.eqb_eq in Hc; subst; reflexivity.
Qed.

Lemma readQuoted_quoted (field rest : string) :
  CsvRead.delimited rest = true ->
  CsvRead.readQuoted (Csv.quoted field ++ String Csv.dquote rest)
  = Some (field, rest).
Proof.
  intros Hd. destruct (delimited_not_quote rest Hd) as (d & rest' & -> & Hq & _).
  induction field as [|c field IH].
  - cbn [Csv.quoted append CsvRead.readQuoted].
    rewrite Ascii.eqb_refl, Hq. reflexivity.
  - cbn [Csv.quoted]. destruct (Ascii.eqb c Csv.dquote) eqn:Hc.
    + apply Ascii.eqb_eq in Hc. subst c.
      cbn [append CsvRead.readQuoted]. rewrite Ascii.eqb_refl.
      fold (CsvRead.readQuoted
              (Csv.quoted field ++ String Csv.dquote (String d rest'))).
      rewrite IH. reflexivity.
    + cbn [append CsvRead.readQuoted]. rewrite Hc.
      fold (CsvRead.readQuoted
              (Csv.quoted field ++ String Csv.dquote (String d rest'))).
      rewrite IH. reflexivity.
Qed.

Lemma special_delimiter (c : ascii) :
  Csv.special c = false ->
  (Ascii.eqb c Csv.comma || Ascii.eqb c Csv.LF) = false
  /\ Ascii.eqb c Csv.dquote = false.
Proof.
  unfold Csv.special. rewrite !orb_false_iff.
  intros [[[-> _] ->] ->]. auto.
Qed.

Lemma readPlain_plain (field rest : string) :
  existsb Csv.special (list_ascii_of_string field) = false ->
  CsvRead.delimited rest = true ->
  CsvRead.readPlain (field ++ rest) = (field, rest).
Proof.
  intros Hplain Hd. induction field as [|c field IH].
  - destruct (delimited_not_quote rest Hd) as (d & rest' & -> & _ & Hdel).
    cbn [append CsvRead.readPlain]. rewrite Hdel. reflexivity.
  - cbn [list_ascii_of_string existsb] in Hplain.
    apply orb_false_iff in Hplain. destruct Hplain as [Hc Hrest].
    destruct (special_delimiter c Hc) as [Hdel _].
    cbn [append CsvRead.readPlain]. rewrite Hdel.
    fold (CsvRead.readPlain (field ++ rest)). rewrite (IH Hrest). reflexivity.
Qed.

Lemma fieldNeedsQuotes_plain (field : string) :
  Csv.fieldNeedsQuotes field = false ->
  existsb Csv.special (list_ascii_of_string field) = false.
Proof.
  unfold Csv.fieldNeedsQuotes.
  destruct (String.eqb_spec field "") as [-> | _]; [reflexivity|].
  destruct (String.eqb field "\."); [discriminate|].
  destruct (existsb Csv.special (list_ascii_of_string field));
    [discriminate | reflexivity].
Qed.

Lemma readField_writeField (field rest : string) :
  CsvRead.delimited rest = true ->
  CsvRead.readField (Csv.writeField field ++ rest) = Some (field, rest).
Proof.
  intros Hd. unfold Csv.writeField.
  destruct (Csv.fieldNeedsQuotes field) eqn:Hq.
  - cbn [append]. rewrite append_assoc. cbn [append CsvRead.readField].
    rewrite Ascii.eqb_refl. apply readQuoted_quoted. exact Hd.
  - pose proof (fieldNeedsQuotes_plain field Hq) as Hplain.
    pose proof (readPlain_plain field rest Hplain Hd) as Hread.
    destruct field as [|c field].
    + destruct (delimited_not_quote rest Hd) as (d & rest' & -> & Hnq & _).
      cbn [append] in *. cbn [CsvRead.readField]. rewrite Hnq, Hread.
      reflexivity.
    + cbn [list_ascii_of_string existsb] in Hplain.
      apply orb_false_iff in Hplain. destruct Hplain as [Hc _].
      destruct (special_delimiter c Hc) as [_ Hnq].
      cbn [append] in *. cbn [CsvRead.readField]. rewrite Hnq, Hread.
      reflexivity.
Qed.

Lemma readFields_more (n : nat) (s : string) :
  CsvRead.readFields (S (S n)) s
  = match CsvRead.readField s with
    | Some (field, String c rest) =>
        if Ascii.eqb c Csv.comma then
          match CsvRead.readFields (S n) rest with
          | Some (fields, rest') => Some (field :: fields, rest')
          | None => None
          end
        else None
    | _ => None
    end.
Proof.
  reflexivity.
Qed.

Lemma readFields_writeFields (fields : list string) :
  forall field rest,
    CsvRead.readFields (S (List.length fields))
      (Csv.writeField field ++ Csv.writeFields false fields
       ++ String Csv.LF rest)
    = Some (field :: fields, rest).
Proof.
  induction fields as [|next fields IH]; intros field rest.
  - cbn [Csv.writeFields append List.length CsvRead.readFields].
    rewrite readField_writeField by reflexivity.
    rewrite Ascii.eqb_refl. reflexivity.
  - cbn [Csv.writeFields List.length]. rewrite !append_assoc.
    cbn [append]. rewrite readFields_more.
    rewrite readField_writeField by reflexivity.
    rewrite Ascii.eqb_refl, IH. reflexivity.
Qed.

Lemma readFields_Write (field : string) (fields : list string)
      (rest : string) :
  CsvRead.readFields (S (List.length fields))
    (Csv.Write (field :: fields) ++ rest)
  = Some (field :: fields, rest).
Proof.
  unfold Csv.Write. cbn [Csv.writeFields]. rewrite !append_assoc.
  cbn [append]. apply readFields_writeFields.
Qed.

Lemma readRecords_writeRecords (invoices : list Invoice) :
  CsvRead.readRecords (List.length invoices) (writeRecords invoices)
  = Some invoices.
Proof.
  induction invoices as [|[a b c d e] l IH]; [reflexivity|].
  cbn [writeRecords List.length CsvRead.readRecords csvRecord
       Fatura ClienteMatricula DataInicio Valor PrazoMeses].
  rewrite (readFields_Write a [b; c; d; e]). rewrite IH. reflexivity.
Qed.

Lemma readAll_WriteInvoicesToCSV (invoices : list Invoice) :
  CsvRead.readAll csvHeader (List.length invoices)
    (WriteInvoicesToCSV invoices)
  = Some invoices.
Proof.
  unfold CsvRead.readAll, WriteInvoicesToCSV.
  change (List.length csvHeader) with (S (List.length (tl csvHeader))).
  change csvHeader with ("Fatura" :: tl csvHeader) at 2.
  rewrite readFields_Write.
  destruct (list_eq_dec string_dec ("Fatura" :: tl csvHeader) csvHeader)
    as [_ | Hne]; [|now elim Hne].
  apply readRecords_writeRecords.
Qed.

(** Two lists that write the same lines are the same list. *)
Lemma writeRecords_inj (l1 : list Invoice) :
  forall l2, writeRecords l1 = writeRecords l2 -> l1 = l2.
Proof.
  induction l1 as [|[a1 b1 c1 d1 e1] l1 IH];
    intros [|[a2 b2 c2 d2 e2] l2] Heq; [reflexivity| | |];
    apply (f_equal (CsvRead.readFields 5)) in Heq;
    cbn [writeRecords csvRecord
         Fatura ClienteMatricula DataInicio Valor PrazoMeses] in Heq.
  - rewrite (readFields_Write a2 [b2; c2; d2; e2]) in Heq. discriminate.
  - rewrite (readFields_Write a1 [b1; c1; d1; e1]) in Heq. discriminate.
  - rewrite (readFields_Write a1 [b1; c1; d1; e1]),
            (readFields_Write a2 [b2; c2; d2; e2]) in Heq.
    injection Heq as -> -> -> -> -> Hrest.
    rewrite (IH l2 Hrest). reflexivity.
Qed.

(* ================================================================== *)
(** * Part III.  The claims                                            *)
(* ================================================================== *)

(** ** The collator *)

(** C1, as stated, fails.  Two records with the same invoice id and a
    different client are not separated by the comparator, so the insertion
    sort that [sort.Slice] runs on a two-element slice leaves them as they
    came: the two orders of the same two records give two different
    outputs.  And three records with pairwise different ids on which the
    two tiers disagree ([B/1] before [A/2] by number, [A/2] before [AB] and
    [AB] before [B/1] as strings) come out in a different sequence for each
    of three input orders.  Such a conflict of the two tiers also undoes
    the order of a pair that is ordered by number: after [FZ] and [G/5]
    the record [FT 2023/1001] stays behind [FT 2023/12345]. *)
Lemma collate_depends_on_input_order :
  let a := mkInvoice "FT 2023/7" "Ana" "" "" "" in
  let b := mkInvoice "FT 2023/7" "Rui" "" "" "" in
  let x := mkInvoice "A/2" "" "" "" "" in
  let y := mkInvoice "B/1" "" "" "" "" in
  let z := mkInvoice "AB" "" "" "" "" in
  let p := mkInvoice "FT 2023/12345" "" "" "" "" in
  let q := mkInvoice "FZ" "" "" "" "" in
  let r := mkInvoice "G/5" "" "" "" "" in
  let s := mkInvoice "FT 2023/1001" "" "" "" "" in
  (Permutation [a; b] [b; a]
   /\ @collate insertionSortPkg [a; b] = [a; b]
   /\ @collate insertionSortPkg [b; a] = [b; a]
   /\ @collate insertionSortPkg [a; b] <> @collate insertionSortPkg [b; a])
  /\ (Permutation [x; y; z] [y; z; x]
      /\ @collate insertionSortPkg [x; y; z] = [y; x; z]
      /\ @collate insertionSortPkg [y; z; x] = [z; y; x]
      /\ @collate insertionSortPkg [z; x; y] = [x; z; y])
  /\ (less s p = true
      /\ @collate insertionSortPkg [p; q; r; s] = [p; q; r; s]
      /\ @collate insertionSortPkg [s; p; q; r] = [s; p; q; r]).
Proof.
  intros a b x y z p q r s.
  assert (Hab : @collate insertionSortPkg [a; b] = [a; b]) by reflexivity.
  assert (Hba : @collate insertionSortPkg [b; a] = [b; a]) by reflexivity.
  repeat split; try reflexivity.
  - apply perm_swap.
  - rewrite Hab, Hba. intros E. injection E as E _. discriminate E.
  - apply (Permutation_cons_app [y; z] [] x). reflexivity.
Qed.

(** C1, amended: the collator's output is always a rearrangement of its
    input.  When the comparator is a transitive ordering of the records of
    the list and orders any two different records one way or the other --
    as it does when every invoice id carries an integer second segment and
    different records carry different integers -- every permutation of the
    input sorts to the same sequence, which is sorted.  [sort.Slice]
    promises no stability; its insertion sort, the routine run on short
    slices, keeps in their input order the records of any class the
    comparator does not separate, such as the records that share an
    invoice id. *)
Theorem collate_order_independent_when_separated :
  (forall (S : SortPkg) (l : list Invoice), Permutation l (collate l))
  /\ (forall (S : SortPkg) (l l' : list Invoice),
        transitiveOrdering less l = true ->
        separated l = true ->
        Permutation l l' ->
        collate l' = collate l /\ isSorted less (collate l) = true)
  /\ (forall (S : SortPkg) (l l' : list Invoice),
        distinctNumbers l = true ->
        Permutation l l' ->
        collate l' = collate l)
  /\ (forall (keep : Invoice -> bool) (l : list Invoice),
        (forall a b, keep a = true -> keep b = true -> less a b = false) ->
        filter keep (insertionSort less l) = filter keep l)
  /\ (forall (l : list Invoice) (invoiceId : string),
        withId invoiceId (insertionSort less l) = withId invoiceId l).
Proof.
  split; [|split; [|split; [|split]]].
  - intros S l. apply (Slice_permutation Invoice less l).
  - intros S l l' Hord Hsep Hp. split.
    + now apply collate_unique.
    + now apply (Slice_sorted Invoice less l).
  - intros S l l' Hnum Hp.
    destruct (distinctNumbers_ordering l Hnum) as [Hord Hsep].
    now apply collate_unique.
  - intros keep l Hclass. now apply insertionSort_keeps.
  - intros l invoiceId. unfold withId. apply insertionSort_keeps.
    intros a b Ha Hb. apply String.eqb_eq in Ha, Hb.
    apply less_same_id. congruence.
Qed.

Lemma collate_order_independent_witness :
  let r1 := mkInvoice "FT 2023/1001" "Ana" "" "" "" in
  let r2 := mkInvoice "FT 2023/12345" "Rui" "" "" "" in
  let r3 := mkInvoice "FT 2024/7" "Eva" "" "" "" in
  @collate insertionSortPkg [r3; r1; r2] = @collate insertionSortPkg [r1; r2; r3]
  /\ isSorted less (@collate insertionSortPkg [r1; r2; r3]) = true.
Proof.
  cbv zeta.
  apply (proj1 (proj2 collate_order_independent_when_separated)
           insertionSortPkg).
  - reflexivity.
  - reflexivity.
  - apply Permutation_sym.
    apply (Permutation_cons_app
             [mkInvoice "FT 2023/1001" "Ana" "" "" "";
              mkInvoice "FT 2023/12345" "Rui" "" "" ""] []
             (mkInvoice "FT 2024/7" "Eva" "" "" "")).
    reflexivity.
Defined.

(** C2: the comparator compares the integers parsed from the second
    ['/']-separated segments when both invoice ids have such a segment and
    both segments parse, and the full invoice ids as strings otherwise.  A
    record with the id [FT 2023/1001] is sorted before one with
    [FT 2023/12345] whichever comes first in the input, by any sort that
    meets the contract of [sort.Slice], and so is, in a list the comparator
    orders transitively, any record before a record it is less than; [X]
    and [Y/abc] have no integer suffix and are compared as strings. *)
Theorem less_is_two_tier :
  (forall a b : Invoice, less a b = twoTierLess a b)
  /\ (forall (S : SortPkg) c1 d1 v1 p1 c2 d2 v2 p2,
        let a := mkInvoice "FT 2023/1001" c1 d1 v1 p1 in
        let b := mkInvoice "FT 2023/12345" c2 d2 v2 p2 in
        collate [a; b] = [a; b] /\ collate [b; a] = [a; b])
  /\ (forall (S : SortPkg) (l front back : list Invoice) (a b : Invoice),
        transitiveOrdering less l = true ->
        less a b = true ->
        collate l = front ++ b :: back ->
        ~ In a back)
  /\ (forall c1 d1 v1 p1 c2 d2 v2 p2,
        let x := mkInvoice "X" c1 d1 v1 p1 in
        let y := mkInvoice "Y/abc" c2 d2 v2 p2 in
        numericSuffix "X" = None
        /\ numericSuffix "Y/abc" = None
        /\ less x y = ("X" <? "Y/abc")%string
        /\ less y x = ("Y/abc" <? "X")%string
        /\ less x y = true).
Proof.
  split; [exact less_twoTierLess|]. split.
  - intros S c1 d1 v1 p1 c2 d2 v2 p2 a b.
    assert (Hab : less a b = true) by reflexivity.
    assert (Hsorted : forall l, Permutation [a; b] l -> collate l = [a; b]).
    { intros l Hp. unfold collate.
      assert (Hord : transitiveOrdering less l = true).
      { apply (transitiveOrdering_perm less [a; b] l Hp). reflexivity. }
      pose proof (Slice_sorted Invoice less l Hord) as Hs.
      pose proof (Slice_permutation Invoice less l) as Hq.
      apply (perm_trans Hp) in Hq.
      apply Permutation_length_2_inv in Hq as [-> | E]; auto.
      rewrite E in Hs. unfold isSorted, forallb in Hs.
      rewrite Hab in Hs. discriminate. }
    split; apply Hsorted; [apply Permutation_refl | apply perm_swap].
  - split; [|intros; repeat split; reflexivity].
    intros S l front back a b Hord Hab Hout Hin.
    pose proof (Slice_sorted Invoice less l Hord) as Hs.
    unfold collate in Hout. rewrite Hout in Hs.
    rewrite (isSorted_after less front back b a Hs Hin) in Hab.
    discriminate.
Qed.

Lemma less_is_two_tier_witness :
  let r1 := mkInvoice "FT 2023/1001" "Ana" "" "" "" in
  let r2 := mkInvoice "FT 2023/12345" "Rui" "" "" "" in
  let r3 := mkInvoice "FT 2024/7" "Eva" "" "" "" in
  @collate insertionSortPkg [r2; r1; r3] = [r3] ++ r1 :: [r2]
  /\ ~ In r3 [r2].
Proof.
  intros r1 r2 r3. split; [reflexivity|].
  apply (proj1 (proj2 (proj2 less_is_two_tier))
           insertionSortPkg [r2; r1; r3] [r3] [r2] r3 r1);
    reflexivity.
Defined.

(** ** The worker pool *)

Section PoolClaims.

Context {RE : RegexpPkg} {H : Host}.

Variable regexCfg : RegexConfig.
Variable files : list string.
Variable NumWorkers : Z.

(** C4: with at least one worker, whatever the schedule of the goroutines,
    when [main] is past [wg.Wait()] the two counters add up to the number
    of handles: the processed counter is the number of handles whose text
    extraction succeeds, the error counter the number of those whose
    extraction fails.  With patterns that compile every run can be
    continued up to that barrier, and every step uses up some of a finite
    measure, so every run reaches it. *)
Theorem pool_counts_every_job :
  (1 <= NumWorkers)%Z ->
  (Z.of_nat (List.length files) < 2 ^ 63)%Z ->
  (forall schedule s,
      exec regexCfg files NumWorkers schedule start = Some (Returned s) ->
      joined s = true ->
      (totalProcessed s + totalErrors s = Z.of_nat (List.length files))%Z
      /\ totalProcessed s = Z.of_nat (readable files)
      /\ totalErrors s = Z.of_nat (unreadable files))
  /\ (rulesCompile regexCfg = true ->
      forall schedule s,
        exec regexCfg files NumWorkers schedule start = Some (Returned s) ->
        exists more s',
          exec regexCfg files NumWorkers more s = Some (Returned s')
          /\ joined s' = true)
  /\ (forall thread s s',
        step regexCfg files NumWorkers thread s = Some (Returned s') ->
        measure files NumWorkers s' < measure files NumWorkers s).
Proof.
  intros HW Hfit. split; [|split].
  - intros schedule s Hrun Hj.
    assert (Hi : invariant regexCfg files NumWorkers s)
      by (eapply invariant_exec; eauto using invariant_start).
    destruct (joined_settled regexCfg files NumWorkers Hfit s HW Hi Hj)
      as (He & Hp & _).
    pose proof (unreadable_readable files). repeat split; auto. lia.
  - intros Hrules schedule s Hrun.
    assert (Hi : invariant regexCfg files NumWorkers s)
      by (eapply invariant_exec; eauto using invariant_start).
    apply (reaches_barrier regexCfg files NumWorkers Hfit
             (S (measure files NumWorkers s))); auto.
    intros content Hp.
    assert (Hfalse : rulesCompile regexCfg = false)
      by (destruct (rulesCompile regexCfg) eqn:E; auto;
          apply (parseInvoice_returns_iff content) in E as [invoice E];
          congruence).
    congruence.
  - intros thread s s' Hstep. eapply measure_step; eauto.
Qed.


End PoolClaims.

Lemma pool_counts_every_job_witness :
  (totalProcessed exampleBarrier + totalErrors exampleBarrier = 3)%Z
  /\ totalProcessed exampleBarrier = 2%Z
  /\ totalErrors exampleBarrier = 1%Z.
Proof.
  apply (proj1 (@pool_counts_every_job miniRegexp emptyTemplateHost
                  exampleRules exampleFiles 2 ltac:(lia) ltac:(simpl; lia))
           exampleSchedule exampleBarrier);
    vm_compute; reflexivity.
Defined.


(** ** The field extractor *)

Lemma firstGroup_spec (m : list string) :
  (if 1 <? List.length m then idx m 1 else "") = orEmpty (firstGroup m)
  /\ (1 <? List.length m) = match firstGroup m with
                            | Some _ => true
                            | None => false
                            end.
Proof. destruct m as [|whole [|group1 others]]; split; reflexivity. Qed.

Section ExtractorClaims.

Context {RE : RegexpPkg}.

Variable text : string.
Variable regexCfg : RegexConfig.
Variable invoice : Invoice.

(** C6: the amount is the first capture group of the match of the [valor]
    pattern with every ['.'] removed and the other bytes, commas among
    them, as they are; [1.234,56] gives [1234,56]; when the pattern does
    not match the amount is empty. *)
Theorem amount_is_first_group_without_dots (reValor : Regexp) :
  parseInvoice text regexCfg = Returned invoice ->
  Compile (cfgValor regexCfg) = Some reValor ->
  (forall whole group1 others,
      FindStringSubmatch reValor text = whole :: group1 :: others ->
      Valor invoice = withoutDots group1)
  /\ (FindStringSubmatch reValor text = [] -> Valor invoice = "")
  /\ withoutDots "1.234,56" = "1234,56".
Proof.
  intros Hret Hre.
  destruct (parseInvoice_returned _ _ _ Hret)
    as (r1 & r2 & r3 & r4 & r5 & r6 & E1 & E2 & E3 & E4 & E5 & E6
        & F1 & F2 & F3 & F4 & F5).
  assert (r5 = reValor) by congruence. subst r5.
  repeat split.
  - intros whole group1 others Hm. rewrite F4, Hm. simpl.
    apply ReplaceAllDots_withoutDots.
  - intros Hm. now rewrite F4, Hm.
Qed.

(** C7, amended: when the [dataInicio] pattern matches and has three
    capture groups or more, so that the match carries that many, the start
    date is group 3, group 2 and group 1 joined by ['-'] (the groups 26,
    10 and 2023 give [2023-10-26]); a group of the pattern that took no
    part in the match is the empty string there, so the start date of a
    match whose third group is absent is ['-'], group 2, ['-'], group 1, and
    not empty.  When the pattern does not match, or has fewer than three
    capture groups, the start date is empty. *)
Theorem start_date_is_reordered_groups (reDataInicio : Regexp) :
  parseInvoice text regexCfg = Returned invoice ->
  Compile (cfgDataInicio regexCfg) = Some reDataInicio ->
  (forall whole group1 group2 group3 others,
      FindStringSubmatch reDataInicio text
      = whole :: group1 :: group2 :: group3 :: others ->
      DataInicio invoice = (group3 ++ "-" ++ group2 ++ "-" ++ group1)%string)
  /\ (forall whole,
         FindStringSubmatch reDataInicio text = [whole; "26"; "10"; "2023"] ->
         DataInicio invoice = "2023-10-26")
  /\ (forall whole group1 group2,
         FindStringSubmatch reDataInicio text = [whole; group1; group2; ""] ->
         DataInicio invoice = ("-" ++ group2 ++ "-" ++ group1)%string)
  /\ (List.length (FindStringSubmatch reDataInicio text) <= 3 ->
      DataInicio invoice = "").
Proof.
  intros Hret Hre.
  destruct (parseInvoice_returned _ _ _ Hret)
    as (r1 & r2 & r3 & r4 & r5 & r6 & E1 & E2 & E3 & E4 & E5 & E6
        & F1 & F2 & F3 & F4 & F5).
  assert (r4 = reDataInicio) by congruence. subst r4.
  repeat split.
  - intros whole group1 group2 group3 others Hm. now rewrite F3, Hm.
  - intros whole Hm. now rewrite F3, Hm.
  - intros whole group1 group2 Hm. now rewrite F3, Hm.
  - intros Hlen. rewrite F3. cbv zeta.
    destruct (Nat.ltb_spec 3
                (List.length (FindStringSubmatch reDataInicio text)));
      [lia | reflexivity].
Qed.


(** C10: with patterns that compile [parseInvoice] returns a record, and
    every field of it is taken from the first occurrence of its pattern:
    when a pattern matches at an offset and at no offset before it, the
    field holds the groups of the match at that offset.  Nothing is asked
    of the offsets after it: whatever the pattern matches there plays no
    part in the record. *)
Theorem fields_come_from_first_occurrence :
  rulesCompile regexCfg = true ->
  exists record,
    parseInvoice text regexCfg = Returned record
    /\ (forall re i m,
           Compile (cfgFatura regexCfg) = Some re ->
           firstOccurrence re text i m ->
           Fatura record = orEmpty (firstGroup m))
    /\ (forall re i m,
           Compile (cfgDataInicio regexCfg) = Some re ->
           firstOccurrence re text i m ->
           DataInicio record = reorderedDate m)
    /\ (forall re i m,
           Compile (cfgValor regexCfg) = Some re ->
           firstOccurrence re text i m ->
           Valor record = orEmpty (option_map withoutDots (firstGroup m)))
    /\ (forall re i m,
           Compile (cfgPrazoMeses regexCfg) = Some re ->
           firstOccurrence re text i m ->
           PrazoMeses record = orEmpty (firstGroup m))
    /\ (forall reCliente reMatricula,
           Compile (cfgClienteMatricula regexCfg) = Some reCliente ->
           Compile matriculaPattern = Some reMatricula ->
           (forall i m,
               firstOccurrence reCliente text i m ->
               ClienteMatricula record
               = composeClientRef (firstGroup m)
                   (firstGroup (FindStringSubmatch reMatricula text)))
           /\ (forall i m,
                  firstOccurrence reMatricula text i m ->
                  ClienteMatricula record
                  = composeClientRef
                      (firstGroup (FindStringSubmatch reCliente text))
                      (firstGroup m))).
Proof.
  intros Hrules.
  destruct (proj2 (parseInvoice_returns_iff text regexCfg) Hrules)
    as [record Hret].
  exists record. split; [exact Hret|].
  destruct (parseInvoice_returned _ _ _ Hret)
    as (r1 & r2 & r3 & r4 & r5 & r6 & E1 & E2 & E3 & E4 & E5 & E6
        & F1 & F2 & F3 & F4 & F5).
  split; [|split; [|split; [|split]]].
  - intros re i m Hre Hfirst. assert (r1 = re) by congruence. subst r1.
    rewrite F1, (FindStringSubmatch_first re text i m Hfirst).
    apply firstGroup_spec.
  - intros re i m Hre Hfirst. assert (r4 = re) by congruence. subst r4.
    rewrite F3, (FindStringSubmatch_first re text i m Hfirst).
    destruct m as [|w [|g1 [|g2 [|g3 others]]]]; reflexivity.
  - intros re i m Hre Hfirst. assert (r5 = re) by congruence. subst r5.
    rewrite F4, (FindStringSubmatch_first re text i m Hfirst).
    destruct m as [|w [|g1 others]]; try reflexivity.
    simpl. apply ReplaceAllDots_withoutDots.
  - intros re i m Hre Hfirst. assert (r6 = re) by congruence. subst r6.
    rewrite F5, (FindStringSubmatch_first re text i m Hfirst).
    apply firstGroup_spec.
  - intros reCliente reMatricula HreC HreM.
    pose proof (clientRef_composed text regexCfg record reCliente
                  reMatricula Hret HreC HreM) as Hc.
    split; intros i m Hfirst; rewrite Hc;
      now rewrite (FindStringSubmatch_first _ text i m Hfirst).
Qed.

End ExtractorClaims.

Lemma amount_is_first_group_without_dots_witness :
  @parseInvoice miniRegexp exampleText exampleRules = Returned exampleInvoice
  /\ Valor exampleInvoice = "1234,56".
Proof.
  split; [vm_compute; reflexivity|].
  apply (proj1 (@amount_is_first_group_without_dots miniRegexp exampleText
                  exampleRules exampleInvoice (compiled "Total\s*([\d,.]+)")
                  ltac:(vm_compute; reflexivity)
                  ltac:(vm_compute; reflexivity))
           "Total 1.234,56" "1.234,56" []).
  vm_compute; reflexivity.
Defined.

Lemma start_date_is_reordered_groups_witness :
  @parseInvoice miniRegexp exampleText exampleRules = Returned exampleInvoice
  /\ DataInicio exampleInvoice = "2023-10-26".
Proof.
  split; [vm_compute; reflexivity|].
  apply (proj1 (@start_date_is_reordered_groups miniRegexp exampleText
                  exampleRules exampleInvoice
                  (compiled "Data\s*(\d{2})/(\d{2})/(\d{4})")
                  ltac:(vm_compute; reflexivity)
                  ltac:(vm_compute; reflexivity))
           "Data 26/10/2023" "26" "10" "2023" []).
  vm_compute; reflexivity.
Defined.


(** The example text holds [Total 1.234,56] at offset 57 and [Total 9,99]
    at offset 130: the amount of the record is the first one. *)
Lemma fields_come_from_first_occurrence_witness :
  @firstOccurrence miniRegexp (compiled "Total\s*([\d,.]+)") exampleText 57
    ["Total 1.234,56"; "1.234,56"]
  /\ @matchAt miniRegexp (compiled "Total\s*([\d,.]+)") exampleText 130
     = Some ["Total 9,99"; "9,99"]
  /\ @parseInvoice miniRegexp exampleText exampleRules
     = Returned exampleInvoice
  /\ Valor exampleInvoice = "1234,56".
Proof.
  assert (Hfirst : @firstOccurrence miniRegexp (compiled "Total\s*([\d,.]+)")
                     exampleText 57 ["Total 1.234,56"; "1.234,56"]).
  { split; [vm_compute; lia|]. split; [vm_compute; reflexivity|].
    intros j Hj.
    do 57 (destruct j as [|j]; [vm_compute; reflexivity|]). lia. }
  assert (Hexample : @parseInvoice miniRegexp exampleText exampleRules
                     = Returned exampleInvoice) by (vm_compute; reflexivity).
  split; [exact Hfirst|]. split; [vm_compute; reflexivity|].
  split; [exact Hexample|].
  destruct (@fields_come_from_first_occurrence miniRegexp exampleText
              exampleRules ltac:(vm_compute; reflexivity))
    as (record & Hret & _ & _ & Hvalor & _).
  rewrite Hexample in Hret. injection Hret as <-.
  exact (Hvalor (compiled "Total\s*([\d,.]+)") 57
           ["Total 1.234,56"; "1.234,56"]
           ltac:(vm_compute; reflexivity) Hfirst).
Defined.

(** C7, as stated, fails: the pattern [(\d{2})/(\d{2})(?:/(\d{4}))?] has
    three capture groups and matches [26/10] with the third group taking
    no part; two groups are captured, and the start date is [-10-26], not
    the empty string. *)
Lemma start_date_of_an_absent_group_is_not_empty :
  let pattern := "(\d{2})/(\d{2})(?:/(\d{4}))?" in
  let rules := mkRegexConfig "" "" pattern "" "" in
  @FindStringSubmatch miniRegexp (compiled pattern) "Data 26/10 fim"
  = ["26/10"; "26"; "10"; ""]
  /\ @parseInvoice miniRegexp "Data 26/10 fim" rules
     = Returned (mkInvoice "" "" "-10-26" "" "")
  /\ "-10-26" <> "".
Proof.
  intros pattern rules.
  split; [vm_compute; reflexivity|]. split; [vm_compute; reflexivity|].
  discriminate.
Defined.

(** ** The rule set *)

(** C9, as stated, fails for the [clienteMatricula] pattern: with the key
    omitted (here all keys: the template is the empty object) the client
    reference of a text that holds a registration code is that code, not
    the empty string.  And a file that parses as JSON but is not an object
    (here an empty array) does not load. *)
Lemma omitted_client_pattern_leaves_registration_code :
  @loadRegexConfig emptyTemplateHost "template.json" = (zeroRegexConfig, None)
  /\ @parseInvoice miniRegexp "matricula AB-12-CD" zeroRegexConfig
     = Returned (mkInvoice "" "AB-12-CD" "" "" "")
  /\ @loadRegexConfig (exampleHost "[]" (Some (JArray [])) exampleDocuments)
       "template.json"
     = (zeroRegexConfig, Some Unmarshalling).
Proof. repeat split; vm_compute; reflexivity. Qed.

Section ConfigClaims.

Context {RE : RegexpPkg} {H : Host}.

(** C9, amended: a rule-set file that holds a JSON object whose pattern
    members are strings loads without an error, and every pattern key it
    omits is left as the empty pattern.  The empty pattern compiles and
    matches every text with no capture group, so [parseInvoice] does not
    panic on account of it and the invoice id, the start date, the amount
    and the term of an omitted pattern are empty; with the
    [clienteMatricula] key omitted the client reference is the
    registration code when the constant registration pattern matches, and
    empty otherwise. *)
Theorem omitted_patterns_load_as_empty_patterns :
  (forall filePath data members,
      ReadFile filePath = Some data ->
      jsonDocument data = Some (JObject members) ->
      forallb tolerated members = true ->
      exists regexCfg,
        loadRegexConfig filePath = (regexCfg, None)
        /\ (omits "fatura" members = true -> cfgFatura regexCfg = "")
        /\ (omits "cliente_matricula" members = true ->
            cfgClienteMatricula regexCfg = "")
        /\ (omits "data_inicio" members = true -> cfgDataInicio regexCfg = "")
        /\ (omits "valor" members = true -> cfgValor regexCfg = "")
        /\ (omits "prazo_meses" members = true -> cfgPrazoMeses regexCfg = ""))
  /\ (forall reEmpty reMatricula,
         Compile "" = Some reEmpty ->
         (forall text, matchAt reEmpty text 0 = Some [""]) ->
         Compile matriculaPattern = Some reMatricula ->
         (forall text, exists invoice,
             parseInvoice text zeroRegexConfig = Returned invoice)
         /\ (forall text regexCfg invoice,
                parseInvoice text regexCfg = Returned invoice ->
                (cfgFatura regexCfg = "" -> Fatura invoice = "")
                /\ (cfgDataInicio regexCfg = "" -> DataInicio invoice = "")
                /\ (cfgValor regexCfg = "" -> Valor invoice = "")
                /\ (cfgPrazoMeses regexCfg = "" -> PrazoMeses invoice = "")
                /\ (cfgClienteMatricula regexCfg = "" ->
                    ClienteMatricula invoice
                    = orEmpty (firstGroup
                                 (FindStringSubmatch reMatricula text))))).
Proof.
  split; [exact loadRegexConfig_object|].
  intros reEmpty reMatricula Hempty Hmatch HreM.
  assert (Hfind : forall text, FindStringSubmatch reEmpty text = [""]).
  { intros text. unfold FindStringSubmatch.
    destruct (String.length text); simpl; now rewrite Hmatch. }
  split.
  - intros text. apply parseInvoice_returns_iff.
    unfold rulesCompile, compiles. simpl. now rewrite Hempty, HreM.
  - intros text regexCfg invoice Hret.
    destruct (parseInvoice_returned _ _ _ Hret)
      as (r1 & r2 & r3 & r4 & r5 & r6 & E1 & E2 & E3 & E4 & E5 & E6
          & F1 & F2 & F3 & F4 & F5).
    repeat split; intros Hkey; rewrite Hkey in *.
    + assert (r1 = reEmpty) by congruence. subst r1.
      now rewrite F1, Hfind.
    + assert (r4 = reEmpty) by congruence. subst r4.
      now rewrite F3, Hfind.
    + assert (r5 = reEmpty) by congruence. subst r5.
      now rewrite F4, Hfind.
    + assert (r6 = reEmpty) by congruence. subst r6.
      now rewrite F5, Hfind.
    + assert (HreC : Compile (cfgClienteMatricula regexCfg) = Some reEmpty)
        by (rewrite Hkey; exact Hempty).
      rewrite (clientRef_composed text regexCfg invoice reEmpty reMatricula
                 Hret HreC HreM).
      rewrite Hfind. simpl.
      now destruct (firstGroup (FindStringSubmatch reMatricula text)).
Qed.


End ConfigClaims.


Lemma omitted_patterns_load_as_empty_patterns_witness :
  exists regexCfg,
    @loadRegexConfig emptyTemplateHost "template.json" = (regexCfg, None)
    /\ (omits "fatura" [] = true -> cfgFatura regexCfg = "")
    /\ (omits "cliente_matricula" [] = true ->
        cfgClienteMatricula regexCfg = "")
    /\ (omits "data_inicio" [] = true -> cfgDataInicio regexCfg = "")
    /\ (omits "valor" [] = true -> cfgValor regexCfg = "")
    /\ (omits "prazo_meses" [] = true -> cfgPrazoMeses regexCfg = "").
Proof.
  apply (proj1 (@omitted_patterns_load_as_empty_patterns miniRegexp
                  emptyTemplateHost) "template.json" "{}" []);
    reflexivity.
Defined.


(* ================================================================== *)
(** * Part IV.  Further properties of the code                         *)
(* ================================================================== *)

(** ** The comparator and the sorted output *)

(** X1: the closure given to [sort.Slice] is a strict comparison of the
    invoice ids: no record is before itself, no two records are each
    before the other, and the fields other than the invoice id play no
    part. *)
Theorem less_is_strict_on_invoice_ids :
  (forall a, less a a = false)
  /\ (forall a b, less a b = true -> less b a = false)
  /\ (forall a a' b b',
         Fatura a = Fatura a' -> Fatura b = Fatura b' ->
         less a b = less a' b').
Proof.
  split; [exact less_irrefl|]. split; [exact less_asym|].
  intros a a' b b' Ha Hb. rewrite !less_twoTierLess. unfold twoTierLess.
  rewrite Ha, Hb. reflexivity.
Qed.

(** X2: when every invoice id carries an integer second segment, the
    sorted slice holds the collected records by ascending integer,
    whatever sort meets the contract of [sort.Slice] and whatever order
    the workers delivered the records in. *)
Theorem numbered_ids_sort_by_number (S : SortPkg) (l : list Invoice) :
  forallb numbered l = true ->
  Permutation l (collate l)
  /\ StronglySorted Z.le (map suffixOf (collate l)).
Proof.
  intros Hall. split; [apply Slice_permutation|].
  apply StronglySorted_map.
  pose proof (Slice_sorted Invoice less l (transitiveOrdering_numbered l Hall))
    as Hsorted.
  apply isSorted_StronglySorted in Hsorted.
  revert Hsorted. apply StronglySorted_weaken.
  assert (Hin : forall x, In x (collate l) -> numbered x = true).
  { intros x Hx. rewrite forallb_forall in Hall. apply Hall.
    apply (Permutation_in x (Permutation_sym (Slice_permutation _ less l))).
    exact Hx. }
  intros x y Hx Hy.
  rewrite (less_numbered y x _ _ (numbered_suffixOf _ (Hin _ Hy))
             (numbered_suffixOf _ (Hin _ Hx))).
  rewrite Z.ltb_ge. trivial.
Qed.

(** X3: when no invoice id carries an integer second segment, the sorted
    slice holds the collected records by ascending invoice id in the
    byte-wise order of Go strings. *)
Theorem unnumbered_ids_sort_by_bytes (S : SortPkg) (l : list Invoice) :
  forallb (fun r => negb (numbered r)) l = true ->
  Permutation l (collate l)
  /\ StronglySorted (fun a b => (a <=? b)%string = true)
       (map Fatura (collate l)).
Proof.
  intros Hall. split; [apply Slice_permutation|].
  apply (StronglySorted_map (fun a b => (a <=? b)%string = true) Fatura).
  pose proof (Slice_sorted Invoice less l
                (transitiveOrdering_unnumbered l Hall)) as Hsorted.
  apply isSorted_StronglySorted in Hsorted.
  revert Hsorted. apply StronglySorted_weaken.
  assert (Hin : forall x, In x (collate l) -> numericSuffix (Fatura x) = None).
  { intros x Hx. apply numbered_false, negb_true_iff.
    rewrite forallb_forall in Hall. apply Hall.
    apply (Permutation_in x (Permutation_sym (Slice_permutation _ less l))).
    exact Hx. }
  intros x y Hx Hy.
  rewrite (less_unnumbered y x (or_introl (Hin _ Hy))).
  rewrite string_leb_ltb. intros ->. reflexivity.
Qed.

(** X4: for invoice ids of the shape [prefix/segment] or
    [prefix/segment/more], with a segment that parses as an integer once
    the white space around it is set aside, the comparator compares the
    two integers and nothing else: the prefix (the series and the year of
    [FT 2024/7]) and whatever follows a second ['/'] play no part. *)
Theorem order_is_decided_by_the_second_segment
        (a b : Invoice) (p1 s1 t1 p2 s2 t2 : string) (n1 n2 : Z) :
  noSlash p1 = true -> noSlash s1 = true -> segmentEnds t1 = true ->
  noSlash p2 = true -> noSlash s2 = true -> segmentEnds t2 = true ->
  GoStrings.Atoi (GoStrings.TrimSpace s1) = Some n1 ->
  GoStrings.Atoi (GoStrings.TrimSpace s2) = Some n2 ->
  Fatura a = (p1 ++ "/" ++ s1 ++ t1)%string ->
  Fatura b = (p2 ++ "/" ++ s2 ++ t2)%string ->
  less a b = (n1 <? n2)%Z.
Proof.
  intros Hp1 Hs1 Ht1 Hp2 Hs2 Ht2 Hn1 Hn2 Ha Hb.
  assert (Hseg : forall p s t,
             noSlash p = true -> noSlash s = true -> segmentEnds t = true ->
             secondSegment (p ++ "/" ++ s ++ t) = Some s).
  { intros p s t Hp Hs Ht. destruct t as [|c t].
    - assert (Hnil : forall x : string, (x ++ "")%string = x).
      { induction x as [|d x IH]; simpl; [|rewrite IH]; reflexivity. }
      rewrite Hnil. apply (secondSegment_prefix p s Hp Hs).
    - simpl in Ht. apply Ascii.eqb_eq in Ht. subst c.
      apply (proj2 (secondSegment_prefix p s Hp Hs) t). }
  apply less_numbered; unfold numericSuffix.
  - rewrite Ha, (Hseg _ _ _ Hp1 Hs1 Ht1). exact Hn1.
  - rewrite Hb, (Hseg _ _ _ Hp2 Hs2 Ht2). exact Hn2.
Qed.

Lemma numbered_ids_sort_by_number_witness :
  let r1 := mkInvoice "FT 2023/1001" "Ana" "" "" "" in
  let r2 := mkInvoice "FT 2023/12345" "Rui" "" "" "" in
  let r3 := mkInvoice "FT 2024/7" "Eva" "" "" "" in
  Permutation [r2; r1; r3] (@collate insertionSortPkg [r2; r1; r3])
  /\ StronglySorted Z.le
       (map suffixOf (@collate insertionSortPkg [r2; r1; r3])).
Proof.
  intros r1 r2 r3.
  apply (numbered_ids_sort_by_number insertionSortPkg [r2; r1; r3]).
  vm_compute. reflexivity.
Defined.

Lemma unnumbered_ids_sort_by_bytes_witness :
  let r1 := mkInvoice "X" "Ana" "" "" "" in
  let r2 := mkInvoice "Y/abc" "Rui" "" "" "" in
  let r3 := mkInvoice "" "Eva" "" "" "" in
  Permutation [r2; r1; r3] (@collate insertionSortPkg [r2; r1; r3])
  /\ StronglySorted (fun a b => (a <=? b)%string = true)
       (map Fatura (@collate insertionSortPkg [r2; r1; r3])).
Proof.
  intros r1 r2 r3.
  apply (unnumbered_ids_sort_by_bytes insertionSortPkg [r2; r1; r3]).
  vm_compute. reflexivity.
Defined.

Lemma order_is_decided_by_the_second_segment_witness :
  less (mkInvoice "FT 2024/7" "Eva" "" "" "")
       (mkInvoice "FT 2023/ 1001 /B" "Ana" "" "" "")
  = (7 <? 1001)%Z.
Proof.
  apply (order_is_decided_by_the_second_segment _ _
           "FT 2024" "7" "" "FT 2023" " 1001 " "/B");
    vm_compute; reflexivity.
Defined.

(** ** The field extractor *)

Section ExtractorMore.

Context {RE : RegexpPkg}.

(** X5: whether [parseInvoice] panics is a matter of the rule set alone:
    it panics on a text exactly when one of the five patterns or the
    constant registration pattern does not compile, so a rule set on which
    it panics for one text panics for every text, and a rule set whose
    patterns compile gives a record for every text. *)
Theorem parseInvoice_panics_by_the_rules_alone (regexCfg : RegexConfig) :
  (forall text,
      parseInvoice text regexCfg = Panicked <-> rulesCompile regexCfg = false)
  /\ (forall text text',
         parseInvoice text regexCfg = Panicked ->
         parseInvoice text' regexCfg = Panicked)
  /\ (rulesCompile regexCfg = true ->
      forall text, exists invoice,
        parseInvoice text regexCfg = Returned invoice).
Proof.
  assert (Hiff : forall text,
             parseInvoice text regexCfg = Panicked
             <-> rulesCompile regexCfg = false).
  { intros text. split; [|apply parseInvoice_panics].
    intros Hp. destruct (rulesCompile regexCfg) eqn:E; [|reflexivity].
    apply (parseInvoice_returns_iff text) in E.
    destruct E as [invoice E]. congruence. }
  split; [exact Hiff|]. split.
  - intros text text' Hp. apply Hiff. apply (Hiff text). exact Hp.
  - intros Hc text. apply parseInvoice_returns_iff. exact Hc.
Qed.

(** X6: the fields are extracted independently: the invoice id, the start
    date, the amount and the term of a text are each a function of the
    text and of the field's own pattern, and the client reference of the
    text and the [cliente_matricula] pattern; two rule sets that agree on
    a pattern give the same field, whatever their other patterns are. *)
Theorem fields_depend_on_their_own_pattern
        (text : string) (cfg1 cfg2 : RegexConfig) (i1 i2 : Invoice) :
  parseInvoice text cfg1 = Returned i1 ->
  parseInvoice text cfg2 = Returned i2 ->
  (cfgFatura cfg1 = cfgFatura cfg2 -> Fatura i1 = Fatura i2)
  /\ (cfgClienteMatricula cfg1 = cfgClienteMatricula cfg2 ->
      ClienteMatricula i1 = ClienteMatricula i2)
  /\ (cfgDataInicio cfg1 = cfgDataInicio cfg2 -> DataInicio i1 = DataInicio i2)
  /\ (cfgValor cfg1 = cfgValor cfg2 -> Valor i1 = Valor i2)
  /\ (cfgPrazoMeses cfg1 = cfgPrazoMeses cfg2 -> PrazoMeses i1 = PrazoMeses i2).
Proof.
  intros H1 H2.
  destruct (parseInvoice_returned _ _ _ H1)
    as (a1 & a2 & a3 & a4 & a5 & a6 & A1 & A2 & A3 & A4 & A5 & A6
        & F1 & F2 & F3 & F4 & F5).
  destruct (parseInvoice_returned _ _ _ H2)
    as (b1 & b2 & b3 & b4 & b5 & b6 & B1 & B2 & B3 & B4 & B5 & B6
        & G1 & G2 & G3 & G4 & G5).
  assert (a3 = b3) by congruence. subst b3.
  repeat split; intros E.
  - rewrite E in A1. assert (a1 = b1) by congruence. subst. congruence.
  - rewrite E in A2. assert (a2 = b2) by congruence. subst. congruence.
  - rewrite E in A4. assert (a4 = b4) by congruence. subst. congruence.
  - rewrite E in A5. assert (a5 = b5) by congruence. subst. congruence.
  - rewrite E in A6. assert (a6 = b6) by congruence. subst. congruence.
Qed.

(** X7: no amount that [parseInvoice] returns holds a ['.'], whatever the
    [valor] pattern captures. *)
Theorem amount_holds_no_dot
        (text : string) (regexCfg : RegexConfig) (invoice : Invoice) :
  parseInvoice text regexCfg = Returned invoice ->
  existsb (Ascii.eqb "."%char) (list_ascii_of_string (Valor invoice)) = false.
Proof.
  intros Hr.
  destruct (parseInvoice_returned _ _ _ Hr)
    as (a1 & a2 & a3 & a4 & a5 & a6 & _ & _ & _ & _ & _ & _
        & _ & _ & _ & F4 & _).
  rewrite F4. cbv zeta.
  destruct (1 <? List.length (FindStringSubmatch a5 text)).
  - apply ReplaceAllDots_no_dot.
  - reflexivity.
Qed.

End ExtractorMore.

Lemma fields_depend_on_their_own_pattern_witness :
  let other := mkRegexConfig "Fatura\s*(FT\s+\d{4}/\d+)" "" "" "" "" in
  exists invoice,
    @parseInvoice miniRegexp exampleText other = Returned invoice
    /\ Fatura exampleInvoice = Fatura invoice.
Proof.
  intros other.
  exists (mkInvoice "FT 2023/12345" "AB-12-CD" "" "" "").
  split; [vm_compute; reflexivity|].
  apply (proj1 (@fields_depend_on_their_own_pattern miniRegexp exampleText
                  exampleRules other exampleInvoice
                  (mkInvoice "FT 2023/12345" "AB-12-CD" "" "" "")
                  ltac:(vm_compute; reflexivity)
                  ltac:(vm_compute; reflexivity))).
  reflexivity.
Defined.

Lemma amount_holds_no_dot_witness :
  @parseInvoice miniRegexp exampleText exampleRules = Returned exampleInvoice
  /\ existsb (Ascii.eqb "."%char) (list_ascii_of_string (Valor exampleInvoice))
     = false.
Proof.
  split; [vm_compute; reflexivity|].
  apply (@amount_holds_no_dot miniRegexp exampleText exampleRules
           exampleInvoice).
  vm_compute; reflexivity.
Defined.

(** ** The rule-set loader *)

Section LoaderFurther.

Context {H : Host}.

(** X8: [loadRegexConfig] returns without an error exactly when the file
    can be read, its bytes are a JSON document, and the document is [null]
    or an object in which every member under a pattern key is a string or
    [null]; it reports the reading error exactly when the file cannot be
    read, and then returns the zero rule set.  No pattern is looked at. *)
Theorem loadRegexConfig_succeeds_iff (filePath : string) :
  (snd (loadRegexConfig filePath) = None
   <-> exists data doc,
         ReadFile filePath = Some data
         /\ jsonDocument data = Some doc
         /\ acceptable doc = true)
  /\ (snd (loadRegexConfig filePath) = Some ReadingFile
      <-> ReadFile filePath = None)
  /\ (ReadFile filePath = None ->
      loadRegexConfig filePath = (zeroRegexConfig, Some ReadingFile)).
Proof.
  split; [apply loadRegexConfig_succeeds|].
  unfold loadRegexConfig, Unmarshal. split; [split|].
  - destruct (ReadFile filePath) as [data|]; [|reflexivity].
    destruct (jsonDocument data) as [doc|]; [|discriminate].
    destruct (Json.decode doc zeroRegexConfig) as [c ok].
    destruct ok; discriminate.
  - intros ->. reflexivity.
  - intros ->. reflexivity.
Qed.

End LoaderFurther.

Section LoaderFields.

Context {H : Host}.

(** X9: member by member, the pattern a field ends up with is that of the
    last member of the document that sets it, a member whose key folds to
    the field's name ([VALOR] or [Valor] for [valor]) and whose value is a
    string.  The members after it that do not set the field leave it as it
    is: members for the other fields, members under unknown keys, and
    members for the field itself whose value is [null] or of another type
    (the latter make the load fail, the pattern staying).  A field no
    member sets holds the empty pattern. *)
Theorem pattern_is_set_by_the_last_string_member :
  (forall name members c,
      In name patternKeys ->
      patternOf name (fst (Json.object members c))
      = patternAfter name members (patternOf name c))
  /\ (forall name before key pattern after c,
         In name patternKeys ->
         folds key name = true ->
         forallb (fun kv => negb (sets name kv)) after = true ->
         patternOf name
           (fst (Json.object (before ++ (key, JString pattern) :: after) c))
         = pattern)
  /\ (forall name members c,
         In name patternKeys ->
         forallb (fun kv => negb (sets name kv)) members = true ->
         patternOf name (fst (Json.object members c)) = patternOf name c)
  /\ (forall filePath data members name,
         ReadFile filePath = Some data ->
         jsonDocument data = Some (JObject members) ->
         In name patternKeys ->
         patternOf name (fst (loadRegexConfig filePath))
         = patternAfter name members "").
Proof.
  split; [|split; [|split]].
  - intros name members c Hname. apply object_pattern. exact Hname.
  - intros name before key pattern after c Hname Hkey Hafter.
    rewrite (object_pattern name _ Hname), patternAfter_app.
    cbn [patternAfter sets fst snd]. rewrite Hkey.
    apply patternAfter_others. exact Hafter.
  - intros name members c Hname Hnone.
    rewrite (object_pattern name _ Hname).
    apply patternAfter_others. exact Hnone.
  - intros filePath data members name Hread Hdoc Hname.
    unfold loadRegexConfig, Unmarshal. rewrite Hread, Hdoc.
    cbn [Json.decode].
    pose proof (object_pattern name members Hname zeroRegexConfig) as Hp.
    destruct (Json.object members zeroRegexConfig) as [c ok]. cbn [fst] in *.
    rewrite Hp. simpl in Hname.
    destruct Hname as [<- | [<- | [<- | [<- | [<- | []]]]]]; reflexivity.
Qed.

End LoaderFields.

(** A document with five members: [valor] is set twice, by [valor] and by
    [VALOR]; the [null] and the number that follow under its name and the
    member for [fatura] leave it. *)
Lemma pattern_is_set_by_the_last_string_member_witness :
  let members :=
    [("valor", JString "Total\s*([\d,.]+)");
     ("VALOR", JString "Valor\s*(\d+)");
     ("valor", JNull);
     ("Valor", JNumber "1");
     ("fatura", JString "Fatura\s*(\S+)")] in
  Json.object members zeroRegexConfig
  = (mkRegexConfig "Fatura\s*(\S+)" "" "" "Valor\s*(\d+)" "", false)
  /\ cfgValor (fst (Json.object members zeroRegexConfig)) = "Valor\s*(\d+)".
Proof.
  intros members. split; [vm_compute; reflexivity|].
  apply (proj1 (proj2 (@pattern_is_set_by_the_last_string_member
                         emptyTemplateHost))
           "valor" [("valor", JString "Total\s*([\d,.]+)")] "VALOR"
           "Valor\s*(\d+)"
           [("valor", JNull); ("Valor", JNumber "1");
            ("fatura", JString "Fatura\s*(\S+)")] zeroRegexConfig).
  - vm_compute. tauto.
  - vm_compute. reflexivity.
  - vm_compute. reflexivity.
Defined.

(** ** The worker pool *)

Section PoolMore.

Context {RE : RegexpPkg} {H : Host}.

Variable regexCfg : RegexConfig.
Variable files : list string.
Variable NumWorkers : Z.

(** X10: with [-workers] zero or negative no worker is started and no
    document is read: in every run nothing is sent on the results channel
    and both counters stay at zero, no run panics, and [main] alone runs
    through to the barrier, every handle left on the job channel; the
    records collected are none, however many documents were found. *)
Theorem no_workers_no_records :
  (NumWorkers <= 0)%Z ->
  (forall schedule o,
      exec regexCfg files NumWorkers schedule start = Some o ->
      exists s,
        o = Returned s
        /\ workers s = [] /\ results s = [] /\ collected s = []
        /\ totalProcessed s = 0%Z /\ totalErrors s = 0%Z)
  /\ (exists s,
         exec regexCfg files NumWorkers
           (repeat 0 (List.length files + 4)) start
         = Some (Returned s)
         /\ joined s = true /\ jobs s = files).
Proof.
  intros HW. split.
  - intros schedule o Hrun.
    destruct (idle_exec regexCfg files NumWorkers schedule HW start o
                idle_start Hrun) as (s & -> & Hws & Hrs & Htp & Hte & Hm).
    exists s. repeat split; auto.
    unfold collected. destruct (mainPc s); auto.
  - eexists. split; [apply idle_run; exact HW|]. split; reflexivity.
Qed.

(** X11: no send of the program blocks, in any run: the two channels are
    made with room for [len(files)] values and never hold more, so [main]
    can always send the next handle and a worker that holds a record can
    always send it. *)
Theorem sends_never_block :
  (Z.of_nat (List.length files) < 2 ^ 63)%Z ->
  forall schedule s,
    exec regexCfg files NumWorkers schedule start = Some (Returned s) ->
    List.length (jobs s) <= List.length files
    /\ List.length (results s) <= List.length files
    /\ (forall file rest,
           mainPc s = Feeding (file :: rest) ->
           exists s', step regexCfg files NumWorkers 0 s = Some (Returned s')
                      /\ jobs s' = jobs s ++ [file])
    /\ (forall k invoice,
           nth_error (workers s) k = Some (AtSend invoice) ->
           exists s', step regexCfg files NumWorkers (S k) s
                      = Some (Returned s')
                      /\ results s' = results s ++ [invoice]).
Proof.
  intros Hfit schedule s Hrun.
  assert (Hi : invariant regexCfg files NumWorkers s)
    by (eapply invariant_exec; eauto using invariant_start).
  destruct (channels_have_room regexCfg files NumWorkers Hfit s Hi)
    as (Hj & Hr & Hfeed & Hsend).
  repeat split; auto.
  - intros file rest Hm. specialize (Hfeed file rest Hm).
    apply Nat.ltb_lt in Hfeed.
    unfold step, stepMain, option_map. rewrite Hm, Hfeed.
    eexists. split; reflexivity.
  - intros k invoice Hk. specialize (Hsend k invoice Hk).
    apply Nat.ltb_lt in Hsend.
    unfold step, stepWorker. rewrite Hk, Hsend.
    eexists. split; reflexivity.
Qed.


(** X13: when a pattern does not compile, at least one worker is started
    and at least one document yields text, a panic is ahead of every run.
    As long as no worker has panicked [main] has not passed [wg.Wait()];
    such a run has fewer steps than the measure of the start, whatever the
    schedule, and it can be continued, in no more steps than the measure
    it is left with, to the call of [parseInvoice] that panics. *)
Theorem uncompiled_rules_lead_to_a_panic :
  rulesCompile regexCfg = false ->
  readable files <> 0 ->
  (1 <= NumWorkers)%Z ->
  (Z.of_nat (List.length files) < 2 ^ 63)%Z ->
  forall schedule s,
    exec regexCfg files NumWorkers schedule start = Some (Returned s) ->
    joined s = false
    /\ List.length schedule < measure files NumWorkers start
    /\ exists more,
         List.length more <= measure files NumWorkers s
         /\ exec regexCfg files NumWorkers more s = Some Panicked.
Proof.
  intros Hrules Hread HW Hfit.
  assert (Hnever : forall s,
             invariant regexCfg files NumWorkers s -> joined s = false).
  { intros s Hi. destruct (joined s) eqn:Hj; [|reflexivity].
    destruct (joined_settled regexCfg files NumWorkers Hfit s HW Hi Hj)
      as (_ & _ & Hr).
    specialize (Hr Panicked).
    rewrite (extracted_panics regexCfg Hrules), occurrences_returned in Hr.
    contradiction. }
  intros schedule s Hrun.
  assert (Hi : invariant regexCfg files NumWorkers s)
    by (eapply invariant_exec; eauto using invariant_start).
  assert (Hahead : exists more,
             List.length more <= measure files NumWorkers s
             /\ exec regexCfg files NumWorkers more s = Some Panicked).
  { destruct (ends_within regexCfg files NumWorkers Hfit s Hi)
      as (more & Hlen & [Hp | (s' & Hrun' & Hj)]).
    - exists more. auto.
    - assert (Hi' : invariant regexCfg files NumWorkers s')
        by (eapply invariant_exec; eauto).
      rewrite (Hnever s' Hi') in Hj. discriminate. }
  split; [apply Hnever, Hi|]. split; [|exact Hahead].
  assert (Hused : measure files NumWorkers s + List.length schedule
                  <= measure files NumWorkers start)
    by (eapply exec_measure; eauto).
  pose proof (Hnever s Hi) as Hj. clear -Hused Hj.
  destruct s as [m ws js cl rs g tp te]. unfold measure, joined in *.
  simpl in *. destruct m; simpl in *; try lia; discriminate.
Qed.

(** X14: with one worker the records reach the sort in the order of the
    handles: at the barrier the slice [invoices] holds, in the order of
    [files], the record of each handle that yields text. *)
Theorem one_worker_collects_in_file_order :
  NumWorkers = 1%Z ->
  (Z.of_nat (List.length files) < 2 ^ 63)%Z ->
  forall schedule s,
    exec regexCfg files NumWorkers schedule start = Some (Returned s) ->
    joined s = true ->
    map Returned (collected s) = extracted regexCfg files.
Proof.
  intros HW Hfit schedule s Hrun Hj.
  assert (Hi : invariant regexCfg files NumWorkers s)
    by (eapply invariant_exec; eauto using invariant_start).
  destruct (inOrder_exec regexCfg files NumWorkers schedule HW start s
              (inOrder_start regexCfg files) Hrun) as (_ & _ & Hr).
  destruct Hi as [_ _ _ _ Hw _ Hx Hs Hjoin].
  unfold joined, collected in *.
  destruct (mainPc s) as [| | | |invoices] eqn:Hm; try discriminate.
  destruct Hjoin as [-> Hg]. rewrite Hg in Hw. symmetry in Hw.
  assert (Hall : forall w, In w (workers s) -> w = Exited)
    by (eapply all_exited; eauto).
  assert (Hjobs : jobs s = []).
  { destruct (workers s) as [|w ws] eqn:Hws; [simpl in Hs; lia|].
    apply Hx. rewrite (Hall w); [now left | now left]. }
  assert (Hheld : held regexCfg (workers s) = []).
  { unfold held. clear -Hall. induction (workers s) as [|w ws IH]; auto.
    simpl. rewrite (Hall w (or_introl eq_refl)). simpl.
    apply IH. intros w' Hw'. apply Hall. now right. }
  rewrite Hr, Hheld, Hjobs. simpl. rewrite app_nil_r. reflexivity.
Qed.

(** X15: the barrier is final: in a run that is past [wg.Wait()] every
    worker has returned and no goroutine of the pool can move any more, so
    the slice [invoices] holds everything that was ever sent on the
    results channel; and with at least one worker the job channel is
    empty, every handle was claimed. *)
Theorem barrier_is_final :
  (Z.of_nat (List.length files) < 2 ^ 63)%Z ->
  forall schedule s,
    exec regexCfg files NumWorkers schedule start = Some (Returned s) ->
    joined s = true ->
    (forall w, In w (workers s) -> w = Exited)
    /\ (forall thread, step regexCfg files NumWorkers thread s = None)
    /\ collected s = results s
    /\ ((1 <= NumWorkers)%Z -> jobs s = []).
Proof.
  intros Hfit schedule s Hrun Hj.
  assert (Hi : invariant regexCfg files NumWorkers s)
    by (eapply invariant_exec; eauto using invariant_start).
  destruct (joined_final regexCfg files NumWorkers s Hi Hj)
    as (Hall & Hstop & Hcol).
  repeat split; auto.
  intros HW. eapply joined_claimed; eauto.
Qed.

(** X16: the pool is bounded: at no point of a run are there more workers
    than [cfg.NumWorkers] (none when the flag is negative), and once
    [main] has left its loop there are exactly that many, to the end of
    the run. *)
Theorem workers_are_bounded :
  forall schedule s,
    exec regexCfg files NumWorkers schedule start = Some (Returned s) ->
    (Z.of_nat (List.length (workers s)) <= Z.max 0 NumWorkers)%Z
    /\ ((forall i, mainPc s <> Spawning i) ->
        Z.of_nat (List.length (workers s)) = Z.max 0 NumWorkers).
Proof.
  intros schedule s Hrun.
  assert (Hst : staffed NumWorkers s)
    by (eapply staffed_exec; [apply staffed_start | exact Hrun]).
  unfold staffed in Hst. destruct (mainPc s) as [i| | | |];
    try (split; [lia | intros _; exact Hst]).
  split; [lia|]. intros Hne. now elim (Hne i).
Qed.

(** X17: the two counters never wrap and never run ahead: in every state
    of a run the processed counter is at most the number of handles that
    yield text and the error counter at most the number of the others, and
    a step of any goroutine leaves each counter as it is or adds one, and
    leaves the results as they are or adds one record at their end. *)
Theorem counters_only_grow :
  (Z.of_nat (List.length files) < 2 ^ 63)%Z ->
  forall schedule s,
    exec regexCfg files NumWorkers schedule start = Some (Returned s) ->
    (0 <= totalProcessed s <= Z.of_nat (readable files))%Z
    /\ (0 <= totalErrors s <= Z.of_nat (unreadable files))%Z
    /\ (forall thread s',
           step regexCfg files NumWorkers thread s = Some (Returned s') ->
           (totalProcessed s <= totalProcessed s' <= totalProcessed s + 1)%Z
           /\ (totalErrors s <= totalErrors s' <= totalErrors s + 1)%Z
           /\ (results s' = results s
               \/ exists invoice, results s' = results s ++ [invoice])).
Proof.
  intros Hfit schedule s Hrun.
  assert (Hi : invariant regexCfg files NumWorkers s)
    by (eapply invariant_exec; eauto using invariant_start).
  destruct (counters_bounded regexCfg files NumWorkers s Hi) as [Hp He].
  split; [exact Hp|]. split; [exact He|].
  intros thread s' Hstep. eapply counters_step; eauto.
Qed.

End PoolMore.

(** ** The program *)

Section ProgramMore.

Context {RE : RegexpPkg} {H : Host} {S : SortPkg}.

(** X18: a run of [main] with at least one worker that gets to the sort
    loaded its rule set without an error and took the pool to the barrier;
    the slice it hands on is what [sort.Slice] makes of the slice collected
    at the barrier, sorted by the comparator whenever the comparator is a
    transitive ordering of its records; it holds exactly the records
    [parseInvoice] returns under that rule set for the documents of
    [pdfs/*.pdf] that yield text, one for each of them; the two numbers of
    the summary are the number of those documents and the number of the
    others, and add up to the number of documents found. *)
Theorem main_sorts_what_the_rules_extract
        (templatePath : string) (numWorkers : Z) (schedule : list nat)
        (invoices : list Invoice) (processed errors : Z) :
  (1 <= numWorkers)%Z ->
  (forall files,
      Glob "pdfs/*.pdf" = Some files ->
      (Z.of_nat (List.length files) < 2 ^ 63)%Z) ->
  main templatePath numWorkers schedule
  = Some (Sorted invoices processed errors) ->
  exists regexCfg files s,
    loadRegexConfig templatePath = (regexCfg, None)
    /\ Glob "pdfs/*.pdf" = Some files
    /\ exec regexCfg files numWorkers schedule start = Some (Returned s)
    /\ joined s = true
    /\ invoices = Slice Invoice less (collected s)
    /\ (transitiveOrdering less invoices = true ->
        isSorted less invoices = true)
    /\ Permutation (map Returned invoices) (extracted regexCfg files)
    /\ List.length invoices = readable files
    /\ processed = Z.of_nat (readable files)
    /\ errors = Z.of_nat (unreadable files)
    /\ (processed + errors = Z.of_nat (List.length files))%Z.
Proof.
  intros HW Hfit Hmain.
  destruct (main_sorted _ _ _ _ _ _ Hmain)
    as (regexCfg & files & s & Hload & Hglob & Hrun & Hj & -> & -> & ->).
  destruct (barrier_accounts regexCfg files numWorkers schedule s HW
              (Hfit files Hglob) Hrun Hj) as (Hperm & Hp & He).
  assert (Hsorted : Permutation (map Returned (collate (collected s)))
                      (extracted regexCfg files)).
  { apply Permutation_trans with (map Returned (collected s)); [|exact Hperm].
    apply Permutation_map, Permutation_sym, Slice_permutation. }
  exists regexCfg, files, s. repeat split; auto.
  - intros Htrans. apply Slice_sorted.
    apply (transitiveOrdering_perm less (collate (collected s)));
      [apply Permutation_sym, Slice_permutation | exact Htrans].
  - apply Permutation_length in Hsorted.
    rewrite length_map, extracted_length in Hsorted. exact Hsorted.
  - pose proof (unreadable_readable files). lia.
Qed.

(** X19: what [main] hands to [WriteInvoicesToCSV] and reports does not
    depend on the number of workers (one or more) nor on the interleaving
    of the goroutines: two runs that get to the sort report the same two
    numbers and sort the same records; and when the comparator is a
    transitive ordering of these records that separates any two of them,
    the two sorted slices are the same, record by record. *)
Theorem output_is_independent_of_schedule_and_workers
        (templatePath : string) (workers1 workers2 : Z)
        (schedule1 schedule2 : list nat)
        (invoices1 invoices2 : list Invoice)
        (processed1 processed2 errors1 errors2 : Z) :
  (1 <= workers1)%Z -> (1 <= workers2)%Z ->
  (forall files,
      Glob "pdfs/*.pdf" = Some files ->
      (Z.of_nat (List.length files) < 2 ^ 63)%Z) ->
  main templatePath workers1 schedule1
  = Some (Sorted invoices1 processed1 errors1) ->
  main templatePath workers2 schedule2
  = Some (Sorted invoices2 processed2 errors2) ->
  processed1 = processed2
  /\ errors1 = errors2
  /\ Permutation invoices1 invoices2
  /\ (transitiveOrdering less invoices1 = true ->
      separated invoices1 = true ->
      invoices1 = invoices2).
Proof.
  intros HW1 HW2 Hfit Hmain1 Hmain2.
  destruct (main_sorted _ _ _ _ _ _ Hmain1)
    as (cfg1 & files1 & s1 & Hload1 & Hglob1 & Hrun1 & Hj1 & -> & -> & ->).
  destruct (main_sorted _ _ _ _ _ _ Hmain2)
    as (cfg2 & files2 & s2 & Hload2 & Hglob2 & Hrun2 & Hj2 & -> & -> & ->).
  assert (cfg2 = cfg1) by congruence. assert (files2 = files1) by congruence.
  subst cfg2 files2.
  destruct (barrier_accounts cfg1 files1 workers1 schedule1 s1 HW1
              (Hfit files1 Hglob1) Hrun1 Hj1) as (Hperm1 & Hp1 & He1).
  destruct (barrier_accounts cfg1 files1 workers2 schedule2 s2 HW2
              (Hfit files1 Hglob1) Hrun2 Hj2) as (Hperm2 & Hp2 & He2).
  assert (Hperm : Permutation (collected s1) (collected s2)).
  { apply Returned_perm.
    apply Permutation_trans with (extracted cfg1 files1); [exact Hperm1|].
    apply Permutation_sym. exact Hperm2. }
  split; [congruence|]. split; [congruence|]. split.
  - apply Permutation_trans with (collected s1);
      [apply Permutation_sym, Slice_permutation|].
    apply Permutation_trans with (collected s2);
      [exact Hperm | apply Slice_permutation].
  - intros Htrans Hsep. symmetry. apply collate_unique.
    + apply (transitiveOrdering_perm less (collate (collected s1)));
        [apply Permutation_sym, Slice_permutation | exact Htrans].
    + apply (separated_perm (collate (collected s1)));
        [apply Permutation_sym, Slice_permutation | exact Hsep].
    + exact Hperm.
Qed.

End ProgramMore.

(** ** The examples of the pool and of the program *)

Lemma no_workers_no_records_witness :
  exists s,
    @exec miniRegexp rulesHost exampleRules exampleFiles 0
      (repeat 0 (List.length exampleFiles + 4)) start
    = Some (Returned s)
    /\ joined s = true /\ jobs s = exampleFiles.
Proof.
  apply (proj2 (@no_workers_no_records miniRegexp rulesHost exampleRules
                  exampleFiles 0 ltac:(lia))).
Defined.

Lemma sends_never_block_witness :
  List.length (jobs exampleFeeding) <= List.length exampleFiles
  /\ exists s',
       @step miniRegexp rulesHost exampleRules exampleFiles 2 0 exampleFeeding
       = Some (Returned s')
       /\ jobs s' = jobs exampleFeeding ++ ["pdfs/a.pdf"].
Proof.
  destruct (@sends_never_block miniRegexp rulesHost exampleRules exampleFiles
              2 ltac:(vm_compute; reflexivity) [0; 0; 0] exampleFeeding
              ltac:(vm_compute; reflexivity))
    as (Hjobs & _ & Hfeed & _).
  split; [exact Hjobs|].
  apply (Hfeed "pdfs/a.pdf" ["pdfs/b.pdf"; "pdfs/c.pdf"]).
  vm_compute; reflexivity.
Defined.


Lemma uncompiled_rules_lead_to_a_panic_witness :
  joined exampleBroken = false
  /\ 5 < measure exampleFiles 2 start
  /\ exists more,
       List.length more <= measure exampleFiles 2 exampleBroken
       /\ @exec miniRegexp rulesHost brokenRules exampleFiles 2 more
            exampleBroken
          = Some Panicked.
Proof.
  apply (@uncompiled_rules_lead_to_a_panic miniRegexp rulesHost brokenRules
           exampleFiles 2
           ltac:(vm_compute; reflexivity)
           ltac:(vm_compute; discriminate)
           ltac:(lia)
           ltac:(vm_compute; reflexivity)
           [0; 0; 0; 0; 1] exampleBroken).
  vm_compute; reflexivity.
Defined.

Lemma one_worker_collects_in_file_order_witness :
  map Returned (collected oneWorkerBarrier)
  = @extracted miniRegexp rulesHost exampleRules exampleFiles
  /\ collected oneWorkerBarrier = [exampleInvoice; zeroInvoice].
Proof.
  split; [|vm_compute; reflexivity].
  apply (@one_worker_collects_in_file_order miniRegexp rulesHost exampleRules
           exampleFiles 1 eq_refl ltac:(vm_compute; reflexivity)
           oneWorkerSchedule oneWorkerBarrier);
    vm_compute; reflexivity.
Defined.

Lemma main_sorts_what_the_rules_extract_witness :
  @main miniRegexp rulesHost insertionSortPkg "template.json" 2
    exampleSchedule
  = Some (Sorted [zeroInvoice; exampleInvoice] 2 1)
  /\ isSorted less [zeroInvoice; exampleInvoice] = true
  /\ Permutation (map Returned [zeroInvoice; exampleInvoice])
       (@extracted miniRegexp rulesHost exampleRules exampleFiles).
Proof.
  assert (Hmain : @main miniRegexp rulesHost insertionSortPkg "template.json"
                    2 exampleSchedule
                  = Some (Sorted [zeroInvoice; exampleInvoice] 2 1))
    by (vm_compute; reflexivity).
  split; [exact Hmain|].
  destruct (@main_sorts_what_the_rules_extract miniRegexp rulesHost
              insertionSortPkg "template.json" 2 exampleSchedule
              [zeroInvoice; exampleInvoice] 2 1 ltac:(lia)
              ltac:(intros files E; injection E as <-; vm_compute;
                    reflexivity)
              Hmain)
    as (regexCfg & files & s & Hload & Hglob & _ & _ & _ & Hsorted & Hperm
        & _).
  split; [apply Hsorted; vm_compute; reflexivity|].
  assert (Hl : @loadRegexConfig rulesHost "template.json"
               = (exampleRules, None)) by (vm_compute; reflexivity).
  rewrite Hl in Hload. injection Hload as <-.
  assert (Hg : @Glob rulesHost "pdfs/*.pdf" = Some exampleFiles)
    by reflexivity.
  rewrite Hg in Hglob. injection Hglob as <-.
  exact Hperm.
Defined.

Lemma output_is_independent_of_schedule_and_workers_witness :
  @main miniRegexp rulesHost insertionSortPkg "template.json" 1
    oneWorkerSchedule
  = Some (Sorted [zeroInvoice; exampleInvoice] 2 1)
  /\ @main miniRegexp rulesHost insertionSortPkg "template.json" 2
       exampleSchedule
     = Some (Sorted [zeroInvoice; exampleInvoice] 2 1)
  /\ Permutation [zeroInvoice; exampleInvoice] [zeroInvoice; exampleInvoice].
Proof.
  split; [vm_compute; reflexivity|]. split; [vm_compute; reflexivity|].
  apply (@output_is_independent_of_schedule_and_workers miniRegexp rulesHost
           insertionSortPkg "template.json" 1 2 oneWorkerSchedule
           exampleSchedule [zeroInvoice; exampleInvoice]
           [zeroInvoice; exampleInvoice] 2 2 1 1
           ltac:(lia) ltac:(lia)
           ltac:(intros files E; injection E as <-; vm_compute; reflexivity)
           ltac:(vm_compute; reflexivity) ltac:(vm_compute; reflexivity)).
Defined.

Lemma barrier_is_final_witness :
  collected oneWorkerBarrier = results oneWorkerBarrier
  /\ jobs oneWorkerBarrier = [].
Proof.
  destruct (@barrier_is_final miniRegexp rulesHost exampleRules exampleFiles 1
              ltac:(vm_compute; reflexivity) oneWorkerSchedule
              oneWorkerBarrier ltac:(vm_compute; reflexivity)
              ltac:(vm_compute; reflexivity))
    as (_ & _ & Hcollected & Hjobs).
  split; [exact Hcollected | apply Hjobs; lia].
Defined.

Lemma workers_are_bounded_witness :
  (Z.of_nat (List.length (workers exampleFeeding)) <= Z.max 0 2)%Z
  /\ Z.of_nat (List.length (workers exampleFeeding)) = Z.max 0 2.
Proof.
  destruct (@workers_are_bounded miniRegexp rulesHost exampleRules
              exampleFiles 2 [0; 0; 0] exampleFeeding
              ltac:(vm_compute; reflexivity))
    as (Hle & Heq).
  split; [exact Hle | apply Heq; intros i; vm_compute; discriminate].
Defined.

Lemma counters_only_grow_witness :
  (0 <= totalProcessed oneWorkerBarrier
   <= Z.of_nat (@readable rulesHost exampleFiles))%Z
  /\ (0 <= totalErrors oneWorkerBarrier
      <= Z.of_nat (@unreadable rulesHost exampleFiles))%Z.
Proof.
  destruct (@counters_only_grow miniRegexp rulesHost exampleRules
              exampleFiles 1 ltac:(vm_compute; reflexivity)
              oneWorkerSchedule oneWorkerBarrier
              ltac:(vm_compute; reflexivity))
    as (Hp & He & _).
  split; [exact Hp | exact He].
Defined.

(** ** The output sink *)

(** X20: the bytes [WriteInvoicesToCSV] writes determine the records it
    was given: the header line and then, for each invoice in order, one
    record of the five fields, which read back field by field whatever
    bytes the fields hold (commas, quotes and line breaks included, since
    the writer puts such a field in quotes and doubles its quotes); so two
    different lists of invoices never give the same file. *)
Theorem csv_content_determines_the_records :
  (forall invoices,
      CsvRead.readAll csvHeader (List.length invoices)
        (WriteInvoicesToCSV invoices)
      = Some invoices)
  /\ (forall l1 l2,
         WriteInvoicesToCSV l1 = WriteInvoicesToCSV l2 -> l1 = l2).
Proof.
  split; [exact readAll_WriteInvoicesToCSV|].
  intros l1 l2 Heq. unfold WriteInvoicesToCSV in Heq.
  apply (f_equal (CsvRead.readFields 5)) in Heq.
  change csvHeader with ("Fatura" :: tl csvHeader) in Heq.
  rewrite !(readFields_Write "Fatura" (tl csvHeader)) in Heq.
  injection Heq as Heq. apply writeRecords_inj. exact Heq.
Qed.
